(** * OpenRCT2 TrueType text caches (src/openrct2/drawing/TTF.cpp)

    A shallow embedding of the two open-addressed caches of TTF.cpp, the
    surface cache and the get-width cache, of their shared key hash, of the
    disposal routines and of the hinting toggle, together with the
    properties of the design document that concern them.

    Conventions of the embedding.
    - A pointer is its address, a [Z]; [nullptr] is 0.  Surfaces and fonts
      are compared by address only, as the C++ code does.
    - A [utf8] is the value of a C [char] as the arithmetic of the hash sees
      it (after promotion to [int]): -128..127 where [char] is signed,
      0..255 where it is unsigned.  A [const utf8*] argument is the list of
      chars found at the pointer; reading stops at the first NUL, or at the
      end of the list, which stands for the terminator.
    - An owned text copy ([utf8* text] of an entry) is [None] for nullptr
      and [Some s] for a heap copy holding the chars [s].
    - [uint32_t] values are [Z] in [0, 2^32) with the wrap-around written
      out; the [int32_t] counters wrap in two's complement.
    - The font engine (FreeType wrappers) is outside TTF.cpp: what it
      answers is given by a [FontEngine], and every call made to it, like
      every release of memory, is recorded in the [trace] of the state. *)

From Stdlib Require Import ZArith List Bool Lia.
From stdpp Require Import base list gmap.

Local Open Scope Z_scope.

(** ** Machine integers *)

Definition ptr := Z.
Definition nullptr : ptr := 0.

Definition utf8 := Z.

Definition wrap_uint32 (x : Z) : Z := x mod 2 ^ 32.

(** Two's complement wrap of an [int32_t] result. *)
Definition wrap_int32 (x : Z) : Z := (x + 2 ^ 31) mod 2 ^ 32 - 2 ^ 31.

(** The range of a [char] on either kind of platform. *)
Definition is_char (c : utf8) : Prop := -128 <= c <= 255.

(** ** C strings *)

(** The chars of the C string that starts at a buffer: everything before
    the first NUL. *)
Fixpoint c_str (text : list utf8) : list utf8 :=
  match text with
  | [] => []
  | ch :: rest => if ch =? 0 then [] else ch :: c_str rest
  end.

(** [strcmp]: walks both strings to the first difference or to the
    terminator; the sign of the result orders the differing chars as
    [unsigned char]. *)
Fixpoint strcmp (a b : list utf8) : Z :=
  match a, b with
  | [], [] => 0
  | [], cb :: _ => if cb =? 0 then 0 else -1
  | ca :: _, [] => if ca =? 0 then 0 else 1
  | ca :: ra, cb :: rb =>
      if ca =? cb then (if ca =? 0 then 0 else strcmp ra rb)
      else if ca mod 256 <? cb mod 256 then -1 else 1
  end.

(** A text without a NUL inside: all of it is the C string. *)
Definition nul_free (text : list utf8) : Prop := Forall (fun ch => ch <> 0) text.

(** [_strdup]: a fresh heap copy of the C string. *)
Definition _strdup (text : list utf8) : option (list utf8) := Some (c_str text).

(** ** The key hash (TTF.cpp, lines 132-140) *)

(** Modelled from the spec: the [ror32] macro of common.h is not part of the
    sources at hand; the design document describes it as rotating the 32-bit
    accumulator right by the given number of bits. *)
Definition ror32 (x shift : Z) : Z :=
  Z.lor (Z.shiftr (wrap_uint32 x) shift)
        (wrap_uint32 (Z.shiftl (wrap_uint32 x) (32 - shift))).

(** The body of the [for] loop: one char folded into the accumulator. *)
Definition hash_step (hash : Z) (ch : utf8) : Z :=
  Z.lxor (ror32 hash 3) (wrap_uint32 (ch * 13)).

(** [for (const utf8* ch = text; *ch != 0; ch++)] *)
Fixpoint hash_loop (hash : Z) (text : list utf8) : Z :=
  match text with
  | [] => hash
  | ch :: rest => if ch =? 0 then hash else hash_loop (hash_step hash ch) rest
  end.

(** [(uint32_t)((((uintptr_t)font * 23) ^ 0xAAAAAAAA) & 0xFFFFFFFF)]; the
    product is taken in [uintptr_t], 64 bits wide. *)
Definition hash_seed (font : ptr) : Z :=
  Z.land (Z.lxor ((font * 23) mod 2 ^ 64) 0xAAAAAAAA) 0xFFFFFFFF.

Definition ttf_surface_cache_hash (font : ptr) (text : list utf8) : Z :=
  hash_loop (hash_seed font) text.

(** ** The data model (TTF.cpp, lines 25-54) *)

Definition TTF_SURFACE_CACHE_SIZE : nat := 256.
Definition TTF_GETWIDTH_CACHE_SIZE : nat := 1024.

(** [struct ttf_cache_entry]; the fields carry the prefix [sc_]. *)
Record ttf_cache_entry := {
  sc_surface : ptr;
  sc_font : ptr;
  sc_text : option (list utf8);
  sc_lastUseTick : Z
}.

(** [struct ttf_getwidth_cache_entry]; the fields carry the prefix [gw_]. *)
Record ttf_getwidth_cache_entry := {
  gw_width : Z;
  gw_font : ptr;
  gw_text : option (list utf8);
  gw_lastUseTick : Z
}.

(** The part of [TTFFontDescriptor] that TTF.cpp reads in the functions
    modelled here. *)
Record TTFFontDescriptor := {
  fd_hinting_threshold : Z;
  fd_font : ptr
}.

(** What leaves TTF.cpp: calls into the font engine and releases of owned
    memory.  The newest event is at the head of a trace. *)
Inductive event :=
| EvRenderShaded (font : ptr) (text : list utf8)
| EvRenderSolid (font : ptr) (text : list utf8)
| EvSizeUTF8 (font : ptr) (text : list utf8)
| EvSetFontHinting (font : ptr) (hinting : Z)
| EvFreeSurface (surface : ptr)
| EvFreeText (text : option (list utf8)).

(** The answers of the font engine.  Each may depend on everything that
    happened before the call.  A render answers the address of a new
    surface or [nullptr]; [TTF_SizeUTF8] answers the value found in
    [width] after the call. *)
Record FontEngine := {
  TTF_RenderUTF8_Shaded : list event -> ptr -> list utf8 -> ptr;
  TTF_RenderUTF8_Solid : list event -> ptr -> list utf8 -> ptr;
  TTF_SizeUTF8 : list event -> ptr -> list utf8 -> Z
}.

(** The file-level variables of TTF.cpp, the globals it reads, the hinting
    flag kept inside each font object, and the trace. *)
Record TTFState := {
  _ttfSurfaceCache : list ttf_cache_entry;
  _ttfSurfaceCacheCount : Z;
  _ttfSurfaceCacheHitCount : Z;
  _ttfSurfaceCacheMissCount : Z;
  _ttfGetWidthCache : list ttf_getwidth_cache_entry;
  _ttfGetWidthCacheCount : Z;
  _ttfGetWidthCacheHitCount : Z;
  _ttfGetWidthCacheMissCount : Z;
  gCurrentDrawCount : Z;
  LocalisationService_UseTrueTypeFont : bool;
  gConfigFonts_enable_hinting : bool;
  gCurrentTTFFontSet : list TTFFontDescriptor;
  fontHinting : gmap Z Z;
  trace : list event
}.

Definition set_surface_cache (c : list ttf_cache_entry) (st : TTFState) : TTFState :=
  {| _ttfSurfaceCache := c;
     _ttfSurfaceCacheCount := _ttfSurfaceCacheCount st;
     _ttfSurfaceCacheHitCount := _ttfSurfaceCacheHitCount st;
     _ttfSurfaceCacheMissCount := _ttfSurfaceCacheMissCount st;
     _ttfGetWidthCache := _ttfGetWidthCache st;
     _ttfGetWidthCacheCount := _ttfGetWidthCacheCount st;
     _ttfGetWidthCacheHitCount := _ttfGetWidthCacheHitCount st;
     _ttfGetWidthCacheMissCount := _ttfGetWidthCacheMissCount st;
     gCurrentDrawCount := gCurrentDrawCount st;
     LocalisationService_UseTrueTypeFont := LocalisationService_UseTrueTypeFont st;
     gConfigFonts_enable_hinting := gConfigFonts_enable_hinting st;
     gCurrentTTFFontSet := gCurrentTTFFontSet st;
     fontHinting := fontHinting st;
     trace := trace st |}.

Definition set_surface_counters (count hit miss : Z) (st : TTFState) : TTFState :=
  {| _ttfSurfaceCache := _ttfSurfaceCache st;
     _ttfSurfaceCacheCount := count;
     _ttfSurfaceCacheHitCount := hit;
     _ttfSurfaceCacheMissCount := miss;
     _ttfGetWidthCache := _ttfGetWidthCache st;
     _ttfGetWidthCacheCount := _ttfGetWidthCacheCount st;
     _ttfGetWidthCacheHitCount := _ttfGetWidthCacheHitCount st;
     _ttfGetWidthCacheMissCount := _ttfGetWidthCacheMissCount st;
     gCurrentDrawCount := gCurrentDrawCount st;
     LocalisationService_UseTrueTypeFont := LocalisationService_UseTrueTypeFont st;
     gConfigFonts_enable_hinting := gConfigFonts_enable_hinting st;
     gCurrentTTFFontSet := gCurrentTTFFontSet st;
     fontHinting := fontHinting st;
     trace := trace st |}.

Definition set_getwidth_cache (c : list ttf_getwidth_cache_entry) (st : TTFState) : TTFState :=
  {| _ttfSurfaceCache := _ttfSurfaceCache st;
     _ttfSurfaceCacheCount := _ttfSurfaceCacheCount st;
     _ttfSurfaceCacheHitCount := _ttfSurfaceCacheHitCount st;
     _ttfSurfaceCacheMissCount := _ttfSurfaceCacheMissCount st;
     _ttfGetWidthCache := c;
     _ttfGetWidthCacheCount := _ttfGetWidthCacheCount st;
     _ttfGetWidthCacheHitCount := _ttfGetWidthCacheHitCount st;
     _ttfGetWidthCacheMissCount := _ttfGetWidthCacheMissCount st;
     gCurrentDrawCount := gCurrentDrawCount st;
     LocalisationService_UseTrueTypeFont := LocalisationService_UseTrueTypeFont st;
     gConfigFonts_enable_hinting := gConfigFonts_enable_hinting st;
     gCurrentTTFFontSet := gCurrentTTFFontSet st;
     fontHinting := fontHinting st;
     trace := trace st |}.

Definition set_getwidth_counters (count hit miss : Z) (st : TTFState) : TTFState :=
  {| _ttfSurfaceCache := _ttfSurfaceCache st;
     _ttfSurfaceCacheCount := _ttfSurfaceCacheCount st;
     _ttfSurfaceCacheHitCount := _ttfSurfaceCacheHitCount st;
     _ttfSurfaceCacheMissCount := _ttfSurfaceCacheMissCount st;
     _ttfGetWidthCache := _ttfGetWidthCache st;
     _ttfGetWidthCacheCount := count;
     _ttfGetWidthCacheHitCount := hit;
     _ttfGetWidthCacheMissCount := miss;
     gCurrentDrawCount := gCurrentDrawCount st;
     LocalisationService_UseTrueTypeFont := LocalisationService_UseTrueTypeFont st;
     gConfigFonts_enable_hinting := gConfigFonts_enable_hinting st;
     gCurrentTTFFontSet := gCurrentTTFFontSet st;
     fontHinting := fontHinting st;
     trace := trace st |}.

Definition set_draw_count (tick : Z) (st : TTFState) : TTFState :=
  {| _ttfSurfaceCache := _ttfSurfaceCache st;
     _ttfSurfaceCacheCount := _ttfSurfaceCacheCount st;
     _ttfSurfaceCacheHitCount := _ttfSurfaceCacheHitCount st;
     _ttfSurfaceCacheMissCount := _ttfSurfaceCacheMissCount st;
     _ttfGetWidthCache := _ttfGetWidthCache st;
     _ttfGetWidthCacheCount := _ttfGetWidthCacheCount st;
     _ttfGetWidthCacheHitCount := _ttfGetWidthCacheHitCount st;
     _ttfGetWidthCacheMissCount := _ttfGetWidthCacheMissCount st;
     gCurrentDrawCount := tick;
     LocalisationService_UseTrueTypeFont := LocalisationService_UseTrueTypeFont st;
     gConfigFonts_enable_hinting := gConfigFonts_enable_hinting st;
     gCurrentTTFFontSet := gCurrentTTFFontSet st;
     fontHinting := fontHinting st;
     trace := trace st |}.

(** The font engine's side of the state: hinting flags and trace. *)
Definition set_world (h : gmap Z Z) (t : list event) (st : TTFState) : TTFState :=
  {| _ttfSurfaceCache := _ttfSurfaceCache st;
     _ttfSurfaceCacheCount := _ttfSurfaceCacheCount st;
     _ttfSurfaceCacheHitCount := _ttfSurfaceCacheHitCount st;
     _ttfSurfaceCacheMissCount := _ttfSurfaceCacheMissCount st;
     _ttfGetWidthCache := _ttfGetWidthCache st;
     _ttfGetWidthCacheCount := _ttfGetWidthCacheCount st;
     _ttfGetWidthCacheHitCount := _ttfGetWidthCacheHitCount st;
     _ttfGetWidthCacheMissCount := _ttfGetWidthCacheMissCount st;
     gCurrentDrawCount := gCurrentDrawCount st;
     LocalisationService_UseTrueTypeFont := LocalisationService_UseTrueTypeFont st;
     gConfigFonts_enable_hinting := gConfigFonts_enable_hinting st;
     gCurrentTTFFontSet := gCurrentTTFFontSet st;
     fontHinting := h;
     trace := t |}.

Definition log_event (ev : event) (st : TTFState) : TTFState :=
  set_world (fontHinting st) (ev :: trace st) st.

(** ** The font engine as TTF.cpp uses it *)

(** Modelled from the spec: [TTF_GetFontHinting] and [TTF_SetFontHinting]
    belong to the font engine, whose code is not part of the sources at
    hand; the design document lists them as GetHinting(handle) and
    SetHinting(handle, enabled).  A font that was never set reads 0. *)
Definition TTF_GetFontHinting (font : ptr) (st : TTFState) : Z :=
  default 0 (fontHinting st !! font).

Definition TTF_SetFontHinting (font : ptr) (hinting : Z) (st : TTFState) : TTFState :=
  set_world (<[font := hinting]> (fontHinting st))
            (EvSetFontHinting font hinting :: trace st) st.

(** [ttf_free_surface] (lines 332-336): the pixels and the surface go. *)
Definition ttf_free_surface (surface : ptr) (st : TTFState) : TTFState :=
  log_event (EvFreeSurface surface) st.

(** [free(entry->text)] *)
Definition free_text (text : option (list utf8)) (st : TTFState) : TTFState :=
  log_event (EvFreeText text) st.

(** [ttf_render] (lines 320-330) *)
Definition ttf_render (E : FontEngine) (font : ptr) (text : list utf8)
    (st : TTFState) : ptr * TTFState :=
  if negb (TTF_GetFontHinting font st =? 0) then
    (TTF_RenderUTF8_Shaded E (trace st) font text,
     log_event (EvRenderShaded font text) st)
  else
    (TTF_RenderUTF8_Solid E (trace st) font text,
     log_event (EvRenderSolid font text) st).

(** [ttf_get_size] (lines 315-318); the result is the value of [*outWidth]
    after the call, the only output that a caller in this file reads. *)
Definition ttf_get_size (E : FontEngine) (font : ptr) (text : list utf8)
    (st : TTFState) : Z * TTFState :=
  (TTF_SizeUTF8 E (trace st) font text, log_event (EvSizeUTF8 font text) st).

(** ** The probe loop (lines 190-213 and 263-286)

    The two [for] loops differ in the entry type, in the field whose
    nullness marks an empty slot and in the table size only; they are one
    function of these.  The loop either returns from inside (a hit) or
    leaves [index] for the code after it (a miss). *)

Inductive probe_result :=
| ProbeHit (index : nat)
| ProbeMiss (index : nat).

Section Probe.
Context {entry : Type}.
Variable is_empty : entry -> bool.
Variable entry_font : entry -> ptr.
Variable entry_text : entry -> option (list utf8).
Variable entry_tick : entry -> Z.
Variable CACHE_SIZE : nat.
Variable cache : list entry.
Variable font : ptr.
Variable text : list utf8.
Variable tick : Z.

(** [entry->font == font && strcmp(entry->text, text) == 0].  An occupied
    slot owns a text in every state the code produces; a null text, which
    [strcmp] could not read, matches nothing here. *)
Definition entry_matches (e : entry) : bool :=
  (entry_font e =? font) &&
  match entry_text e with
  | Some s => strcmp s text =? 0
  | None => false
  end.

(** [entry->lastUseTick < gCurrentDrawCount - 64], in [uint32_t]. *)
Definition entry_stale (e : entry) : bool :=
  entry_tick e <? wrap_uint32 (tick - 64).

(** [if (++index >= CACHE_SIZE) index = 0;] *)
Definition next_index (index : nat) : nat :=
  if (CACHE_SIZE <=? S index)%nat then O else S index.

(** [iterations] is what is left of [i < CACHE_SIZE]. *)
Fixpoint probe_loop (iterations : nat) (index : nat) : probe_result :=
  match iterations with
  | O => ProbeMiss index
  | S n =>
      match cache !! index with
      | None => ProbeMiss index
      | Some e =>
          if is_empty e then ProbeMiss index
          else if entry_matches e then ProbeHit index
          else if entry_stale e then ProbeMiss index
          else probe_loop n (next_index index)
      end
  end.

(** A slot seen as a key: [None] when the slot is empty. *)
Definition entry_key (e : entry) : option (ptr * option (list utf8)) :=
  if is_empty e then None else Some (entry_font e, entry_text e).

(** What the loop does, stated with its own three tests.

    An occupied, fresh slot that holds another key is passed over. *)
Definition skipped (e : entry) : Prop :=
  is_empty e = false /\ entry_matches e = false /\ entry_stale e = false.

(** The three exits of the loop body, in their order: the slot at which
    the probe stops and what the lookup is then. *)
Inductive probe_stop (e : entry) (index : nat) : probe_result -> Prop :=
| stop_empty :
    is_empty e = true -> probe_stop e index (ProbeMiss index)
| stop_hit :
    is_empty e = false -> entry_matches e = true ->
    probe_stop e index (ProbeHit index)
| stop_stale :
    is_empty e = false -> entry_matches e = false -> entry_stale e = true ->
    probe_stop e index (ProbeMiss index).

(** From [home], [k] slots are passed over, one after the other with
    wrap-around, and either the probe stops at the next one, or all
    [CACHE_SIZE] slots were passed over and the lookup is a miss at
    [target]. *)
Definition probe_contract (home target : nat) (res : probe_result) : Prop :=
  exists k : nat,
    (k <= CACHE_SIZE)%nat /\
    (forall j, (j < k)%nat ->
       exists e, cache !! ((home + j) mod CACHE_SIZE)%nat = Some e /\ skipped e) /\
    ((k < CACHE_SIZE)%nat /\
       (exists e, cache !! ((home + k) mod CACHE_SIZE)%nat = Some e /\
                  probe_stop e ((home + k) mod CACHE_SIZE)%nat res)
     \/ k = CACHE_SIZE /\ res = ProbeMiss target).
End Probe.

(** The probing contract of the design document, in its words and with
    none of the tests of the loop.  A slot holds the key when its font
    handle is the font asked for and its text has the content of the text
    asked for; it is older than the threshold when its [lastUseTick] lies
    below the current tick minus 64, the subtraction being that of
    [uint32_t]. *)
Section ProbeRules.
Context {entry : Type}.
Variable slot_empty : entry -> Prop.
Variable entry_font : entry -> ptr.
Variable entry_text : entry -> option (list utf8).
Variable entry_tick : entry -> Z.
Variable N : nat.
Variable cache : list entry.
Variable font : ptr.
Variable text : list utf8.
Variable tick : Z.

Definition holds_key (e : entry) : Prop :=
  entry_font e = font /\ exists s, entry_text e = Some s /\ c_str s = c_str text.

Definition older_than_64_ticks (e : entry) : Prop :=
  entry_tick e < (tick - 64) mod 2 ^ 32.

(** Rule 4: an occupied, fresh slot that holds another key is passed
    over. *)
Definition passed_over (e : entry) : Prop :=
  ~ slot_empty e /\ ~ holds_key e /\ ~ older_than_64_ticks e.

(** Rules 1 to 3, in their order: an empty slot is a miss, a slot that holds
    the key is a hit, a slot older than the threshold is a miss. *)
Definition stops_at (e : entry) (index : nat) (res : probe_result) : Prop :=
  (slot_empty e /\ res = ProbeMiss index)
  \/ (~ slot_empty e /\ holds_key e /\ res = ProbeHit index)
  \/ (~ slot_empty e /\ ~ holds_key e /\ older_than_64_ticks e /\ res = ProbeMiss index).

(** From [home], [k] slots are passed over, one after the other with
    wrap-around, and the probe stops at the next one; or all [N] slots were
    passed over and the lookup is a miss at [home]. *)
Definition probing_rules (home : nat) (res : probe_result) : Prop :=
  exists k : nat,
    (k <= N)%nat /\
    (forall j, (j < k)%nat ->
       exists e, cache !! ((home + j) mod N)%nat = Some e /\ passed_over e) /\
    ((k < N)%nat /\
       (exists e, cache !! ((home + k) mod N)%nat = Some e /\
                  stops_at e ((home + k) mod N)%nat res)
     \/ k = N /\ res = ProbeMiss home).
End ProbeRules.

(** ** The surface cache (lines 142-234) *)

Definition surface_is_empty (entry : ttf_cache_entry) : bool :=
  sc_surface entry =? nullptr.

(** [ttf_surface_cache_dispose(&_ttfSurfaceCache[index])]: both callers
    pass the address of a slot of the table. *)
Definition ttf_surface_cache_dispose (index : nat) (st : TTFState) : TTFState :=
  match _ttfSurfaceCache st !! index with
  | Some entry =>
      if negb (sc_surface entry =? nullptr) then
        let st1 := ttf_free_surface (sc_surface entry) st in
        let st2 := free_text (sc_text entry) st1 in
        set_surface_cache
          (<[index := {| sc_surface := nullptr; sc_font := nullptr;
                         sc_text := None;
                         sc_lastUseTick := sc_lastUseTick entry |}]>
             (_ttfSurfaceCache st2)) st2
      else st
  | None => st
  end.

(** Lines 155-162: each slot is disposed of and the counter goes down by
    one, slot after slot. *)
Definition ttf_surface_cache_dispose_all (st : TTFState) : TTFState :=
  fold_left
    (fun st i =>
       let st1 := ttf_surface_cache_dispose i st in
       set_surface_counters (wrap_int32 (_ttfSurfaceCacheCount st1 - 1))
         (_ttfSurfaceCacheHitCount st1) (_ttfSurfaceCacheMissCount st1) st1)
    (seq 0 TTF_SURFACE_CACHE_SIZE) st.

Arguments ttf_surface_cache_dispose_all : simpl never.

(** Lines 164-182. *)
Definition ttf_toggle_hinting (st : TTFState) : TTFState :=
  if negb (LocalisationService_UseTrueTypeFont st) then st
  else
    let st1 :=
      fold_left
        (fun st fontDesc =>
           let use_hinting :=
             gConfigFonts_enable_hinting st
             && negb (fd_hinting_threshold fontDesc =? 0) in
           TTF_SetFontHinting (fd_font fontDesc) (if use_hinting then 1 else 0) st)
        (gCurrentTTFFontSet st) st in
    if negb (_ttfSurfaceCacheCount st1 =? 0) then ttf_surface_cache_dispose_all st1
    else st1.

(** Lines 188-189: [hash % TTF_SURFACE_CACHE_SIZE], the home slot. *)
Definition surface_home (font : ptr) (text : list utf8) : nat :=
  let hash := ttf_surface_cache_hash font text in
  Z.to_nat (hash mod Z.of_nat TTF_SURFACE_CACHE_SIZE).

(** Lines 190-213: the loop from the home slot. *)
Definition surface_probe (font : ptr) (text : list utf8) (st : TTFState) : probe_result :=
  probe_loop surface_is_empty sc_font sc_text sc_lastUseTick
    TTF_SURFACE_CACHE_SIZE (_ttfSurfaceCache st) font text (gCurrentDrawCount st)
    TTF_SURFACE_CACHE_SIZE (surface_home font text).

(** The probing contract read on the surface table of a state. *)
Definition surface_probe_contract (font : ptr) (text : list utf8) (st : TTFState)
    (home target : nat) (res : probe_result) : Prop :=
  probe_contract surface_is_empty sc_font sc_text sc_lastUseTick
    TTF_SURFACE_CACHE_SIZE (_ttfSurfaceCache st) font text (gCurrentDrawCount st)
    home target res.

(** Lines 184-234.  The result is the returned pointer and the state left
    behind. *)
Definition ttf_surface_cache_get_or_add (E : FontEngine) (font : ptr)
    (text : list utf8) (st : TTFState) : ptr * TTFState :=
  match surface_probe font text st with
  | ProbeHit index =>
      match _ttfSurfaceCache st !! index with
      | Some entry =>
          let st1 :=
            set_surface_counters (_ttfSurfaceCacheCount st)
              (wrap_int32 (_ttfSurfaceCacheHitCount st + 1))
              (_ttfSurfaceCacheMissCount st) st in
          (sc_surface entry,
           set_surface_cache
             (<[index := {| sc_surface := sc_surface entry;
                            sc_font := sc_font entry;
                            sc_text := sc_text entry;
                            sc_lastUseTick := gCurrentDrawCount st |}]>
                (_ttfSurfaceCache st1)) st1)
      | None => (nullptr, st)
      end
  | ProbeMiss index =>
      let st1 := ttf_surface_cache_dispose index st in
      let '(surface, st2) := ttf_render E font text st1 in
      if surface =? nullptr then (nullptr, st2)
      else
        let st3 :=
          set_surface_counters (wrap_int32 (_ttfSurfaceCacheCount st2 + 1))
            (_ttfSurfaceCacheHitCount st2)
            (wrap_int32 (_ttfSurfaceCacheMissCount st2 + 1)) st2 in
        (surface,
         set_surface_cache
           (<[index := {| sc_surface := surface; sc_font := font;
                          sc_text := _strdup text;
                          sc_lastUseTick := gCurrentDrawCount st |}]>
              (_ttfSurfaceCache st3)) st3)
  end.

(** A slot once [ttf_surface_cache_dispose] has run on it. *)
Definition surface_disposed (e : ttf_cache_entry) : ttf_cache_entry :=
  if surface_is_empty e then e
  else {| sc_surface := nullptr; sc_font := nullptr; sc_text := None;
          sc_lastUseTick := sc_lastUseTick e |}.

(** The slot a surface miss leaves behind: the new entry, or, when the
    render fails, the slot as the disposal left it. *)
Definition surface_slot_after_miss (e0 : ttf_cache_entry) (surface : ptr)
    (font : ptr) (text : list utf8) (tick : Z) : ttf_cache_entry :=
  if surface =? nullptr then
    if surface_is_empty e0 then e0
    else {| sc_surface := nullptr; sc_font := nullptr; sc_text := None;
            sc_lastUseTick := sc_lastUseTick e0 |}
  else {| sc_surface := surface; sc_font := font; sc_text := _strdup text;
          sc_lastUseTick := tick |}.

(** What the disposal of a slot releases. *)
Definition surface_releases (e0 : ttf_cache_entry) : list event :=
  if surface_is_empty e0 then []
  else [EvFreeText (sc_text e0); EvFreeSurface (sc_surface e0)].

(** ** The get-width cache (lines 236-303) *)

Definition getwidth_is_empty (entry : ttf_getwidth_cache_entry) : bool :=
  match gw_text entry with
  | None => true
  | Some _ => false
  end.

(** [ttf_getwidth_cache_dispose(&_ttfGetWidthCache[index])] *)
Definition ttf_getwidth_cache_dispose (index : nat) (st : TTFState) : TTFState :=
  match _ttfGetWidthCache st !! index with
  | Some entry =>
      if negb (getwidth_is_empty entry) then
        let st1 := free_text (gw_text entry) st in
        set_getwidth_cache
          (<[index := {| gw_width := 0; gw_font := nullptr; gw_text := None;
                         gw_lastUseTick := gw_lastUseTick entry |}]>
             (_ttfGetWidthCache st1)) st1
      else st
  | None => st
  end.

(** Lines 248-255. *)
Definition ttf_getwidth_cache_dispose_all (st : TTFState) : TTFState :=
  fold_left
    (fun st i =>
       let st1 := ttf_getwidth_cache_dispose i st in
       set_getwidth_counters (wrap_int32 (_ttfGetWidthCacheCount st1 - 1))
         (_ttfGetWidthCacheHitCount st1) (_ttfGetWidthCacheMissCount st1) st1)
    (seq 0 TTF_GETWIDTH_CACHE_SIZE) st.

(** A slot once [ttf_getwidth_cache_dispose] has run on it, and what that
    releases. *)
Definition getwidth_disposed (e : ttf_getwidth_cache_entry) : ttf_getwidth_cache_entry :=
  if getwidth_is_empty e then e
  else {| gw_width := 0; gw_font := nullptr; gw_text := None;
          gw_lastUseTick := gw_lastUseTick e |}.

Definition getwidth_releases (e0 : ttf_getwidth_cache_entry) : list event :=
  if getwidth_is_empty e0 then [] else [EvFreeText (gw_text e0)].

Arguments ttf_getwidth_cache_dispose_all : simpl never.

(** Lines 261-262: [hash % TTF_GETWIDTH_CACHE_SIZE], the home slot. *)
Definition getwidth_home (font : ptr) (text : list utf8) : nat :=
  let hash := ttf_surface_cache_hash font text in
  Z.to_nat (hash mod Z.of_nat TTF_GETWIDTH_CACHE_SIZE).

(** Lines 263-286: the loop from the home slot. *)
Definition getwidth_probe (font : ptr) (text : list utf8) (st : TTFState) : probe_result :=
  probe_loop getwidth_is_empty gw_font gw_text gw_lastUseTick
    TTF_GETWIDTH_CACHE_SIZE (_ttfGetWidthCache st) font text (gCurrentDrawCount st)
    TTF_GETWIDTH_CACHE_SIZE (getwidth_home font text).

(** The probing contract read on the get-width table of a state. *)
Definition getwidth_probe_contract (font : ptr) (text : list utf8) (st : TTFState)
    (home target : nat) (res : probe_result) : Prop :=
  probe_contract getwidth_is_empty gw_font gw_text gw_lastUseTick
    TTF_GETWIDTH_CACHE_SIZE (_ttfGetWidthCache st) font text (gCurrentDrawCount st)
    home target res.

(** Lines 257-303.  [width] is stored and returned as [uint32_t]. *)
Definition ttf_getwidth_cache_get_or_add (E : FontEngine) (font : ptr)
    (text : list utf8) (st : TTFState) : Z * TTFState :=
  match getwidth_probe font text st with
  | ProbeHit index =>
      match _ttfGetWidthCache st !! index with
      | Some entry =>
          let st1 :=
            set_getwidth_counters (_ttfGetWidthCacheCount st)
              (wrap_int32 (_ttfGetWidthCacheHitCount st + 1))
              (_ttfGetWidthCacheMissCount st) st in
          (gw_width entry,
           set_getwidth_cache
             (<[index := {| gw_width := gw_width entry;
                            gw_font := gw_font entry;
                            gw_text := gw_text entry;
                            gw_lastUseTick := gCurrentDrawCount st |}]>
                (_ttfGetWidthCache st1)) st1)
      | None => (0, st)
      end
  | ProbeMiss index =>
      let st1 := ttf_getwidth_cache_dispose index st in
      let '(width, st2) := ttf_get_size E font text st1 in
      let st3 :=
        set_getwidth_counters (wrap_int32 (_ttfGetWidthCacheCount st2 + 1))
          (_ttfGetWidthCacheHitCount st2)
          (wrap_int32 (_ttfGetWidthCacheMissCount st2 + 1)) st2 in
      (wrap_uint32 width,
       set_getwidth_cache
         (<[index := {| gw_width := wrap_uint32 width; gw_font := font;
                        gw_text := _strdup text;
                        gw_lastUseTick := gCurrentDrawCount st |}]>
            (_ttfGetWidthCache st3)) st3)
  end.

(** ** Runs of the subsystem *)

(** All slots empty, all counters zero: the static initialisers of lines
    46-54. *)
Definition empty_surface_entry : ttf_cache_entry :=
  {| sc_surface := nullptr; sc_font := nullptr; sc_text := None; sc_lastUseTick := 0 |}.

Definition empty_getwidth_entry : ttf_getwidth_cache_entry :=
  {| gw_width := 0; gw_font := nullptr; gw_text := None; gw_lastUseTick := 0 |}.

Definition initial_state (use_ttf enable_hinting : bool)
    (fontSet : list TTFFontDescriptor) : TTFState :=
  {| _ttfSurfaceCache := replicate TTF_SURFACE_CACHE_SIZE empty_surface_entry;
     _ttfSurfaceCacheCount := 0;
     _ttfSurfaceCacheHitCount := 0;
     _ttfSurfaceCacheMissCount := 0;
     _ttfGetWidthCache := replicate TTF_GETWIDTH_CACHE_SIZE empty_getwidth_entry;
     _ttfGetWidthCacheCount := 0;
     _ttfGetWidthCacheHitCount := 0;
     _ttfGetWidthCacheMissCount := 0;
     gCurrentDrawCount := 0;
     LocalisationService_UseTrueTypeFont := use_ttf;
     gConfigFonts_enable_hinting := enable_hinting;
     gCurrentTTFFontSet := fontSet;
     fontHinting := ∅;
     trace := [] |}.

(** The sizes of the two arrays, which no operation changes. *)
Definition tables_sized (st : TTFState) : Prop :=
  length (_ttfSurfaceCache st) = TTF_SURFACE_CACHE_SIZE /\
  length (_ttfGetWidthCache st) = TTF_GETWIDTH_CACHE_SIZE.

(** What the rest of the program does to this state. *)
Inductive operation :=
| GetOrAddSurface (font : ptr) (text : list utf8)
| GetOrAddWidth (font : ptr) (text : list utf8)
| DisposeAllSurface
| DisposeAllWidth
| ToggleHinting
| DrawFrame.

(** Modelled from the spec: the drawing code that advances
    [gCurrentDrawCount] is not part of the sources at hand; the design
    document has it advanced once per rendered frame and only read by the
    caches. *)
Definition draw_frame (st : TTFState) : TTFState :=
  set_draw_count (wrap_uint32 (gCurrentDrawCount st + 1)) st.

Definition step (E : FontEngine) (st : TTFState) (op : operation) : TTFState :=
  match op with
  | GetOrAddSurface font text => snd (ttf_surface_cache_get_or_add E font text st)
  | GetOrAddWidth font text => snd (ttf_getwidth_cache_get_or_add E font text st)
  | DisposeAllSurface => ttf_surface_cache_dispose_all st
  | DisposeAllWidth => ttf_getwidth_cache_dispose_all st
  | ToggleHinting => ttf_toggle_hinting st
  | DrawFrame => draw_frame st
  end.

Definition run (E : FontEngine) (ops : list operation) (st : TTFState) : TTFState :=
  fold_left (step E) ops st.

(** A slot of a table seen as a key: [None] when the slot is empty. *)
Definition surface_key (e : ttf_cache_entry) : option (ptr * option (list utf8)) :=
  entry_key surface_is_empty sc_font sc_text e.

Definition getwidth_key (e : ttf_getwidth_cache_entry) : option (ptr * option (list utf8)) :=
  entry_key getwidth_is_empty gw_font gw_text e.

(** No two occupied slots hold the same (font, text) pair. *)
Definition keys_unique (keys : list (option (ptr * option (list utf8)))) : Prop :=
  forall (i j : nat) (k : ptr * option (list utf8)),
    keys !! i = Some (Some k) -> keys !! j = Some (Some k) -> i = j.

(** The key of a lookup as a slot would hold it: the font handle with the
    copy of the C string that [_strdup] makes. *)
Definition lookup_key (font : ptr) (text : list utf8) : ptr * option (list utf8) :=
  (font, _strdup text).

(** An occupied slot of the table holds the key of the lookup. *)
Definition surface_holds (font : ptr) (text : list utf8) (st : TTFState) : bool :=
  existsb (fun e => bool_decide (surface_key e = Some (lookup_key font text)))
    (_ttfSurfaceCache st).

Definition getwidth_holds (font : ptr) (text : list utf8) (st : TTFState) : bool :=
  existsb (fun e => bool_decide (getwidth_key e = Some (lookup_key font text)))
    (_ttfGetWidthCache st).

(** The operation is a lookup that misses although its table holds the
    key, and that stores the key: a width lookup always does, a surface
    lookup when the render succeeds. *)
Definition stores_held_key (E : FontEngine) (op : operation) (st : TTFState) : bool :=
  match op with
  | GetOrAddSurface font text =>
      match surface_probe font text st with
      | ProbeMiss _ =>
          negb (fst (ttf_surface_cache_get_or_add E font text st) =? nullptr)
          && surface_holds font text st
      | ProbeHit _ => false
      end
  | GetOrAddWidth font text =>
      match getwidth_probe font text st with
      | ProbeMiss _ => getwidth_holds font text st
      | ProbeHit _ => false
      end
  | _ => false
  end.

Fixpoint no_held_key_stored (E : FontEngine) (ops : list operation) (st : TTFState) : bool :=
  match ops with
  | [] => true
  | op :: rest => negb (stores_held_key E op st) && no_held_key_stored E rest (step E st op)
  end.

(** Every occupied slot is the home slot of the key it holds, and owns the
    text as a C string. *)
Definition keys_at_home (st : TTFState) : Prop :=
  (forall i e, _ttfSurfaceCache st !! i = Some e -> surface_is_empty e = false ->
     exists s, sc_text e = Some s /\ c_str s = s /\ surface_home (sc_font e) s = i) /\
  (forall i e, _ttfGetWidthCache st !! i = Some e -> getwidth_is_empty e = false ->
     exists s, gw_text e = Some s /\ c_str s = s /\ getwidth_home (gw_font e) s = i).

(** The number of render calls in a trace. *)
Definition is_render (ev : event) : bool :=
  match ev with
  | EvRenderShaded _ _ | EvRenderSolid _ _ => true
  | _ => false
  end.

Definition render_calls (t : list event) : nat := length (List.filter is_render t).


(** ** Sample engines, keys and states

    Concrete inputs on which the definitions above are evaluated. *)

(** Every render succeeds and answers a new address; the width is eight
    pixels a char. *)
Definition sample_engine : FontEngine :=
  {| TTF_RenderUTF8_Shaded := fun history _ _ => 8192 + 16 * Z.of_nat (length history);
     TTF_RenderUTF8_Solid := fun history _ _ => 8192 + 16 * Z.of_nat (length history);
     TTF_SizeUTF8 := fun _ _ text => 8 * Z.of_nat (length (c_str text)) |}.

(** No render ever succeeds. *)
Definition failing_engine : FontEngine :=
  {| TTF_RenderUTF8_Shaded := fun _ _ _ => nullptr;
     TTF_RenderUTF8_Solid := fun _ _ _ => nullptr;
     TTF_SizeUTF8 := fun _ _ text => 8 * Z.of_nat (length (c_str text)) |}.

(** The first render fails, the later ones succeed. *)
Definition flaky_engine : FontEngine :=
  {| TTF_RenderUTF8_Shaded := fun history _ _ =>
       if existsb is_render history then 8192 + 16 * Z.of_nat (length history) else nullptr;
     TTF_RenderUTF8_Solid := fun history _ _ =>
       if existsb is_render history then 8192 + 16 * Z.of_nat (length history) else nullptr;
     TTF_SizeUTF8 := fun _ _ text => 8 * Z.of_nat (length (c_str text)) |}.

Definition sample_fonts : list TTFFontDescriptor :=
  [ {| fd_hinting_threshold := 0; fd_font := 4096 |};
    {| fd_hinting_threshold := 60; fd_font := 4352 |};
    {| fd_hinting_threshold := 60; fd_font := 4608 |} ].

(** TrueType in use, hinting enabled, nothing cached, tick 0. *)
Definition sample_state : TTFState := initial_state true true sample_fonts.

(** The same with the sprite font in use. *)
Definition sprite_state : TTFState := initial_state false true sample_fonts.

(** Two texts whose hashes under font 4096 agree modulo 256 and modulo
    1024: AA and NB. *)
Definition text_AA : list utf8 := [65; 65].
Definition text_NB : list utf8 := [78; 66].

(** 256 different two-letter texts, AA to PP. *)
Definition nth_text (i : nat) : list utf8 :=
  [65 + Z.of_nat (i / 16); 65 + Z.of_nat (i mod 16)].

(** A surface table filled within one frame: 100 frames pass, then 256
    different texts are drawn with font 4096. *)
Definition full_fresh_state : TTFState :=
  run sample_engine
    (repeat DrawFrame 100 ++ map (fun i => GetOrAddSurface 4096 (nth_text i)) (seq 0 256))
    sample_state.

(** The drawing counter has gone once round: AA was drawn in the last frame
    before the wrap, and one frame later the tick is 0. *)
Definition wrapped_tick_state : TTFState :=
  draw_frame
    (snd (ttf_surface_cache_get_or_add sample_engine 4096 text_AA
            (set_draw_count (2 ^ 32 - 1) sample_state))).

(** AA drawn at tick 10, within the first 64 frames. *)
Definition early_state : TTFState :=
  snd (ttf_surface_cache_get_or_add sample_engine 4096 text_AA
         (set_draw_count 10 sample_state)).

(** AA drawn and measured once at tick 0. *)
Definition one_key_state : TTFState :=
  snd (ttf_getwidth_cache_get_or_add sample_engine 4096 text_AA
         (snd (ttf_surface_cache_get_or_add sample_engine 4096 text_AA sample_state))).

(** The same while the sprite font is in use. *)
Definition sprite_one_key_state : TTFState :=
  snd (ttf_getwidth_cache_get_or_add sample_engine 4096 text_AA
         (snd (ttf_surface_cache_get_or_add sample_engine 4096 text_AA sprite_state))).

(** AA is drawn, the hinting is toggled, 100 frames pass, and 255 other
    texts are drawn. *)
Definition miscounted_state : TTFState :=
  run sample_engine
    ([GetOrAddSurface 4096 text_AA; ToggleHinting] ++ repeat DrawFrame 100
     ++ map (fun i => GetOrAddSurface 4096 (nth_text i)) (seq 1 255))
    sample_state.

(** 64 frames pass; AA and NB, which share the home slot 78, are drawn; 65
    frames pass; NB is drawn again.  The same with the widths. *)
Definition duplicate_key_ops : list operation :=
  repeat DrawFrame 64
  ++ [GetOrAddSurface 4096 text_AA; GetOrAddSurface 4096 text_NB;
      GetOrAddWidth 4096 text_AA; GetOrAddWidth 4096 text_NB]
  ++ repeat DrawFrame 65
  ++ [GetOrAddSurface 4096 text_NB; GetOrAddWidth 4096 text_NB].

Definition duplicate_key_state : TTFState := run sample_engine duplicate_key_ops sample_state.

(** A run in which every miss finds an empty slot: AA and NB are drawn and
    measured within one frame, NB after AA on the shared probe path, and AA
    is drawn again. *)
Definition no_replacement_ops : list operation :=
  repeat DrawFrame 64
  ++ [GetOrAddSurface 4096 text_AA; GetOrAddSurface 4096 text_NB;
      GetOrAddWidth 4096 text_AA; GetOrAddWidth 4096 text_NB;
      GetOrAddSurface 4096 text_AA].

(** A run with a replacement that keeps the keys apart: at start-up AA is
    drawn and measured, then NB, which finds AA in its home slot and takes
    its place. *)
Definition replacement_ops : list operation :=
  [GetOrAddSurface 4096 text_AA; GetOrAddWidth 4096 text_AA;
   GetOrAddSurface 4096 text_NB; GetOrAddWidth 4096 text_NB].

(** [skipped], decided. *)
Definition surface_skippedb (font : ptr) (text : list utf8) (tick : Z)
    (e : ttf_cache_entry) : bool :=
  negb (surface_is_empty e)
  && negb (entry_matches sc_font sc_text font text e)
  && negb (entry_stale sc_lastUseTick tick e).

(** ** Further parts of the code *)

(** [index] after [n] rounds of [if (++index >= CACHE_SIZE) index = 0;]. *)
Fixpoint index_after (CACHE_SIZE n index : nat) : nat :=
  match n with
  | O => index
  | S n' => index_after CACHE_SIZE n' (next_index CACHE_SIZE index)
  end.

(** A slot as the code leaves it: either all of surface, font and text are
    null, or the slot holds a surface and owns a copy of a C string. *)
Definition surface_slot_shaped (e : ttf_cache_entry) : Prop :=
  (sc_surface e = nullptr /\ sc_font e = nullptr /\ sc_text e = None)
  \/ (sc_surface e <> nullptr /\ exists s, sc_text e = Some s /\ nul_free s).

Definition getwidth_slot_shaped (e : ttf_getwidth_cache_entry) : Prop :=
  (gw_text e = None /\ gw_font e = nullptr /\ gw_width e = 0)
  \/ (0 <= gw_width e < 2 ^ 32 /\ exists s, gw_text e = Some s /\ nul_free s).

Definition slots_shaped (st : TTFState) : Prop :=
  Forall surface_slot_shaped (_ttfSurfaceCache st)
  /\ Forall getwidth_slot_shaped (_ttfGetWidthCache st).

(** No slot carries a stamp from after the current tick. *)
Definition stamps_in_past (st : TTFState) : Prop :=
  Forall (fun e => 0 <= sc_lastUseTick e <= gCurrentDrawCount st) (_ttfSurfaceCache st)
  /\ Forall (fun e => 0 <= gw_lastUseTick e <= gCurrentDrawCount st) (_ttfGetWidthCache st).

(** The frames of a run. *)
Definition is_frame (op : operation) : bool :=
  match op with DrawFrame => true | _ => false end.

Definition frames (ops : list operation) : Z := Z.of_nat (length (List.filter is_frame ops)).

(** What [ttf_toggle_hinting] asks for a size class:
    [gConfigFonts.enable_hinting && fontDesc->hinting_threshold]. *)
Definition use_hinting (st : TTFState) (fontDesc : TTFFontDescriptor) : Z :=
  if gConfigFonts_enable_hinting st && negb (fd_hinting_threshold fontDesc =? 0)
  then 1 else 0.

(** The ways in which one operation changes the surface table: not at
    all; the stamp of an occupied slot; a new entry in a slot; the disposal
    of a slot; the disposal of all slots. *)
Inductive surface_cache_change (tick : Z) (cache : list ttf_cache_entry) :
    list ttf_cache_entry -> Prop :=
| sc_unchanged : surface_cache_change tick cache cache
| sc_stamped t e :
    cache !! t = Some e -> sc_surface e <> nullptr ->
    surface_cache_change tick cache
      (<[t := {| sc_surface := sc_surface e; sc_font := sc_font e;
                 sc_text := sc_text e; sc_lastUseTick := tick |}]> cache)
| sc_stored t surface font text :
    surface <> nullptr ->
    surface_cache_change tick cache
      (<[t := {| sc_surface := surface; sc_font := font; sc_text := _strdup text;
                 sc_lastUseTick := tick |}]> cache)
| sc_disposed t e :
    cache !! t = Some e ->
    surface_cache_change tick cache (<[t := surface_disposed e]> cache)
| sc_all_disposed :
    surface_cache_change tick cache (surface_disposed <$> cache).

(** The same for the get-width table, where a miss always stores. *)
Inductive getwidth_cache_change (tick : Z) (cache : list ttf_getwidth_cache_entry) :
    list ttf_getwidth_cache_entry -> Prop :=
| gw_unchanged : getwidth_cache_change tick cache cache
| gw_stamped t e :
    cache !! t = Some e -> gw_text e <> None ->
    getwidth_cache_change tick cache
      (<[t := {| gw_width := gw_width e; gw_font := gw_font e;
                 gw_text := gw_text e; gw_lastUseTick := tick |}]> cache)
| gw_stored t width font text :
    getwidth_cache_change tick cache
      (<[t := {| gw_width := wrap_uint32 width; gw_font := font; gw_text := _strdup text;
                 gw_lastUseTick := tick |}]> cache)
| gw_all_disposed :
    getwidth_cache_change tick cache (getwidth_disposed <$> cache).

(** ** Start and shutdown (TTF.cpp, lines 25 and 65-130) *)

(** The calls that start and stop the font engine and that load and close
    fonts; the newest is at the head of the log, which is kept apart from
    [trace]. *)
Inductive lifecycle_event :=
| EvInit
| EvQuit
| EvGetFontPath (size_class : nat)
| EvOpenFont (fontPath : list utf8) (size_class : nat)
| EvCloseFont (font : ptr).

(** The answers of [TTF_Init], [platform_get_font_path] ([None] when it
    returns false) and [TTF_OpenFont], each by what was logged before.  A
    font is asked for by its size class: the name and the point size of a
    descriptor, which [TTFFontDescriptor] above leaves out, are those of
    [gCurrentTTFFontSet->size[size_class]]. *)
Record FontLoader := {
  TTF_Init : list lifecycle_event -> Z;
  platform_get_font_path : list lifecycle_event -> nat -> option (list utf8);
  TTF_OpenFont : list lifecycle_event -> list utf8 -> nat -> ptr
}.

(** The state of TTF.cpp with [_ttfInitialised]. *)
Record TTFSystem := {
  ttf_state : TTFState;
  _ttfInitialised : bool;
  lifecycle : list lifecycle_event
}.

Definition set_font_set (fonts : list TTFFontDescriptor) (st : TTFState) : TTFState :=
  {| _ttfSurfaceCache := _ttfSurfaceCache st;
     _ttfSurfaceCacheCount := _ttfSurfaceCacheCount st;
     _ttfSurfaceCacheHitCount := _ttfSurfaceCacheHitCount st;
     _ttfSurfaceCacheMissCount := _ttfSurfaceCacheMissCount st;
     _ttfGetWidthCache := _ttfGetWidthCache st;
     _ttfGetWidthCacheCount := _ttfGetWidthCacheCount st;
     _ttfGetWidthCacheHitCount := _ttfGetWidthCacheHitCount st;
     _ttfGetWidthCacheMissCount := _ttfGetWidthCacheMissCount st;
     gCurrentDrawCount := gCurrentDrawCount st;
     LocalisationService_UseTrueTypeFont := LocalisationService_UseTrueTypeFont st;
     gConfigFonts_enable_hinting := gConfigFonts_enable_hinting st;
     gCurrentTTFFontSet := fonts;
     fontHinting := fontHinting st;
     trace := trace st |}.

Definition log_lifecycle (ev : lifecycle_event) (sys : TTFSystem) : TTFSystem :=
  {| ttf_state := ttf_state sys;
     _ttfInitialised := _ttfInitialised sys;
     lifecycle := ev :: lifecycle sys |}.

(** [fontDesc->font = font] for [fontDesc = &gCurrentTTFFontSet->size[i]]. *)
Definition set_font (i : nat) (fontDesc : TTFFontDescriptor) (font : ptr)
    (sys : TTFSystem) : TTFSystem :=
  {| ttf_state :=
       set_font_set
         (<[i := {| fd_hinting_threshold := fd_hinting_threshold fontDesc;
                    fd_font := font |}]> (gCurrentTTFFontSet (ttf_state sys)))
         (ttf_state sys);
     _ttfInitialised := _ttfInitialised sys;
     lifecycle := lifecycle sys |}.

(** [FONT_SIZE_COUNT], the length of [size[]], is declared outside TTF.cpp:
    it is the number of descriptors of the font set. *)
Definition FONT_SIZE_COUNT (sys : TTFSystem) : nat :=
  length (gCurrentTTFFontSet (ttf_state sys)).

(** Lines 75-92: the loop over the size classes, [todo] of them left from
    [i] on.  The result is [false] where the loop returns false. *)
Fixpoint ttf_initialise_fonts (L : FontLoader) (todo i : nat) (sys : TTFSystem) :
    bool * TTFSystem :=
  match todo with
  | O => (true, sys)
  | S todo' =>
      match gCurrentTTFFontSet (ttf_state sys) !! i with
      | None => (true, sys)
      | Some fontDesc =>
          let sys1 := log_lifecycle (EvGetFontPath i) sys in
          match platform_get_font_path L (lifecycle sys) i with
          | None => (false, sys1)
          | Some fontPath =>
              let font := TTF_OpenFont L (lifecycle sys1) fontPath i in
              let sys2 := log_lifecycle (EvOpenFont fontPath i) (set_font i fontDesc font sys1) in
              if font =? nullptr then (false, sys2)
              else ttf_initialise_fonts L todo' (S i) sys2
          end
      end
  end.

(** Lines 65-98. *)
Definition ttf_initialise (L : FontLoader) (sys : TTFSystem) : bool * TTFSystem :=
  if negb (_ttfInitialised sys) then
    let sys1 := log_lifecycle EvInit sys in
    if negb (TTF_Init L (lifecycle sys) =? 0) then (false, sys1)
    else
      let '(loaded, sys2) := ttf_initialise_fonts L (FONT_SIZE_COUNT sys1) 0 sys1 in
      if negb loaded then (false, sys2)
      else
        (true,
         {| ttf_state := ttf_toggle_hinting (ttf_state sys2);
            _ttfInitialised := true;
            lifecycle := lifecycle sys2 |})
  else (true, sys).

(** Lines 107-115: [for (int32_t i = 0; i < 4; i++)].  The bound is the
    literal 4, not [FONT_SIZE_COUNT]; reading [size[i]] past the end of the
    array has no defined result, which is [None] here. *)
Fixpoint ttf_dispose_fonts (todo i : nat) (sys : TTFSystem) : option TTFSystem :=
  match todo with
  | O => Some sys
  | S todo' =>
      match gCurrentTTFFontSet (ttf_state sys) !! i with
      | None => None
      | Some fontDesc =>
          if negb (fd_font fontDesc =? nullptr) then
            ttf_dispose_fonts todo' (S i)
              (set_font i fontDesc nullptr (log_lifecycle (EvCloseFont (fd_font fontDesc)) sys))
          else ttf_dispose_fonts todo' (S i) sys
      end
  end.

(** Lines 100-120. *)
Definition ttf_dispose (sys : TTFSystem) : option TTFSystem :=
  if _ttfInitialised sys then
    let st1 := ttf_surface_cache_dispose_all (ttf_state sys) in
    let st2 := ttf_getwidth_cache_dispose_all st1 in
    match ttf_dispose_fonts 4 0
            {| ttf_state := st2; _ttfInitialised := _ttfInitialised sys;
               lifecycle := lifecycle sys |} with
    | None => None
    | Some sys1 =>
        Some {| ttf_state := ttf_state sys1;
                _ttfInitialised := false;
                lifecycle := EvQuit :: lifecycle sys1 |}
    end
  else Some sys.

(** The fonts that a log closes, the oldest first. *)
Definition closed_fonts (log : list lifecycle_event) : list ptr :=
  reverse (omap (fun ev => match ev with EvCloseFont font => Some font | _ => None end) log).

(** The log holds a [TTF_CloseFont] or a [TTF_Quit]. *)
Definition closes_or_quits (ev : lifecycle_event) : bool :=
  match ev with
  | EvCloseFont _ | EvQuit => true
  | _ => false
  end.

(** ** Object entries (object/Object.h, lines 73-103)

    [rct_object_entry] without the two unions: [end_flag] and [nameWOC] are
    other views of the bytes of [flags] and of [name] with [checksum]. *)
Record rct_object_entry := {
  flags : Z;
  name : list utf8;
  checksum : Z
}.

(** The loop of [SetName], [count] of the [sizeof(name)] = 8 rounds left:
    the next char of [src], or a space once [src] stands on the NUL. *)
Fixpoint SetName_loop (count : nat) (src : list utf8) : list utf8 :=
  match count with
  | O => []
  | S count' =>
      match src with
      | ch :: rest =>
          if ch =? 0 then 32 :: SetName_loop count' src
          else ch :: SetName_loop count' rest
      | [] => 32 :: SetName_loop count' []
      end
  end.

Definition SetName (value : list utf8) (entry : rct_object_entry) : rct_object_entry :=
  {| flags := flags entry; name := SetName_loop 8 value; checksum := checksum entry |}.

(** A font loader that finds and opens every font, and systems to start
    and stop. *)
Definition sample_loader : FontLoader :=
  {| TTF_Init := fun _ => 0;
     platform_get_font_path := fun _ i => Some [47; 102; 48 + Z.of_nat i];
     TTF_OpenFont := fun _ _ i => 4096 + 256 * Z.of_nat i |}.

(** The font of the second size class cannot be opened. *)
Definition broken_loader : FontLoader :=
  {| TTF_Init := fun _ => 0;
     platform_get_font_path := fun _ i => Some [47; 102; 48 + Z.of_nat i];
     TTF_OpenFont := fun _ _ i => if (i =? 1)%nat then nullptr else 4096 + 256 * Z.of_nat i |}.

Definition unloaded_fonts (n : nat) : list TTFFontDescriptor :=
  replicate n {| fd_hinting_threshold := 60; fd_font := nullptr |}.

Definition fresh_system (n : nat) : TTFSystem :=
  {| ttf_state := initial_state true true (unloaded_fonts n);
     _ttfInitialised := false;
     lifecycle := [] |}.

(** A system with five size classes after a successful start. *)
Definition started_system : TTFSystem :=
  snd (ttf_initialise sample_loader (fresh_system 5)).

(** The operations that only look up or draw: no disposal of a whole
    table and no hinting toggle. *)
Definition only_looks_up (op : operation) : bool :=
  match op with
  | GetOrAddSurface _ _ | GetOrAddWidth _ _ | DrawFrame => true
  | DisposeAllSurface | DisposeAllWidth | ToggleHinting => false
  end.
(** ** Properties *)

(** *** Bits of 32-bit values *)

Lemma wrap_uint32_range x : 0 <= wrap_uint32 x < 2 ^ 32.
Proof. unfold wrap_uint32. apply Z.mod_pos_bound. lia. Qed.

Lemma wrap_uint32_small x : 0 <= x < 2 ^ 32 -> wrap_uint32 x = x.
Proof. intros. unfold wrap_uint32. apply Z.mod_small. lia. Qed.

Lemma testbit_high_uint32 x i : 0 <= x < 2 ^ 32 -> 32 <= i -> Z.testbit x i = false.
Proof.
  intros Hx Hi. rewrite <- (Z.mod_small x (2 ^ 32)) by lia.
  apply Z.mod_pow2_bits_high. lia.
Qed.

Lemma uint32_of_bits x :
  0 <= x -> (forall i, 32 <= i -> Z.testbit x i = false) -> 0 <= x < 2 ^ 32.
Proof.
  intros Hx Hhi.
  assert (x mod 2 ^ 32 = x) as <-.
  { apply Z.bits_inj'. intros i Hi.
    destruct (Z.lt_ge_cases i 32).
    - apply Z.mod_pow2_bits_low. lia.
    - rewrite Z.mod_pow2_bits_high by lia. symmetry. auto. }
  apply Z.mod_pos_bound. lia.
Qed.

Lemma lxor_uint32 a b : 0 <= a < 2 ^ 32 -> 0 <= b < 2 ^ 32 -> 0 <= Z.lxor a b < 2 ^ 32.
Proof.
  intros Ha Hb. apply uint32_of_bits.
  - apply Z.lxor_nonneg. lia.
  - intros i Hi. rewrite Z.lxor_spec, !testbit_high_uint32 by lia. reflexivity.
Qed.

Lemma ror32_3_testbit x i :
  0 <= x < 2 ^ 32 -> 0 <= i ->
  Z.testbit (ror32 x 3) i =
    if i <? 29 then Z.testbit x (i + 3)
    else if i <? 32 then Z.testbit x (i - 29) else false.
Proof.
  intros Hx Hi. unfold ror32. rewrite (wrap_uint32_small x) by lia.
  rewrite Z.lor_spec, Z.shiftr_spec by lia. unfold wrap_uint32.
  destruct (Z.ltb_spec i 29); [|destruct (Z.ltb_spec i 32)].
  - rewrite Z.mod_pow2_bits_low, Z.shiftl_spec by lia.
    rewrite (Z.testbit_neg_r x (i - (32 - 3))) by lia. apply orb_false_r.
  - rewrite Z.mod_pow2_bits_low, Z.shiftl_spec by lia.
    rewrite (testbit_high_uint32 x (i + 3)) by lia.
    replace (i - (32 - 3)) with (i - 29) by lia. reflexivity.
  - rewrite Z.mod_pow2_bits_high by lia.
    rewrite (testbit_high_uint32 x (i + 3)) by lia. reflexivity.
Qed.

Lemma ror32_3_range x : 0 <= x < 2 ^ 32 -> 0 <= ror32 x 3 < 2 ^ 32.
Proof.
  intros Hx. apply uint32_of_bits.
  - unfold ror32. apply Z.lor_nonneg. split.
    + apply Z.shiftr_nonneg. apply wrap_uint32_range.
    + apply wrap_uint32_range.
  - intros i Hi. rewrite ror32_3_testbit by lia.
    destruct (Z.ltb_spec i 29); [lia|]. destruct (Z.ltb_spec i 32); [lia|]. reflexivity.
Qed.

Lemma ror32_3_inj x y :
  0 <= x < 2 ^ 32 -> 0 <= y < 2 ^ 32 -> ror32 x 3 = ror32 y 3 -> x = y.
Proof.
  intros Hx Hy Heq. apply Z.bits_inj'. intros j Hj.
  destruct (Z.lt_ge_cases j 3); [|destruct (Z.lt_ge_cases j 32)].
  - pose proof (ror32_3_testbit x (j + 29) Hx ltac:(lia)) as Ex.
    pose proof (ror32_3_testbit y (j + 29) Hy ltac:(lia)) as Ey.
    rewrite Heq in Ex. rewrite Ex in Ey.
    destruct (Z.ltb_spec (j + 29) 29); [lia|].
    destruct (Z.ltb_spec (j + 29) 32); [|lia].
    replace (j + 29 - 29) with j in Ey by lia. exact Ey.
  - pose proof (ror32_3_testbit x (j - 3) Hx ltac:(lia)) as Ex.
    pose proof (ror32_3_testbit y (j - 3) Hy ltac:(lia)) as Ey.
    rewrite Heq in Ex. rewrite Ex in Ey.
    destruct (Z.ltb_spec (j - 3) 29); [|lia].
    replace (j - 3 + 3) with j in Ey by lia. exact Ey.
  - rewrite !testbit_high_uint32 by lia. reflexivity.
Qed.

(** *** C strings *)

Lemma c_str_nul_free text : nul_free (c_str text).
Proof.
  induction text as [|ch rest IH]; simpl; [constructor|].
  destruct (Z.eqb_spec ch 0); [constructor|]. constructor; assumption.
Qed.

Lemma c_str_id text : nul_free text -> c_str text = text.
Proof.
  induction 1 as [|ch rest Hch _ IH]; simpl; [reflexivity|].
  destruct (Z.eqb_spec ch 0); [contradiction|]. now rewrite IH.
Qed.

Lemma c_str_idem text : c_str (c_str text) = c_str text.
Proof. apply c_str_id, c_str_nul_free. Qed.

Lemma strcmp_0_iff a b : strcmp a b = 0 <-> c_str a = c_str b.
Proof.
  revert b. induction a as [|ca ra IH]; intros [|cb rb]; simpl.
  - tauto.
  - destruct (Z.eqb_spec cb 0); split; intros; try reflexivity; try discriminate; lia.
  - destruct (Z.eqb_spec ca 0); split; intros; try reflexivity; try discriminate; lia.
  - destruct (Z.eqb_spec ca cb) as [->|Hne].
    + destruct (Z.eqb_spec cb 0); [tauto|].
      rewrite IH. split; [intros ->; reflexivity|congruence].
    + destruct (Z.eqb_spec ca 0), (Z.eqb_spec cb 0); try lia;
        destruct (ca mod 256 <? cb mod 256); split; intros; try discriminate; try lia; congruence.
Qed.

Lemma strcmp_refl a : strcmp a a = 0.
Proof. now apply strcmp_0_iff. Qed.

Lemma strcmp_c_str_l a b : strcmp (c_str a) b = 0 <-> strcmp a b = 0.
Proof. rewrite !strcmp_0_iff, c_str_idem. tauto. Qed.

(** *** The hash *)

Lemma hash_seed_range font : 0 <= hash_seed font < 2 ^ 32.
Proof.
  unfold hash_seed. change 0xFFFFFFFF with (Z.ones 32).
  rewrite Z.land_ones by lia. apply Z.mod_pos_bound. lia.
Qed.

Lemma hash_step_range hash ch : 0 <= hash < 2 ^ 32 -> 0 <= hash_step hash ch < 2 ^ 32.
Proof.
  intros H. unfold hash_step. apply lxor_uint32.
  - now apply ror32_3_range.
  - apply wrap_uint32_range.
Qed.

Lemma hash_loop_range text : forall hash, 0 <= hash < 2 ^ 32 -> 0 <= hash_loop hash text < 2 ^ 32.
Proof.
  induction text as [|ch rest IH]; simpl; intros hash H; [assumption|].
  destruct (ch =? 0); [assumption|]. apply IH, hash_step_range, H.
Qed.

Lemma ttf_surface_cache_hash_range font text : 0 <= ttf_surface_cache_hash font text < 2 ^ 32.
Proof. apply hash_loop_range, hash_seed_range. Qed.

Lemma hash_loop_c_str text : forall hash, hash_loop hash (c_str text) = hash_loop hash text.
Proof.
  induction text as [|ch rest IH]; simpl; intros hash; [reflexivity|].
  destruct (Z.eqb_spec ch 0) as [|Hne]; [reflexivity|]. simpl.
  destruct (Z.eqb_spec ch 0); [contradiction|]. apply IH.
Qed.

Lemma hash_strcmp font a b :
  strcmp a b = 0 -> ttf_surface_cache_hash font a = ttf_surface_cache_hash font b.
Proof.
  intros H%strcmp_0_iff. unfold ttf_surface_cache_hash.
  rewrite <- (hash_loop_c_str a), <- (hash_loop_c_str b). now rewrite H.
Qed.

Lemma hash_loop_app pre rest :
  nul_free pre -> forall hash, hash_loop hash (pre ++ rest) = hash_loop (hash_loop hash pre) rest.
Proof.
  induction 1 as [|ch pre Hch _ IH]; simpl; intros hash; [reflexivity|].
  destruct (Z.eqb_spec ch 0); [contradiction|]. apply IH.
Qed.

Lemma lxor_cancel_r a b k : Z.lxor a k = Z.lxor b k -> a = b.
Proof.
  intros H. rewrite <- (Z.lxor_0_r a), <- (Z.lxor_0_r b), <- (Z.lxor_nilpotent k).
  rewrite <- !Z.lxor_assoc. now rewrite H.
Qed.

Lemma lxor_cancel_l a b k : Z.lxor k a = Z.lxor k b -> a = b.
Proof. rewrite !(Z.lxor_comm k). apply lxor_cancel_r. Qed.

Lemma hash_step_inj_hash h1 h2 ch :
  0 <= h1 < 2 ^ 32 -> 0 <= h2 < 2 ^ 32 -> hash_step h1 ch = hash_step h2 ch -> h1 = h2.
Proof.
  intros H1 H2 Heq. unfold hash_step in Heq.
  apply lxor_cancel_r in Heq. now apply ror32_3_inj.
Qed.

Lemma hash_step_inj_char hash c c' :
  is_char c -> is_char c' -> hash_step hash c = hash_step hash c' -> c = c'.
Proof.
  unfold is_char, hash_step, wrap_uint32. intros Hc Hc' Heq.
  apply lxor_cancel_l in Heq.
  change (2 ^ 32) with 4294967296 in Heq.
  Z.div_mod_to_equations. lia.
Qed.

Lemma hash_loop_inj text :
  forall h1 h2, 0 <= h1 < 2 ^ 32 -> 0 <= h2 < 2 ^ 32 ->
  hash_loop h1 text = hash_loop h2 text -> nul_free text -> h1 = h2.
Proof.
  induction text as [|ch rest IH]; simpl; intros h1 h2 H1 H2 Heq Hnf; [assumption|].
  inversion Hnf as [|? ? Hch Hrest]; subst.
  destruct (Z.eqb_spec ch 0); [contradiction|].
  apply IH in Heq; auto using hash_step_range.
  now apply hash_step_inj_hash in Heq.
Qed.

(** C8. The key hash is a function of the font and of the C string alone
    (two buffers that [strcmp] finds equal hash alike) and yields a 32-bit
    value; on the empty text it is the font seed, the font address times 23
    XORed with 0xAAAAAAAA and cut to 32 bits; each further char [c] turns
    the accumulator [h] into [ror32(h, 3) ^ (c * 13)], where [ror32(h, 3)]
    moves bit [(i + 3) mod 32] of [h] to bit [i]; and two texts of the same
    length under one font that differ in exactly one char have different
    hashes. *)
Theorem C8_hash_contract (font : ptr) :
  (forall t1 t2, strcmp t1 t2 = 0 ->
     ttf_surface_cache_hash font t1 = ttf_surface_cache_hash font t2) /\
  (forall t, 0 <= ttf_surface_cache_hash font t < 2 ^ 32) /\
  ttf_surface_cache_hash font [] =
    Z.land (Z.lxor ((font * 23) mod 2 ^ 64) 0xAAAAAAAA) 0xFFFFFFFF /\
  (forall t c, nul_free t -> c <> 0 ->
     ttf_surface_cache_hash font (t ++ [c]) =
       Z.lxor (ror32 (ttf_surface_cache_hash font t) 3) (wrap_uint32 (c * 13))) /\
  (forall h i, 0 <= h < 2 ^ 32 -> 0 <= i < 32 ->
     Z.testbit (ror32 h 3) i = Z.testbit h ((i + 3) mod 32)) /\
  (forall pre c c' post,
     nul_free (pre ++ c :: post) -> c' <> 0 -> is_char c -> is_char c' -> c <> c' ->
     length (pre ++ c :: post) = length (pre ++ c' :: post) /\
     ttf_surface_cache_hash font (pre ++ c :: post) <>
       ttf_surface_cache_hash font (pre ++ c' :: post)).
Proof.
  repeat split.
  - intros t1 t2. apply hash_strcmp.
  - apply ttf_surface_cache_hash_range.
  - apply ttf_surface_cache_hash_range.
  - intros t c Hnf Hc. unfold ttf_surface_cache_hash.
    rewrite hash_loop_app by assumption. simpl.
    destruct (Z.eqb_spec c 0); [contradiction|]. reflexivity.
  - intros h i Hh Hi. rewrite ror32_3_testbit by lia.
    destruct (Z.ltb_spec i 29).
    + rewrite Z.mod_small by lia. reflexivity.
    + destruct (Z.ltb_spec i 32); [|lia].
      f_equal. replace (i + 3) with (i - 29 + 1 * 32) by lia.
      rewrite Z.mod_add by lia. rewrite Z.mod_small by lia. reflexivity.
  - rewrite !length_app. reflexivity.
  - intros Heq. unfold ttf_surface_cache_hash in Heq.
    apply Forall_app in H as [Hpre Hrest].
    inversion Hrest as [|? ? Hc Hpost]; subst.
    rewrite !hash_loop_app in Heq by assumption. simpl in Heq.
    destruct (Z.eqb_spec c 0); [contradiction|].
    destruct (Z.eqb_spec c' 0); [contradiction|].
    pose proof (hash_loop_range pre _ (hash_seed_range font)) as Hr.
    apply hash_loop_inj in Heq; auto using hash_step_range.
    apply hash_step_inj_char in Heq; auto.
Qed.

Lemma C8_hash_contract_witness :
  ttf_surface_cache_hash 4096 [72; 105; 33] <> ttf_surface_cache_hash 4096 [72; 106; 33].
Proof.
  apply (proj2 (proj2 (proj2 (proj2 (proj2 (C8_hash_contract 4096))))) [72] 105 106 [33]).
  - repeat constructor; lia.
  - lia.
  - unfold is_char; lia.
  - unfold is_char; lia.
  - lia.
Defined.

(** *** The probe loop against the probing contract *)

Section ProbeContract.
Context {entry : Type}.
Variable is_empty : entry -> bool.
Variable entry_font : entry -> ptr.
Variable entry_text : entry -> option (list utf8).
Variable entry_tick : entry -> Z.
Variable CACHE_SIZE : nat.
Variable cache : list entry.
Variable font : ptr.
Variable text : list utf8.
Variable tick : Z.

Hypothesis CACHE_SIZE_pos : (0 < CACHE_SIZE)%nat.
Hypothesis cache_length : length cache = CACHE_SIZE.

Local Abbreviation matches := (entry_matches entry_font entry_text font text).
Local Abbreviation stale := (entry_stale entry_tick tick).
Local Abbreviation loop :=
  (probe_loop is_empty entry_font entry_text entry_tick CACHE_SIZE cache font text tick).

Local Abbreviation skipped := (skipped is_empty entry_font entry_text entry_tick font text tick).
Local Abbreviation probe_stop := (probe_stop is_empty entry_font entry_text entry_tick font text tick).
Local Abbreviation probe_contract :=
  (probe_contract is_empty entry_font entry_text entry_tick CACHE_SIZE cache font text tick).

Lemma next_index_mod index :
  (index < CACHE_SIZE)%nat -> next_index CACHE_SIZE index = ((index + 1) mod CACHE_SIZE)%nat.
Proof.
  intros Hlt. unfold next_index.
  destruct (Nat.leb_spec CACHE_SIZE (S index)).
  - assert (index + 1 = CACHE_SIZE)%nat as -> by lia.
    now rewrite Nat.Div0.mod_same.
  - rewrite Nat.mod_small by lia. lia.
Qed.

Lemma next_index_lt index : (next_index CACHE_SIZE index < CACHE_SIZE)%nat.
Proof. unfold next_index. destruct (Nat.leb_spec CACHE_SIZE (S index)); lia. Qed.

Lemma probe_loop_steps n :
  forall index, (index < CACHE_SIZE)%nat ->
  exists k : nat,
    (k <= n)%nat /\
    (forall j, (j < k)%nat ->
       exists e, cache !! ((index + j) mod CACHE_SIZE)%nat = Some e /\ skipped e) /\
    ((k < n)%nat /\
       (exists e, cache !! ((index + k) mod CACHE_SIZE)%nat = Some e /\
                  probe_stop e ((index + k) mod CACHE_SIZE)%nat (loop n index))
     \/ k = n /\ loop n index = ProbeMiss ((index + n) mod CACHE_SIZE)%nat).
Proof.
  induction n as [|n IH]; intros index Hlt.
  - exists O. split; [lia|]. split; [intros; lia|]. right. split; [reflexivity|].
    simpl. now rewrite Nat.add_0_r, Nat.mod_small.
  - simpl. destruct (lookup_lt_is_Some_2 cache index) as [e He]; [lia|].
    rewrite He.
    assert (Hhere : ((index + 0) mod CACHE_SIZE)%nat = index)
      by now rewrite Nat.add_0_r, Nat.mod_small.
    destruct (is_empty e) eqn:Hempty.
    { exists O. split; [lia|]. split; [intros; lia|]. left. split; [lia|].
      exists e. rewrite Hhere. split; [assumption|]. now constructor. }
    destruct (matches e) eqn:Hmatch.
    { exists O. split; [lia|]. split; [intros; lia|]. left. split; [lia|].
      exists e. rewrite Hhere. split; [assumption|]. now constructor. }
    destruct (stale e) eqn:Hstale.
    { exists O. split; [lia|]. split; [intros; lia|]. left. split; [lia|].
      exists e. rewrite Hhere. split; [assumption|]. now apply stop_stale. }
    destruct (IH (next_index CACHE_SIZE index) (next_index_lt index))
      as (k & Hk & Hskip & Hend).
    rewrite next_index_mod in Hskip, Hend by assumption.
    assert (Hshift : forall j,
               (((index + 1) mod CACHE_SIZE + j) mod CACHE_SIZE
                = (index + S j) mod CACHE_SIZE)%nat).
    { intros j. rewrite Nat.Div0.add_mod_idemp_l. f_equal. lia. }
    exists (S k). split; [lia|]. split.
    + intros [|j] Hj.
      * exists e. rewrite Hhere. repeat split; assumption.
      * rewrite <- Hshift. apply Hskip. lia.
    + rewrite Hshift in Hend. destruct Hend as [(Hlt' & e' & He' & Hstop)|(-> & Hres)].
      * left. split; [lia|]. exists e'. split; [assumption|].
        rewrite next_index_mod by assumption. assumption.
      * right. split; [reflexivity|].
        rewrite next_index_mod by assumption. now rewrite Hres, Hshift.
Qed.

(** The loop of the source, run for [CACHE_SIZE] iterations from a home
    slot, meets the contract; after a full round the index is back on the
    home slot. *)
Lemma full_round home :
  (home < CACHE_SIZE)%nat -> ((home + CACHE_SIZE) mod CACHE_SIZE)%nat = home.
Proof.
  intros Hlt. rewrite <- Nat.Div0.add_mod_idemp_r, Nat.Div0.mod_same, Nat.add_0_r.
  now apply Nat.mod_small.
Qed.

Lemma probe_loop_contract home :
  (home < CACHE_SIZE)%nat -> probe_contract home home (loop CACHE_SIZE home).
Proof.
  intros Hlt. destruct (probe_loop_steps CACHE_SIZE home Hlt) as (k & Hk & Hskip & Hend).
  exists k. split; [assumption|]. split; [assumption|].
  destruct Hend as [?|[-> Hres]]; [now left|right].
  split; [reflexivity|]. now rewrite Hres, full_round.
Qed.

Lemma probe_result_lt n :
  forall index, (index < CACHE_SIZE)%nat ->
  match loop n index with ProbeHit t | ProbeMiss t => (t < CACHE_SIZE)%nat end.
Proof.
  induction n as [|n IH]; intros index Hlt; simpl; [assumption|].
  destruct (cache !! index); [|assumption].
  destruct (is_empty e); [assumption|].
  destruct (matches e); [assumption|].
  destruct (stale e); [assumption|].
  apply IH, next_index_lt.
Qed.

(** A hit is on an occupied slot that holds the key. *)
Lemma probe_hit_inv n :
  forall index t, loop n index = ProbeHit t ->
  exists e, cache !! t = Some e /\ is_empty e = false /\ matches e = true.
Proof.
  induction n as [|n IH]; intros index t; simpl; [discriminate|].
  destruct (cache !! index) eqn:He; [|discriminate].
  destruct (is_empty e) eqn:?; [discriminate|].
  destruct (matches e) eqn:?.
  { intros [= <-]. eauto. }
  destruct (stale e); [discriminate|]. apply IH.
Qed.

(** When every slot is passed over, the loop runs out of iterations with
    the index back on the home slot. *)
Lemma probe_all_skipped home :
  (home < CACHE_SIZE)%nat ->
  (forall i, (i < CACHE_SIZE)%nat -> exists e, cache !! i = Some e /\ skipped e) ->
  loop CACHE_SIZE home = ProbeMiss home.
Proof.
  intros Hlt Hall.
  destruct (probe_loop_contract home Hlt) as (k & _ & _ & [(Hk & e & He & Hstop)|[_ Hres]]);
    [|assumption].
  exfalso.
  destruct (Hall ((home + k) mod CACHE_SIZE)%nat) as (e' & He' & Hocc & Hm & Hs).
  { apply Nat.mod_upper_bound. lia. }
  rewrite He in He'. injection He' as <-.
  inversion Hstop; congruence.
Qed.

(** A probe stops on its home slot when that slot is occupied by another
    key and stale. *)
Lemma probe_home_stale home e :
  cache !! home = Some e ->
  is_empty e = false -> matches e = false -> stale e = true ->
  loop CACHE_SIZE home = ProbeMiss home.
Proof.
  intros He Hocc Hm Hs. destruct CACHE_SIZE as [|n]; [lia|].
  simpl. now rewrite He, Hocc, Hm, Hs.
Qed.

(** And it goes on to the next slot when that slot is occupied by another
    key and fresh. *)
Lemma probe_home_fresh home e :
  cache !! home = Some e -> skipped e ->
  loop CACHE_SIZE home =
    loop (pred CACHE_SIZE) (next_index CACHE_SIZE home).
Proof.
  intros He (Hocc & Hm & Hs). destruct CACHE_SIZE as [|n]; [lia|].
  simpl. now rewrite He, Hocc, Hm, Hs.
Qed.

Lemma probe_home_empty home e :
  cache !! home = Some e -> is_empty e = true ->
  loop CACHE_SIZE home = ProbeMiss home.
Proof.
  intros He Hocc. destruct CACHE_SIZE as [|n]; [lia|].
  simpl. now rewrite He, Hocc.
Qed.

Lemma probe_home_hit home e :
  cache !! home = Some e -> is_empty e = false -> matches e = true ->
  loop CACHE_SIZE home = ProbeHit home.
Proof.
  intros He Hocc Hm. destruct CACHE_SIZE as [|n]; [lia|].
  simpl. now rewrite He, Hocc, Hm.
Qed.

(** A miss at [t] is a miss at [t] again once slot [t] has been emptied:
    the slots before it on the path are as they were. *)
Lemma probe_after_clear t e' n :
  forall index,
  is_empty e' = true ->
  loop n index = ProbeMiss t ->
  probe_loop is_empty entry_font entry_text entry_tick CACHE_SIZE
    (<[t := e']> cache) font text tick n index = ProbeMiss t.
Proof.
  induction n as [|n IH]; intros index Hempty; simpl; [auto|].
  destruct (decide (index = t)) as [->|Hne].
  - destruct (cache !! t) as [e|] eqn:He.
    + rewrite list_lookup_insert_eq by (now apply lookup_lt_Some in He).
      now rewrite Hempty.
    + rewrite list_insert_ge by (now apply lookup_ge_None).
      now rewrite He.
  - rewrite list_lookup_insert_ne by congruence.
    destruct (cache !! index) as [e|]; [|auto].
    destruct (is_empty e); [auto|].
    destruct (matches e); [auto|].
    destruct (stale e); [auto|].
    now apply IH.
Qed.
End ProbeContract.

(** *** The two tables *)

Lemma surface_home_lt font text : (surface_home font text < TTF_SURFACE_CACHE_SIZE)%nat.
Proof.
  unfold surface_home.
  pose proof (Z.mod_pos_bound (ttf_surface_cache_hash font text)
                (Z.of_nat TTF_SURFACE_CACHE_SIZE) ltac:(reflexivity)).
  lia.
Qed.

Lemma getwidth_home_lt font text : (getwidth_home font text < TTF_GETWIDTH_CACHE_SIZE)%nat.
Proof.
  unfold getwidth_home.
  pose proof (Z.mod_pos_bound (ttf_surface_cache_hash font text)
                (Z.of_nat TTF_GETWIDTH_CACHE_SIZE) ltac:(reflexivity)).
  lia.
Qed.

Lemma initial_state_sized use_ttf hint fonts : tables_sized (initial_state use_ttf hint fonts).
Proof. split; apply length_replicate. Qed.

Lemma entry_matches_true {entry} (ef : entry -> ptr) (et : entry -> option (list utf8))
    font text e :
  entry_matches ef et font text e = true <->
  ef e = font /\ exists s, et e = Some s /\ strcmp s text = 0.
Proof.
  unfold entry_matches. rewrite andb_true_iff, Z.eqb_eq.
  destruct (et e) as [s|].
  - rewrite Z.eqb_eq. split.
    + intros [? ?]. eauto.
    + intros [? (s' & [= <-] & ?)]. auto.
  - split; [intros [_ ?]; discriminate|intros [_ (s & ? & _)]; discriminate].
Qed.

Lemma entry_stale_true {entry} (et : entry -> Z) tick e :
  entry_stale et tick e = true <-> et e < (tick - 64) mod 2 ^ 32.
Proof. unfold entry_stale, wrap_uint32. apply Z.ltb_lt. Qed.

Lemma surface_probe_meets_contract font text st :
  length (_ttfSurfaceCache st) = TTF_SURFACE_CACHE_SIZE ->
  surface_probe_contract font text st (surface_home font text) (surface_home font text)
    (surface_probe font text st).
Proof.
  intros Hlen. apply probe_loop_contract; [unfold TTF_SURFACE_CACHE_SIZE; lia|assumption|].
  apply surface_home_lt.
Qed.

Lemma getwidth_probe_meets_contract font text st :
  length (_ttfGetWidthCache st) = TTF_GETWIDTH_CACHE_SIZE ->
  getwidth_probe_contract font text st (getwidth_home font text) (getwidth_home font text)
    (getwidth_probe font text st).
Proof.
  intros Hlen. apply probe_loop_contract; [unfold TTF_GETWIDTH_CACHE_SIZE; lia|assumption|].
  apply getwidth_home_lt.
Qed.

Lemma surface_hit E font text st t :
  surface_probe font text st = ProbeHit t ->
  exists e,
    _ttfSurfaceCache st !! t = Some e /\
    sc_surface e <> nullptr /\ sc_font e = font /\
    (exists s, sc_text e = Some s /\ strcmp s text = 0) /\
    ttf_surface_cache_get_or_add E font text st =
      (sc_surface e,
       set_surface_cache
         (<[t := {| sc_surface := sc_surface e; sc_font := sc_font e;
                    sc_text := sc_text e;
                    sc_lastUseTick := gCurrentDrawCount st |}]> (_ttfSurfaceCache st))
         (set_surface_counters (_ttfSurfaceCacheCount st)
            (wrap_int32 (_ttfSurfaceCacheHitCount st + 1))
            (_ttfSurfaceCacheMissCount st) st)).
Proof.
  intros Hp. destruct (probe_hit_inv _ _ _ _ _ _ _ _ _ _ _ _ Hp) as (e & He & Hocc & Hm).
  apply entry_matches_true in Hm as [Hf Ht].
  exists e. split; [assumption|]. split.
  { unfold surface_is_empty in Hocc. now apply Z.eqb_neq. }
  split; [assumption|]. split; [assumption|].
  unfold ttf_surface_cache_get_or_add. rewrite Hp, He. reflexivity.
Qed.

Lemma getwidth_hit E font text st t :
  getwidth_probe font text st = ProbeHit t ->
  exists e,
    _ttfGetWidthCache st !! t = Some e /\
    gw_font e = font /\
    (exists s, gw_text e = Some s /\ strcmp s text = 0) /\
    ttf_getwidth_cache_get_or_add E font text st =
      (gw_width e,
       set_getwidth_cache
         (<[t := {| gw_width := gw_width e; gw_font := gw_font e;
                    gw_text := gw_text e;
                    gw_lastUseTick := gCurrentDrawCount st |}]> (_ttfGetWidthCache st))
         (set_getwidth_counters (_ttfGetWidthCacheCount st)
            (wrap_int32 (_ttfGetWidthCacheHitCount st + 1))
            (_ttfGetWidthCacheMissCount st) st)).
Proof.
  intros Hp. destruct (probe_hit_inv _ _ _ _ _ _ _ _ _ _ _ _ Hp) as (e & He & Hocc & Hm).
  apply entry_matches_true in Hm as [Hf Ht].
  exists e. split; [assumption|]. split; [assumption|]. split; [assumption|].
  unfold ttf_getwidth_cache_get_or_add. rewrite Hp, He. reflexivity.
Qed.

(** *** What a miss does to the tables *)

Lemma ttf_render_frame E font text st :
  let r := ttf_render E font text st in
  _ttfSurfaceCache (snd r) = _ttfSurfaceCache st /\
  _ttfSurfaceCacheCount (snd r) = _ttfSurfaceCacheCount st /\
  _ttfSurfaceCacheHitCount (snd r) = _ttfSurfaceCacheHitCount st /\
  _ttfSurfaceCacheMissCount (snd r) = _ttfSurfaceCacheMissCount st /\
  _ttfGetWidthCache (snd r) = _ttfGetWidthCache st /\
  _ttfGetWidthCacheCount (snd r) = _ttfGetWidthCacheCount st /\
  _ttfGetWidthCacheHitCount (snd r) = _ttfGetWidthCacheHitCount st /\
  _ttfGetWidthCacheMissCount (snd r) = _ttfGetWidthCacheMissCount st /\
  gCurrentDrawCount (snd r) = gCurrentDrawCount st /\
  fontHinting (snd r) = fontHinting st /\
  exists ev, is_render ev = true /\ trace (snd r) = ev :: trace st.
Proof.
  unfold ttf_render.
  destruct (negb _); simpl; (do 10 (split; [reflexivity|]));
    eexists; (split; [|reflexivity]); reflexivity.
Qed.

Lemma surface_dispose_cache index st :
  _ttfSurfaceCache (ttf_surface_cache_dispose index st) =
    match _ttfSurfaceCache st !! index with
    | Some e =>
        if surface_is_empty e then _ttfSurfaceCache st
        else <[index := {| sc_surface := nullptr; sc_font := nullptr; sc_text := None;
                           sc_lastUseTick := sc_lastUseTick e |}]> (_ttfSurfaceCache st)
    | None => _ttfSurfaceCache st
    end.
Proof.
  unfold ttf_surface_cache_dispose, surface_is_empty.
  destruct (_ttfSurfaceCache st !! index) as [e|]; [|reflexivity].
  destruct (sc_surface e =? nullptr); reflexivity.
Qed.

Lemma surface_dispose_frame index st :
  let st' := ttf_surface_cache_dispose index st in
  _ttfSurfaceCacheCount st' = _ttfSurfaceCacheCount st /\
  _ttfSurfaceCacheHitCount st' = _ttfSurfaceCacheHitCount st /\
  _ttfSurfaceCacheMissCount st' = _ttfSurfaceCacheMissCount st /\
  _ttfGetWidthCache st' = _ttfGetWidthCache st /\
  _ttfGetWidthCacheCount st' = _ttfGetWidthCacheCount st /\
  _ttfGetWidthCacheHitCount st' = _ttfGetWidthCacheHitCount st /\
  _ttfGetWidthCacheMissCount st' = _ttfGetWidthCacheMissCount st /\
  gCurrentDrawCount st' = gCurrentDrawCount st /\
  LocalisationService_UseTrueTypeFont st' = LocalisationService_UseTrueTypeFont st /\
  gConfigFonts_enable_hinting st' = gConfigFonts_enable_hinting st /\
  gCurrentTTFFontSet st' = gCurrentTTFFontSet st /\
  fontHinting st' = fontHinting st.
Proof.
  unfold ttf_surface_cache_dispose.
  destruct (_ttfSurfaceCache st !! index) as [e|]; [|repeat split].
  destruct (negb _); repeat split.
Qed.

Lemma surface_dispose_trace index st :
  trace (ttf_surface_cache_dispose index st) =
    match _ttfSurfaceCache st !! index with
    | Some e =>
        if surface_is_empty e then trace st
        else EvFreeText (sc_text e) :: EvFreeSurface (sc_surface e) :: trace st
    | None => trace st
    end.
Proof.
  unfold ttf_surface_cache_dispose, surface_is_empty.
  destruct (_ttfSurfaceCache st !! index) as [e|]; [|reflexivity].
  destruct (sc_surface e =? nullptr); reflexivity.
Qed.

Lemma getwidth_dispose_cache index st :
  _ttfGetWidthCache (ttf_getwidth_cache_dispose index st) =
    match _ttfGetWidthCache st !! index with
    | Some e =>
        if getwidth_is_empty e then _ttfGetWidthCache st
        else <[index := {| gw_width := 0; gw_font := nullptr; gw_text := None;
                           gw_lastUseTick := gw_lastUseTick e |}]> (_ttfGetWidthCache st)
    | None => _ttfGetWidthCache st
    end.
Proof.
  unfold ttf_getwidth_cache_dispose.
  destruct (_ttfGetWidthCache st !! index) as [e|]; [|reflexivity].
  destruct (getwidth_is_empty e); reflexivity.
Qed.

Lemma getwidth_dispose_frame index st :
  let st' := ttf_getwidth_cache_dispose index st in
  _ttfSurfaceCache st' = _ttfSurfaceCache st /\
  _ttfSurfaceCacheCount st' = _ttfSurfaceCacheCount st /\
  _ttfSurfaceCacheHitCount st' = _ttfSurfaceCacheHitCount st /\
  _ttfSurfaceCacheMissCount st' = _ttfSurfaceCacheMissCount st /\
  _ttfGetWidthCacheCount st' = _ttfGetWidthCacheCount st /\
  _ttfGetWidthCacheHitCount st' = _ttfGetWidthCacheHitCount st /\
  _ttfGetWidthCacheMissCount st' = _ttfGetWidthCacheMissCount st /\
  gCurrentDrawCount st' = gCurrentDrawCount st /\
  LocalisationService_UseTrueTypeFont st' = LocalisationService_UseTrueTypeFont st /\
  gConfigFonts_enable_hinting st' = gConfigFonts_enable_hinting st /\
  gCurrentTTFFontSet st' = gCurrentTTFFontSet st /\
  fontHinting st' = fontHinting st.
Proof.
  unfold ttf_getwidth_cache_dispose.
  destruct (_ttfGetWidthCache st !! index) as [e|]; [|repeat split].
  destruct (negb _); repeat split.
Qed.

Lemma surface_miss_cache E font text st t e0 :
  surface_probe font text st = ProbeMiss t ->
  _ttfSurfaceCache st !! t = Some e0 ->
  let r := ttf_surface_cache_get_or_add E font text st in
  _ttfSurfaceCache (snd r) =
    <[t := surface_slot_after_miss e0 (fst r) font text (gCurrentDrawCount st)]>
      (_ttfSurfaceCache st).
Proof.
  intros Hp He. unfold ttf_surface_cache_get_or_add. rewrite Hp.
  pose proof (ttf_render_frame E font text (ttf_surface_cache_dispose t st)) as Hr.
  destruct (ttf_render E font text (ttf_surface_cache_dispose t st)) as [s st2].
  simpl in Hr. destruct Hr as (Hc & _).
  unfold surface_slot_after_miss.
  destruct (Z.eqb_spec s nullptr) as [->|Hs]; simpl.
  - rewrite Hc, surface_dispose_cache, He.
    destruct (surface_is_empty e0); [|reflexivity].
    symmetry. now apply list_insert_id.
  - destruct (Z.eqb_spec s nullptr); [contradiction|].
    rewrite Hc, surface_dispose_cache, He.
    destruct (surface_is_empty e0); [reflexivity|].
    now rewrite list_insert_insert_eq.
Qed.

Lemma getwidth_miss_cache E font text st t :
  getwidth_probe font text st = ProbeMiss t ->
  let r := ttf_getwidth_cache_get_or_add E font text st in
  _ttfGetWidthCache (snd r) =
    <[t := {| gw_width := fst r; gw_font := font; gw_text := _strdup text;
              gw_lastUseTick := gCurrentDrawCount st |}]> (_ttfGetWidthCache st).
Proof.
  intros Hp. unfold ttf_getwidth_cache_get_or_add. rewrite Hp. simpl.
  rewrite getwidth_dispose_cache.
  destruct (_ttfGetWidthCache st !! t) as [e|]; [|reflexivity].
  destruct (getwidth_is_empty e); [reflexivity|].
  now rewrite list_insert_insert_eq.
Qed.

(** *** The full and fresh table *)

Lemma surface_skippedb_spec font text tick e :
  surface_skippedb font text tick e = true <->
  skipped surface_is_empty sc_font sc_text sc_lastUseTick font text tick e.
Proof.
  unfold surface_skippedb, skipped. rewrite !andb_true_iff, !negb_true_iff. tauto.
Qed.

Lemma forallb_lookup {A} (f : A -> bool) (l : list A) i x :
  forallb f l = true -> l !! i = Some x -> f x = true.
Proof.
  intros Hall Hx. rewrite forallb_forall in Hall. apply Hall.
  apply list_elem_of_In, list_elem_of_lookup. eauto.
Qed.

(** C6, as the code has it.  When all the slots of a table are occupied,
    fresh and hold other keys, the loop runs its N iterations, each of which
    moves the index on by one with wrap-around, and so leaves it where it
    started: the slot that is disposed of and written is the home slot, the
    first one probed, and every other slot keeps its entry. *)
Theorem C6_full_table_replaces_home (E : FontEngine) (font : ptr) (text : list utf8)
    (st : TTFState) :
  tables_sized st ->
  ((forall i, (i < 256)%nat ->
      exists e, _ttfSurfaceCache st !! i = Some e /\
                skipped surface_is_empty sc_font sc_text sc_lastUseTick
                  font text (gCurrentDrawCount st) e) ->
   surface_probe font text st = ProbeMiss (surface_home font text) /\
   ((surface_home font text + 256) mod 256)%nat = surface_home font text /\
   exists e0,
     _ttfSurfaceCache st !! surface_home font text = Some e0 /\
     let r := ttf_surface_cache_get_or_add E font text st in
     _ttfSurfaceCache (snd r) =
       <[surface_home font text :=
           surface_slot_after_miss e0 (fst r) font text (gCurrentDrawCount st)]>
         (_ttfSurfaceCache st)) /\
  ((forall i, (i < 1024)%nat ->
      exists e, _ttfGetWidthCache st !! i = Some e /\
                skipped getwidth_is_empty gw_font gw_text gw_lastUseTick
                  font text (gCurrentDrawCount st) e) ->
   getwidth_probe font text st = ProbeMiss (getwidth_home font text) /\
   ((getwidth_home font text + 1024) mod 1024)%nat = getwidth_home font text /\
   let r := ttf_getwidth_cache_get_or_add E font text st in
   _ttfGetWidthCache (snd r) =
     <[getwidth_home font text :=
         {| gw_width := fst r; gw_font := font; gw_text := _strdup text;
            gw_lastUseTick := gCurrentDrawCount st |}]> (_ttfGetWidthCache st)).
Proof.
  intros [Hs Hw]. split; intros Hall.
  - assert (Hp : surface_probe font text st = ProbeMiss (surface_home font text)).
    { apply probe_all_skipped; auto using surface_home_lt.
      unfold TTF_SURFACE_CACHE_SIZE; lia. }
    split; [assumption|]. split.
    { apply (full_round 256). apply surface_home_lt. }
    destruct (Hall (surface_home font text) (surface_home_lt font text)) as (e0 & He0 & _).
    exists e0. split; [assumption|]. now apply surface_miss_cache.
  - assert (Hp : getwidth_probe font text st = ProbeMiss (getwidth_home font text)).
    { apply probe_all_skipped; auto using getwidth_home_lt.
      unfold TTF_GETWIDTH_CACHE_SIZE; lia. }
    split; [assumption|]. split.
    { apply (full_round 1024). apply getwidth_home_lt. }
    now apply getwidth_miss_cache.
Qed.

(** The surface table filled within one frame, and the lookup of the text
    Z in it. *)
Lemma full_fresh_sized : tables_sized full_fresh_state.
Proof. split; vm_compute; reflexivity. Qed.

Lemma full_fresh_skippedb :
  forallb (surface_skippedb 4096 [90] (gCurrentDrawCount full_fresh_state))
    (_ttfSurfaceCache full_fresh_state) = true.
Proof. vm_compute; reflexivity. Qed.

Lemma full_fresh_all_skipped :
  forall i, (i < 256)%nat ->
    exists e, _ttfSurfaceCache full_fresh_state !! i = Some e /\
              skipped surface_is_empty sc_font sc_text sc_lastUseTick
                4096 [90] (gCurrentDrawCount full_fresh_state) e.
Proof.
  intros i Hi.
  destruct (lookup_lt_is_Some_2 (_ttfSurfaceCache full_fresh_state) i) as [e He].
  { rewrite (proj1 full_fresh_sized). exact Hi. }
  exists e. split; [assumption|]. apply surface_skippedb_spec.
  exact (forallb_lookup _ _ i e full_fresh_skippedb He).
Qed.

Lemma C6_full_table_replaces_home_witness :
  surface_probe 4096 [90] full_fresh_state = ProbeMiss (surface_home 4096 [90]).
Proof.
  exact (proj1 (proj1 (C6_full_table_replaces_home sample_engine 4096 [90]
                         full_fresh_state full_fresh_sized)
                  full_fresh_all_skipped)).
Defined.

(** C6 as stated fails: on a surface table filled within one frame, all 256
    slots are passed over by the lookup of a new key with home slot 199, and
    the slot that is then replaced is 199, not the last slot probed, 198,
    which keeps its entry. *)
Lemma C6_counterexample :
  (forall i, (i < 256)%nat ->
     exists e, _ttfSurfaceCache full_fresh_state !! i = Some e /\
               skipped surface_is_empty sc_font sc_text sc_lastUseTick
                 4096 [90] (gCurrentDrawCount full_fresh_state) e) /\
  surface_home 4096 [90] = 199%nat /\
  (let home := surface_home 4096 [90] in ((home + 256 - 1) mod 256)%nat = 198%nat) /\
  surface_probe 4096 [90] full_fresh_state = ProbeMiss 199 /\
  ~ surface_probe_contract 4096 [90] full_fresh_state 199 198
      (surface_probe 4096 [90] full_fresh_state) /\
  _ttfSurfaceCache
    (snd (ttf_surface_cache_get_or_add sample_engine 4096 [90] full_fresh_state)) !! 198%nat
    = _ttfSurfaceCache full_fresh_state !! 198%nat /\
  sc_text <$>
    (_ttfSurfaceCache
       (snd (ttf_surface_cache_get_or_add sample_engine 4096 [90] full_fresh_state))
     !! 199%nat) = Some (Some [90]).
Proof.
  assert (Hp : surface_probe 4096 [90] full_fresh_state = ProbeMiss 199)
    by (vm_compute; reflexivity).
  split; [exact full_fresh_all_skipped|].
  split; [vm_compute; reflexivity|]. split; [vm_compute; reflexivity|].
  split; [exact Hp|]. split.
  - rewrite Hp.
    intros (k & _ & _ & [(Hk & e & He & Hstop)|[_ Hres]]); [|discriminate].
    destruct (full_fresh_all_skipped ((199 + k) mod 256)%nat) as (e' & He' & Hocc & Hm & Hs).
    { apply Nat.mod_upper_bound. discriminate. }
    change (_ttfSurfaceCache full_fresh_state !! ((199 + k) mod 256)%nat = Some e) in He.
    rewrite He in He'. injection He' as <-.
    inversion Hstop; congruence.
  - split; vm_compute; reflexivity.
Qed.

(** *** The first 64 ticks *)

Lemma wrapped_threshold tick :
  0 <= tick < 64 -> wrap_uint32 (tick - 64) = 2 ^ 32 - 64 + tick.
Proof.
  intros H. unfold wrap_uint32.
  replace (tick - 64) with (2 ^ 32 - 64 + tick + (-1) * 2 ^ 32) by lia.
  rewrite Z.mod_add by lia. apply Z.mod_small. lia.
Qed.

(** C9, as the code has it.  While the current tick is below 64 the
    threshold [gCurrentDrawCount - 64] of the staleness test wraps round to
    2^32 - 64 + tick, so a slot is taken for stale whenever its
    [lastUseTick] is below that value, which covers every slot stamped at
    or before the current tick, however recently; a lookup whose home slot
    is occupied by another key with such a stamp stops there and replaces
    it.  (The home slot is the only slot that can be the first occupied
    slot with another key on the path: the probe does not go beyond an
    empty or a matching home slot.) *)
Theorem C9_threshold_wraps_below_64 (E : FontEngine) (font : ptr) (text : list utf8)
    (st : TTFState) :
  tables_sized st ->
  0 <= gCurrentDrawCount st < 64 ->
  let tick := gCurrentDrawCount st in
  wrap_uint32 (tick - 64) = 2 ^ 32 - 64 + tick /\
  2 ^ 32 - 64 <= wrap_uint32 (tick - 64) /\
  (forall e : ttf_cache_entry,
     sc_lastUseTick e < 2 ^ 32 - 64 + tick <-> entry_stale sc_lastUseTick tick e = true) /\
  (forall e : ttf_getwidth_cache_entry,
     gw_lastUseTick e < 2 ^ 32 - 64 + tick <-> entry_stale gw_lastUseTick tick e = true) /\
  (forall e : ttf_cache_entry,
     sc_lastUseTick e <= tick -> entry_stale sc_lastUseTick tick e = true) /\
  (forall e : ttf_getwidth_cache_entry,
     gw_lastUseTick e <= tick -> entry_stale gw_lastUseTick tick e = true) /\
  (forall e0,
     _ttfSurfaceCache st !! surface_home font text = Some e0 ->
     surface_is_empty e0 = false ->
     entry_matches sc_font sc_text font text e0 = false ->
     sc_lastUseTick e0 < 2 ^ 32 - 64 + tick ->
     surface_probe font text st = ProbeMiss (surface_home font text) /\
     let r := ttf_surface_cache_get_or_add E font text st in
     _ttfSurfaceCache (snd r) =
       <[surface_home font text :=
           surface_slot_after_miss e0 (fst r) font text tick]> (_ttfSurfaceCache st)) /\
  (forall e0,
     _ttfGetWidthCache st !! getwidth_home font text = Some e0 ->
     getwidth_is_empty e0 = false ->
     entry_matches gw_font gw_text font text e0 = false ->
     gw_lastUseTick e0 < 2 ^ 32 - 64 + tick ->
     getwidth_probe font text st = ProbeMiss (getwidth_home font text) /\
     let r := ttf_getwidth_cache_get_or_add E font text st in
     _ttfGetWidthCache (snd r) =
       <[getwidth_home font text :=
           {| gw_width := fst r; gw_font := font; gw_text := _strdup text;
              gw_lastUseTick := tick |}]> (_ttfGetWidthCache st)).
Proof.
  intros [Hs Hw] Htick tick.
  pose proof (wrapped_threshold tick Htick) as Hth.
  assert (Hst : forall (entry : Type) (et : entry -> Z) (e : entry),
             et e < 2 ^ 32 - 64 + tick <-> entry_stale et tick e = true).
  { intros. unfold entry_stale. rewrite Hth. symmetry. apply Z.ltb_lt. }
  split; [assumption|]. split; [lia|].
  split; [apply Hst|]. split; [apply Hst|].
  split; [intros e He; apply Hst; lia|]. split; [intros e He; apply Hst; lia|].
  split.
  - intros e0 He0 Hocc Hm Hl.
    assert (Hp : surface_probe font text st = ProbeMiss (surface_home font text)).
    { apply probe_home_stale with (e := e0); auto.
      - unfold TTF_SURFACE_CACHE_SIZE; lia.
      - now apply Hst. }
    split; [assumption|]. now apply surface_miss_cache.
  - intros e0 He0 Hocc Hm Hl.
    assert (Hp : getwidth_probe font text st = ProbeMiss (getwidth_home font text)).
    { apply probe_home_stale with (e := e0); auto.
      - unfold TTF_GETWIDTH_CACHE_SIZE; lia.
      - now apply Hst. }
    split; [assumption|]. now apply getwidth_miss_cache.
Qed.

Lemma early_state_sized : tables_sized early_state.
Proof. split; vm_compute; reflexivity. Qed.

Lemma C9_threshold_wraps_below_64_witness :
  0 <= gCurrentDrawCount early_state < 64 /\
  surface_probe 4096 text_NB early_state = ProbeMiss (surface_home 4096 text_NB).
Proof.
  assert (Htick : 0 <= gCurrentDrawCount early_state < 64)
    by (vm_compute; split; [discriminate|reflexivity]).
  split; [exact Htick|].
  destruct (C9_threshold_wraps_below_64 sample_engine 4096 text_NB early_state
              early_state_sized Htick) as (_ & _ & _ & _ & _ & _ & Hs & _).
  refine (proj1 (Hs {| sc_surface := 8192; sc_font := 4096; sc_text := Some text_AA;
                       sc_lastUseTick := 10 |} _ _ _ _)).
  - vm_compute; reflexivity.
  - vm_compute; reflexivity.
  - vm_compute; reflexivity.
  - vm_compute; reflexivity.
Defined.

(** C9 as stated fails for a state whose tick is below 64 because the
    drawing counter has gone once round.  AA was drawn at tick 2^32 - 1 and
    sits in slot 78; one frame later the tick is 0, the threshold is
    2^32 - 64, and the stamp 2^32 - 1 is not below it: the slot counts as
    fresh, the lookup of NB, whose home slot is 78 as well, passes over it
    and takes the empty slot 79, and AA stays cached. *)
Lemma C9_counterexample :
  let st := wrapped_tick_state in
  let home := surface_home 4096 text_NB in
  gCurrentDrawCount st < 64 /\
  exists e0,
    _ttfSurfaceCache st !! home = Some e0 /\
    surface_is_empty e0 = false /\
    entry_matches sc_font sc_text 4096 text_NB e0 = false /\
    entry_stale sc_lastUseTick (gCurrentDrawCount st) e0 = false /\
    surface_probe 4096 text_NB st <> ProbeMiss home /\
    _ttfSurfaceCache (snd (ttf_surface_cache_get_or_add sample_engine 4096 text_NB st))
      !! home = Some e0.
Proof.
  intros st home. split; [vm_compute; reflexivity|].
  eexists. split; [vm_compute; reflexivity|].
  do 3 (split; [vm_compute; reflexivity|]).
  split; [vm_compute; discriminate|vm_compute; reflexivity].
Qed.

(** *** Misses of the surface cache *)

Lemma surface_probe_lt font text st :
  length (_ttfSurfaceCache st) = TTF_SURFACE_CACHE_SIZE ->
  match surface_probe font text st with
  | ProbeHit t | ProbeMiss t => (t < TTF_SURFACE_CACHE_SIZE)%nat
  end.
Proof.
  intros Hlen. apply probe_result_lt; [unfold TTF_SURFACE_CACHE_SIZE; lia|assumption|].
  apply surface_home_lt.
Qed.

Lemma getwidth_probe_lt font text st :
  length (_ttfGetWidthCache st) = TTF_GETWIDTH_CACHE_SIZE ->
  match getwidth_probe font text st with
  | ProbeHit t | ProbeMiss t => (t < TTF_GETWIDTH_CACHE_SIZE)%nat
  end.
Proof.
  intros Hlen. apply probe_result_lt; [unfold TTF_GETWIDTH_CACHE_SIZE; lia|assumption|].
  apply getwidth_home_lt.
Qed.

Lemma surface_miss_slot font text st t :
  tables_sized st -> surface_probe font text st = ProbeMiss t ->
  exists e0, _ttfSurfaceCache st !! t = Some e0.
Proof.
  intros [Hs _] Hp. apply lookup_lt_is_Some_2.
  pose proof (surface_probe_lt font text st Hs) as Hlt. rewrite Hp in Hlt. lia.
Qed.

Lemma render_calls_cons ev t :
  render_calls (ev :: t) = if is_render ev then S (render_calls t) else render_calls t.
Proof.
  unfold render_calls. simpl. destruct (is_render ev); reflexivity.
Qed.

Lemma render_calls_releases e0 t : render_calls (surface_releases e0 ++ t) = render_calls t.
Proof.
  unfold surface_releases. destruct (surface_is_empty e0); [reflexivity|].
  simpl. now rewrite !render_calls_cons.
Qed.

(** Everything a surface miss does, by the answer of the render. *)
Lemma surface_miss_effects E font text st t e0 :
  surface_probe font text st = ProbeMiss t ->
  _ttfSurfaceCache st !! t = Some e0 ->
  let st1 := ttf_surface_cache_dispose t st in
  let r := ttf_surface_cache_get_or_add E font text st in
  fst r = fst (ttf_render E font text st1) /\
  (exists ev, is_render ev = true /\
              trace (snd r) = ev :: surface_releases e0 ++ trace st) /\
  _ttfSurfaceCache (snd r) =
    <[t := surface_slot_after_miss e0 (fst r) font text (gCurrentDrawCount st)]>
      (_ttfSurfaceCache st) /\
  _ttfSurfaceCacheHitCount (snd r) = _ttfSurfaceCacheHitCount st /\
  _ttfSurfaceCacheCount (snd r) =
    (if fst r =? nullptr then _ttfSurfaceCacheCount st
     else wrap_int32 (_ttfSurfaceCacheCount st + 1)) /\
  _ttfSurfaceCacheMissCount (snd r) =
    (if fst r =? nullptr then _ttfSurfaceCacheMissCount st
     else wrap_int32 (_ttfSurfaceCacheMissCount st + 1)) /\
  _ttfGetWidthCache (snd r) = _ttfGetWidthCache st /\
  _ttfGetWidthCacheCount (snd r) = _ttfGetWidthCacheCount st /\
  _ttfGetWidthCacheHitCount (snd r) = _ttfGetWidthCacheHitCount st /\
  _ttfGetWidthCacheMissCount (snd r) = _ttfGetWidthCacheMissCount st /\
  gCurrentDrawCount (snd r) = gCurrentDrawCount st /\
  fontHinting (snd r) = fontHinting st.
Proof.
  intros Hp He st1 r. subst r st1.
  assert (Ht : trace (ttf_surface_cache_dispose t st) = surface_releases e0 ++ trace st).
  { rewrite surface_dispose_trace, He. unfold surface_releases.
    destruct (surface_is_empty e0); reflexivity. }
  split; [|split; [|split; [now apply surface_miss_cache|]]];
    unfold ttf_surface_cache_get_or_add; rewrite Hp;
    pose proof (ttf_render_frame E font text (ttf_surface_cache_dispose t st)) as Hr;
    pose proof (surface_dispose_frame t st) as Hd; simpl in Hd;
    destruct Hd as (Hc & Hh & Hm & Hw & Hwc & Hwh & Hwm & Htk & _ & _ & _ & Hfh);
    destruct (ttf_render E font text (ttf_surface_cache_dispose t st)) as [s st2];
    simpl in Hr;
    destruct Hr as (_ & Hc' & Hh' & Hm' & Hw' & Hwc' & Hwh' & Hwm' & Htk' & Hfh' & ev & Hev & Htr);
    destruct (Z.eqb_spec s nullptr) as [->|Hs]; simpl.
  - reflexivity.
  - reflexivity.
  - exists ev. split; [assumption|]. now rewrite Htr, Ht.
  - exists ev. split; [assumption|]. now rewrite Htr, Ht.
  - repeat split; congruence.
  - destruct (Z.eqb_spec s nullptr); [contradiction|].
    repeat split; congruence.
Qed.

Lemma surface_slot_after_miss_ok e0 surface font text tick :
  surface <> nullptr ->
  surface_slot_after_miss e0 surface font text tick =
    {| sc_surface := surface; sc_font := font; sc_text := _strdup text;
       sc_lastUseTick := tick |}.
Proof.
  intros Hs. unfold surface_slot_after_miss.
  destruct (Z.eqb_spec surface nullptr); [contradiction|reflexivity].
Qed.

Lemma surface_slot_after_miss_failed e0 font text tick :
  surface_is_empty (surface_slot_after_miss e0 nullptr font text tick) = true.
Proof.
  unfold surface_slot_after_miss. simpl.
  destruct (surface_is_empty e0) eqn:He; [assumption|reflexivity].
Qed.

Lemma new_entry_matches font text surface tick :
  entry_matches sc_font sc_text font text
    {| sc_surface := surface; sc_font := font; sc_text := _strdup text;
       sc_lastUseTick := tick |} = true.
Proof.
  apply entry_matches_true. split; [reflexivity|].
  exists (c_str text). split; [reflexivity|]. apply strcmp_c_str_l, strcmp_refl.
Qed.

(** C2, as the code has it.  On a surface table whose slots are all empty
    the first [ttf_surface_cache_get_or_add] for a key is a miss at the home
    slot and calls the render once.  When that call returned a surface, the
    same call made again at once (same font, same text, same tick) is a hit
    at the home slot, returns that very surface and leaves the trace as it
    was: the render is not called.  When the render returned no surface,
    every slot is still empty and the same call made again is a miss at the
    home slot again, with a second render call. *)
Theorem C2_first_miss_then_hit (E : FontEngine) (font : ptr) (text : list utf8)
    (st : TTFState) :
  tables_sized st ->
  (forall i e, _ttfSurfaceCache st !! i = Some e -> surface_is_empty e = true) ->
  let home := surface_home font text in
  let r1 := ttf_surface_cache_get_or_add E font text st in
  surface_probe font text st = ProbeMiss home /\
  render_calls (trace (snd r1)) = S (render_calls (trace st)) /\
  (fst r1 <> nullptr ->
   let r2 := ttf_surface_cache_get_or_add E font text (snd r1) in
   surface_probe font text (snd r1) = ProbeHit home /\
   fst r2 = fst r1 /\
   trace (snd r2) = trace (snd r1) /\
   render_calls (trace (snd r2)) = render_calls (trace (snd r1))) /\
  (fst r1 = nullptr ->
   let r2 := ttf_surface_cache_get_or_add E font text (snd r1) in
   (forall i e, _ttfSurfaceCache (snd r1) !! i = Some e -> surface_is_empty e = true) /\
   surface_probe font text (snd r1) = ProbeMiss home /\
   (forall t, surface_probe font text (snd r1) <> ProbeHit t) /\
   render_calls (trace (snd r2)) = S (S (render_calls (trace st)))).
Proof.
  intros [Hs Hw] Hempty home r1.
  destruct (lookup_lt_is_Some_2 (_ttfSurfaceCache st) home) as [e0 He0].
  { rewrite Hs. apply surface_home_lt. }
  assert (Hp : surface_probe font text st = ProbeMiss home).
  { apply probe_home_empty with (e := e0); eauto.
    unfold TTF_SURFACE_CACHE_SIZE; lia. }
  destruct (surface_miss_effects E font text st home e0 Hp He0)
    as (_ & (ev & Hev & Htr) & Hc & _ & _ & _ & _ & _ & _ & _ & Htk & _).
  fold r1 in Htr, Hc, Htk.
  split; [assumption|].
  assert (Hcalls : render_calls (trace (snd r1)) = S (render_calls (trace st))).
  { rewrite Htr, render_calls_cons, Hev. unfold surface_releases.
    now rewrite (Hempty _ _ He0). }
  split; [exact Hcalls|].
  split; [intros Hok r2|intros Hnull r2].
  - rewrite surface_slot_after_miss_ok in Hc by assumption.
    assert (Hp2 : surface_probe font text (snd r1) = ProbeHit home).
    { unfold surface_probe. rewrite Hc, Htk.
      eapply probe_home_hit.
      - unfold TTF_SURFACE_CACHE_SIZE; lia.
      - now rewrite length_insert.
      - apply list_lookup_insert_eq. rewrite Hs. apply surface_home_lt.
      - unfold surface_is_empty. simpl. now apply Z.eqb_neq.
      - apply new_entry_matches. }
    split; [assumption|].
    destruct (surface_hit E font text (snd r1) home Hp2) as (e & He & _ & _ & _ & Hr2).
    fold r2 in Hr2.
    rewrite Hc, list_lookup_insert_eq in He by (rewrite Hs; apply surface_home_lt).
    injection He as <-.
    rewrite Hr2. simpl. repeat split.
  - assert (Hsame : _ttfSurfaceCache (snd r1) = _ttfSurfaceCache st).
    { rewrite Hc, Hnull. unfold surface_slot_after_miss. simpl.
      rewrite (Hempty _ _ He0). now apply list_insert_id. }
    assert (Hempty1 : forall i e, _ttfSurfaceCache (snd r1) !! i = Some e ->
                                  surface_is_empty e = true).
    { intros i e. rewrite Hsame. apply Hempty. }
    assert (Hp1 : surface_probe font text (snd r1) = ProbeMiss home).
    { unfold surface_probe. rewrite Hsame, Htk. exact Hp. }
    split; [exact Hempty1|]. split; [exact Hp1|].
    split; [intros t; rewrite Hp1; discriminate|].
    assert (He1 : _ttfSurfaceCache (snd r1) !! home = Some e0) by (now rewrite Hsame).
    destruct (surface_miss_effects E font text (snd r1) home e0 Hp1 He1)
      as (_ & (ev2 & Hev2 & Htr2) & _).
    fold r2 in Htr2.
    rewrite Htr2, render_calls_cons, Hev2. unfold surface_releases.
    rewrite (Hempty _ _ He0). simpl. now rewrite Hcalls.
Qed.

Lemma C2_first_miss_then_hit_witness :
  let r1 := ttf_surface_cache_get_or_add sample_engine 4096 text_AA sample_state in
  fst (ttf_surface_cache_get_or_add sample_engine 4096 text_AA (snd r1)) = fst r1.
Proof.
  refine (proj1 (proj2 (proj1 (proj2 (proj2
            (C2_first_miss_then_hit sample_engine 4096 text_AA sample_state
               (initial_state_sized true true sample_fonts) _))) _))).
  - intros i e He. apply lookup_replicate in He as [-> _]. reflexivity.
  - vm_compute. discriminate.
Defined.

(** C2 as stated fails when the render does not succeed: the first call
    for AA on the empty table is a miss with one render call and returns
    nullptr, the slot stays empty, and the same call made again is a miss
    too and calls the render a second time. *)
Lemma C2_counterexample :
  let r1 := ttf_surface_cache_get_or_add failing_engine 4096 text_AA sample_state in
  let r2 := ttf_surface_cache_get_or_add failing_engine 4096 text_AA (snd r1) in
  Forall (fun e => surface_is_empty e = true) (_ttfSurfaceCache sample_state) /\
  surface_probe 4096 text_AA sample_state = ProbeMiss 78 /\
  render_calls (trace (snd r1)) = 1%nat /\
  fst r1 = nullptr /\
  surface_probe 4096 text_AA (snd r1) = ProbeMiss 78 /\
  (forall t, surface_probe 4096 text_AA (snd r1) <> ProbeHit t) /\
  render_calls (trace (snd r2)) = 2%nat.
Proof.
  intros r1 r2.
  assert (Hp : surface_probe 4096 text_AA (snd r1) = ProbeMiss 78)
    by (vm_compute; reflexivity).
  split.
  { apply Forall_forall. intros e He. apply elem_of_replicate in He as [-> _]. reflexivity. }
  split; [vm_compute; reflexivity|]. split; [vm_compute; reflexivity|].
  split; [vm_compute; reflexivity|]. split; [exact Hp|].
  split; [intros t; rewrite Hp; discriminate|]. vm_compute; reflexivity.
Qed.

(** C4.  When a [ttf_surface_cache_get_or_add] misses with target slot [t]
    and the render answers nullptr, the call returns nullptr; slot [t] is
    empty afterwards and the other slots are as before; the hit, miss and
    occupancy counters, the get-width cache with its counters, the tick and
    the hinting flags are unchanged; the only events are the release of
    what the slot held and the render call.  The same lookup made again
    then misses at [t] again, and when its render succeeds the key is
    stored in slot [t]. *)
Theorem C4_render_failure (E : FontEngine) (font : ptr) (text : list utf8)
    (st : TTFState) (t : nat) :
  tables_sized st ->
  surface_probe font text st = ProbeMiss t ->
  fst (ttf_render E font text (ttf_surface_cache_dispose t st)) = nullptr ->
  let r1 := ttf_surface_cache_get_or_add E font text st in
  let r2 := ttf_surface_cache_get_or_add E font text (snd r1) in
  fst r1 = nullptr /\
  (exists e0 e1,
     _ttfSurfaceCache st !! t = Some e0 /\
     _ttfSurfaceCache (snd r1) = <[t := e1]> (_ttfSurfaceCache st) /\
     _ttfSurfaceCache (snd r1) !! t = Some e1 /\
     surface_is_empty e1 = true /\
     exists ev, is_render ev = true /\
                trace (snd r1) = ev :: surface_releases e0 ++ trace st) /\
  _ttfSurfaceCacheMissCount (snd r1) = _ttfSurfaceCacheMissCount st /\
  _ttfSurfaceCacheCount (snd r1) = _ttfSurfaceCacheCount st /\
  _ttfSurfaceCacheHitCount (snd r1) = _ttfSurfaceCacheHitCount st /\
  _ttfGetWidthCache (snd r1) = _ttfGetWidthCache st /\
  _ttfGetWidthCacheCount (snd r1) = _ttfGetWidthCacheCount st /\
  _ttfGetWidthCacheHitCount (snd r1) = _ttfGetWidthCacheHitCount st /\
  _ttfGetWidthCacheMissCount (snd r1) = _ttfGetWidthCacheMissCount st /\
  gCurrentDrawCount (snd r1) = gCurrentDrawCount st /\
  fontHinting (snd r1) = fontHinting st /\
  surface_probe font text (snd r1) = ProbeMiss t /\
  (fst r2 <> nullptr ->
   _ttfSurfaceCache (snd r2) =
     <[t := {| sc_surface := fst r2; sc_font := font; sc_text := _strdup text;
               sc_lastUseTick := gCurrentDrawCount st |}]> (_ttfSurfaceCache (snd r1)) /\
   _ttfSurfaceCacheMissCount (snd r2) = wrap_int32 (_ttfSurfaceCacheMissCount st + 1)).
Proof.
  intros Hsz Hp Hfail r1 r2.
  destruct (surface_miss_slot font text st t Hsz Hp) as [e0 He0].
  destruct (surface_miss_effects E font text st t e0 Hp He0)
    as (Hr & Htr & Hc & Hh & Hcnt & Hm & Hw & Hwc & Hwh & Hwm & Htk & Hfh).
  fold r1 in Hr, Htr, Hc, Hh, Hcnt, Hm, Hw, Hwc, Hwh, Hwm, Htk, Hfh.
  assert (Hnull : fst r1 = nullptr) by congruence.
  rewrite Hnull in Hc, Hcnt, Hm. simpl in Hcnt, Hm.
  pose proof (surface_slot_after_miss_failed e0 font text (gCurrentDrawCount st)) as Hempty.
  set (e1 := surface_slot_after_miss e0 nullptr font text (gCurrentDrawCount st)) in *.
  assert (Hlt : (t < length (_ttfSurfaceCache st))%nat) by (now apply lookup_lt_Some in He0).
  assert (Hp1 : surface_probe font text (snd r1) = ProbeMiss t).
  { unfold surface_probe. rewrite Hc, Htk. now apply probe_after_clear. }
  split; [assumption|]. split.
  { exists e0, e1. split; [assumption|]. split; [assumption|]. split.
    - rewrite Hc. now apply list_lookup_insert_eq.
    - split; assumption. }
  do 10 (split; [assumption|]).
  intros Hok.
  assert (He1 : _ttfSurfaceCache (snd r1) !! t = Some e1).
  { rewrite Hc. now apply list_lookup_insert_eq. }
  destruct (surface_miss_effects E font text (snd r1) t e1 Hp1 He1)
    as (_ & _ & Hc2 & _ & _ & Hm2 & _).
  fold r2 in Hc2, Hm2.
  rewrite surface_slot_after_miss_ok in Hc2 by assumption.
  rewrite Htk in Hc2. split; [assumption|].
  rewrite Hm2, Hm. destruct (Z.eqb_spec (fst r2) nullptr); [contradiction|reflexivity].
Qed.

Lemma C4_render_failure_witness :
  let r1 := ttf_surface_cache_get_or_add flaky_engine 4096 text_AA sample_state in
  let r2 := ttf_surface_cache_get_or_add flaky_engine 4096 text_AA (snd r1) in
  fst r1 = nullptr /\
  surface_probe 4096 text_AA (snd r1) = ProbeMiss 78 /\
  _ttfSurfaceCacheMissCount (snd r2)
    = wrap_int32 (_ttfSurfaceCacheMissCount sample_state + 1).
Proof.
  pose proof (C4_render_failure flaky_engine 4096 text_AA sample_state 78
                (initial_state_sized true true sample_fonts)
                ltac:(vm_compute; reflexivity) ltac:(vm_compute; reflexivity)) as H.
  split; [exact (proj1 H)|].
  destruct H as (_ & _ & _ & _ & _ & _ & _ & _ & _ & _ & _ & Hp & Hok).
  split; [exact Hp|].
  exact (proj2 (Hok ltac:(vm_compute; discriminate))).
Defined.

(** *** The probe loop against the probing contract of the design document *)

Lemma holds_key_matches {entry} (ef : entry -> ptr) (et : entry -> option (list utf8))
    font text e :
  entry_matches ef et font text e = true <-> holds_key ef et font text e.
Proof.
  rewrite entry_matches_true. unfold holds_key. split.
  - intros [Hf (s & Hs & Hc)]. split; [assumption|]. exists s. split; [assumption|].
    now apply strcmp_0_iff.
  - intros [Hf (s & Hs & Hc)]. split; [assumption|]. exists s. split; [assumption|].
    now apply strcmp_0_iff.
Qed.

Lemma older_than_64_ticks_stale {entry} (et : entry -> Z) tick e :
  entry_stale et tick e = true <-> older_than_64_ticks et tick e.
Proof. unfold entry_stale, older_than_64_ticks, wrap_uint32. apply Z.ltb_lt. Qed.

Lemma probe_contract_rules {entry} (is_empty : entry -> bool) (slot_empty : entry -> Prop)
    ef et etick N (cache : list entry) font text tick home res :
  (forall e, is_empty e = true <-> slot_empty e) ->
  probe_contract is_empty ef et etick N cache font text tick home home res ->
  probing_rules slot_empty ef et etick N cache font text tick home res.
Proof.
  intros Hempty (k & Hk & Hskip & Hend).
  assert (Hocc : forall e, is_empty e = false -> ~ slot_empty e).
  { intros e He Hs. apply Hempty in Hs. congruence. }
  assert (Hnm : forall e, entry_matches ef et font text e = false ->
                          ~ holds_key ef et font text e).
  { intros e He Hh. apply holds_key_matches in Hh. congruence. }
  assert (Hns : forall e, entry_stale etick tick e = false ->
                          ~ older_than_64_ticks etick tick e).
  { intros e He Hh. apply older_than_64_ticks_stale in Hh. congruence. }
  exists k. split; [assumption|]. split.
  - intros j Hj. destruct (Hskip j Hj) as (e & He & Ho & Hm & Hs).
    exists e. split; [assumption|]. split; [auto|]. split; auto.
  - destruct Hend as [[Hlt (e & He & Hstop)]|[-> ->]]; [left|right; split; reflexivity].
    split; [assumption|]. exists e. split; [assumption|].
    inversion Hstop as [Ho|Ho Hm|Ho Hm Hs]; subst.
    + left. split; [now apply Hempty|reflexivity].
    + right; left. split; [auto|]. split; [now apply holds_key_matches|reflexivity].
    + right; right. split; [auto|]. split; [auto|].
      split; [now apply older_than_64_ticks_stale|reflexivity].
Qed.

Lemma surface_empty_iff e : surface_is_empty e = true <-> sc_surface e = nullptr.
Proof. unfold surface_is_empty. apply Z.eqb_eq. Qed.

Lemma getwidth_empty_iff e : getwidth_is_empty e = true <-> gw_text e = None.
Proof. unfold getwidth_is_empty. destruct (gw_text e); split; congruence. Qed.

(** Where a surface miss writes: the slot the probe stopped at and no
    other. *)
Lemma surface_miss_writes E font text st t :
  tables_sized st ->
  surface_probe font text st = ProbeMiss t ->
  let r := ttf_surface_cache_get_or_add E font text st in
  (t < 256)%nat /\
  (forall i, i <> t -> _ttfSurfaceCache (snd r) !! i = _ttfSurfaceCache st !! i) /\
  (fst r <> nullptr ->
   _ttfSurfaceCache (snd r) !! t
   = Some {| sc_surface := fst r; sc_font := font; sc_text := Some (c_str text);
             sc_lastUseTick := gCurrentDrawCount st |}) /\
  (fst r = nullptr ->
   exists e, _ttfSurfaceCache (snd r) !! t = Some e /\ sc_surface e = nullptr).
Proof.
  intros Hsz Hp r. destruct (surface_miss_slot font text st t Hsz Hp) as [e0 He0].
  pose proof (surface_miss_cache E font text st t e0 Hp He0) as Hc. cbv zeta in Hc.
  fold r in Hc.
  assert (Hlt : (t < length (_ttfSurfaceCache st))%nat) by (now apply lookup_lt_Some in He0).
  split; [destruct Hsz as [Hs _]; rewrite Hs in Hlt; exact Hlt|].
  split; [intros i Hi; rewrite Hc; apply list_lookup_insert_ne; congruence|].
  split.
  - intros Hok. rewrite Hc, list_lookup_insert_eq by assumption.
    rewrite surface_slot_after_miss_ok by assumption. reflexivity.
  - intros Hnull. rewrite Hc, list_lookup_insert_eq by assumption. eexists.
    split; [reflexivity|]. apply surface_empty_iff. rewrite Hnull.
    apply surface_slot_after_miss_failed.
Qed.

Lemma getwidth_miss_writes E font text st t :
  tables_sized st ->
  getwidth_probe font text st = ProbeMiss t ->
  let r := ttf_getwidth_cache_get_or_add E font text st in
  (t < 1024)%nat /\
  (forall i, i <> t -> _ttfGetWidthCache (snd r) !! i = _ttfGetWidthCache st !! i) /\
  _ttfGetWidthCache (snd r) !! t
  = Some {| gw_width := fst r; gw_font := font; gw_text := Some (c_str text);
            gw_lastUseTick := gCurrentDrawCount st |}.
Proof.
  intros [_ Hw] Hp r.
  pose proof (getwidth_miss_cache E font text st t Hp) as Hc. cbv zeta in Hc. fold r in Hc.
  pose proof (getwidth_probe_lt font text st Hw) as Hlt. rewrite Hp in Hlt.
  split; [exact Hlt|].
  split; [intros i Hi; rewrite Hc; apply list_lookup_insert_ne; congruence|].
  rewrite Hc. apply list_lookup_insert_eq. rewrite Hw. exact Hlt.
Qed.

(** C1. In either cache a lookup probes from the home slot, the hash modulo
    the table size, one slot after the other with wrap-around and over at
    most as many slots as the table has.  It passes over the slots that are
    occupied, hold another key and are not older than the threshold, and
    stops at the first slot that is empty (a miss), that has the font
    handle asked for and a text of the same content (a hit), or whose
    [lastUseTick] is below the current tick minus 64, the subtraction
    being that of [uint32_t] (a miss); when all slots are passed over the
    lookup is a miss at the home slot.  A hit returns the stored value,
    adds one to the hit counter, stamps the slot with the current tick and
    changes nothing else.  A miss writes the slot the probe stopped at and
    no other: the new entry with the key and the current tick, or, when
    the render of a surface fails, an empty slot. *)
Theorem C1_probe_sequence (E : FontEngine) (font : ptr) (text : list utf8) (st : TTFState) :
  tables_sized st ->
  (surface_home font text =
     Z.to_nat (ttf_surface_cache_hash font text mod 256) /\
   (surface_home font text < 256)%nat /\
   probing_rules (fun e => sc_surface e = nullptr) sc_font sc_text sc_lastUseTick
     256 (_ttfSurfaceCache st) font text (gCurrentDrawCount st)
     (surface_home font text) (surface_probe font text st) /\
   (forall t, surface_probe font text st = ProbeHit t ->
      exists e,
        _ttfSurfaceCache st !! t = Some e /\
        sc_surface e <> nullptr /\ sc_font e = font /\
        (exists s, sc_text e = Some s /\ c_str s = c_str text) /\
        ttf_surface_cache_get_or_add E font text st =
          (sc_surface e,
           set_surface_cache
             (<[t := {| sc_surface := sc_surface e; sc_font := sc_font e;
                        sc_text := sc_text e;
                        sc_lastUseTick := gCurrentDrawCount st |}]> (_ttfSurfaceCache st))
             (set_surface_counters (_ttfSurfaceCacheCount st)
                (wrap_int32 (_ttfSurfaceCacheHitCount st + 1))
                (_ttfSurfaceCacheMissCount st) st))) /\
   (forall t, surface_probe font text st = ProbeMiss t ->
      let r := ttf_surface_cache_get_or_add E font text st in
      (t < 256)%nat /\
      (forall i, i <> t -> _ttfSurfaceCache (snd r) !! i = _ttfSurfaceCache st !! i) /\
      (fst r <> nullptr ->
       _ttfSurfaceCache (snd r) !! t
       = Some {| sc_surface := fst r; sc_font := font; sc_text := Some (c_str text);
                 sc_lastUseTick := gCurrentDrawCount st |}) /\
      (fst r = nullptr ->
       exists e, _ttfSurfaceCache (snd r) !! t = Some e /\ sc_surface e = nullptr))) /\
  (getwidth_home font text =
     Z.to_nat (ttf_surface_cache_hash font text mod 1024) /\
   (getwidth_home font text < 1024)%nat /\
   probing_rules (fun e => gw_text e = None) gw_font gw_text gw_lastUseTick
     1024 (_ttfGetWidthCache st) font text (gCurrentDrawCount st)
     (getwidth_home font text) (getwidth_probe font text st) /\
   (forall t, getwidth_probe font text st = ProbeHit t ->
      exists e,
        _ttfGetWidthCache st !! t = Some e /\
        gw_font e = font /\
        (exists s, gw_text e = Some s /\ c_str s = c_str text) /\
        ttf_getwidth_cache_get_or_add E font text st =
          (gw_width e,
           set_getwidth_cache
             (<[t := {| gw_width := gw_width e; gw_font := gw_font e;
                        gw_text := gw_text e;
                        gw_lastUseTick := gCurrentDrawCount st |}]> (_ttfGetWidthCache st))
             (set_getwidth_counters (_ttfGetWidthCacheCount st)
                (wrap_int32 (_ttfGetWidthCacheHitCount st + 1))
                (_ttfGetWidthCacheMissCount st) st))) /\
   (forall t, getwidth_probe font text st = ProbeMiss t ->
      let r := ttf_getwidth_cache_get_or_add E font text st in
      (t < 1024)%nat /\
      (forall i, i <> t -> _ttfGetWidthCache (snd r) !! i = _ttfGetWidthCache st !! i) /\
      _ttfGetWidthCache (snd r) !! t
      = Some {| gw_width := fst r; gw_font := font; gw_text := Some (c_str text);
                gw_lastUseTick := gCurrentDrawCount st |})).
Proof.
  intros Hsz. pose proof Hsz as [Hs Hw]. split.
  - split; [reflexivity|]. split; [apply surface_home_lt|]. split.
    { apply probe_contract_rules with (is_empty := surface_is_empty).
      - apply surface_empty_iff.
      - now apply surface_probe_meets_contract. }
    split.
    + intros t Hp. destruct (surface_hit E font text st t Hp) as (e & He & Ho & Hf & Ht & Hr).
      exists e. split; [assumption|]. split; [assumption|]. split; [assumption|].
      split; [|assumption].
      destruct Ht as (s & Hs' & Hc). exists s. split; [assumption|]. now apply strcmp_0_iff.
    + intros t Hp. now apply surface_miss_writes.
  - split; [reflexivity|]. split; [apply getwidth_home_lt|]. split.
    { apply probe_contract_rules with (is_empty := getwidth_is_empty).
      - apply getwidth_empty_iff.
      - now apply getwidth_probe_meets_contract. }
    split.
    + intros t Hp. destruct (getwidth_hit E font text st t Hp) as (e & He & Hf & Ht & Hr).
      exists e. split; [assumption|]. split; [assumption|]. split; [|assumption].
      destruct Ht as (s & Hs' & Hc). exists s. split; [assumption|]. now apply strcmp_0_iff.
    + intros t Hp. now apply getwidth_miss_writes.
Qed.

Lemma C1_probe_sequence_witness :
  tables_sized one_key_state /\
  probing_rules (fun e => sc_surface e = nullptr) sc_font sc_text sc_lastUseTick
    256 (_ttfSurfaceCache one_key_state) 4096 text_NB (gCurrentDrawCount one_key_state)
    (surface_home 4096 text_NB) (surface_probe 4096 text_NB one_key_state).
Proof.
  assert (H : tables_sized one_key_state) by (split; vm_compute; reflexivity).
  split; [exact H|].
  exact (proj1 (proj2 (proj2 (proj1
           (C1_probe_sequence sample_engine 4096 text_NB one_key_state H))))).
Defined.

(** *** Disposal of a whole table *)

Lemma wrap_int32_idem x k : wrap_int32 (wrap_int32 x + k) = wrap_int32 (x + k).
Proof.
  unfold wrap_int32. f_equal.
  replace ((x + 2 ^ 31) mod 2 ^ 32 - 2 ^ 31 + k + 2 ^ 31)
    with ((x + 2 ^ 31) mod 2 ^ 32 + k) by lia.
  rewrite Zplus_mod_idemp_l. f_equal. lia.
Qed.

Lemma wrap_int32_small x : - 2 ^ 31 <= x < 2 ^ 31 -> wrap_int32 x = x.
Proof. intros H. unfold wrap_int32. rewrite Z.mod_small; lia. Qed.

(** [n] times [count--]. *)
Lemma iter_decrement n c :
  Nat.iter (S n) (fun c => wrap_int32 (c - 1)) c = wrap_int32 (c - Z.of_nat (S n)).
Proof.
  induction n as [|n IH].
  - reflexivity.
  - change (Nat.iter (S (S n)) (fun c => wrap_int32 (c - 1)) c)
      with (wrap_int32 (Nat.iter (S n) (fun c => wrap_int32 (c - 1)) c - 1)).
    rewrite IH. rewrite <- Z.add_opp_r, wrap_int32_idem. f_equal. lia.
Qed.

(** A loop [for (i = 0; i < n; i++) body(i)] whose body rewrites slot [i] by
    [f] and releases [rel] of what the slot held. *)
Section DisposeLoop.
Context {state entry : Type}.
Variable table : state -> list entry.
Variable events : state -> list event.
Variable counter : state -> Z.
Variable body : state -> nat -> state.
Variable f : entry -> entry.
Variable rel : entry -> list event.

Hypothesis body_table : forall st i e,
  table st !! i = Some e -> table (body st i) = <[i := f e]> (table st).
Hypothesis body_events : forall st i e,
  table st !! i = Some e -> events (body st i) = rel e ++ events st.
Hypothesis body_counter : forall st i,
  counter (body st i) = wrap_int32 (counter st - 1).

Lemma dispose_loop n st :
  (n <= length (table st))%nat ->
  let st' := fold_left body (seq 0 n) st in
  table st' = (f <$> take n (table st)) ++ drop n (table st) /\
  events st' = flat_map rel (reverse (take n (table st))) ++ events st /\
  counter st' = Nat.iter n (fun c => wrap_int32 (c - 1)) (counter st).
Proof.
  induction n as [|n IH]; intros Hn.
  - simpl. auto.
  - destruct IH as (Ht & He & Hc); [lia|].
    rewrite seq_S, fold_left_app. cbn [fold_left Nat.add Nat.iter].
    set (st1 := fold_left body (seq 0 n) st) in *.
    destruct (lookup_lt_is_Some_2 (table st) n) as [e Hn']; [lia|].
    assert (Hl : table st1 !! n = Some e).
    { rewrite Ht, lookup_app_r; rewrite length_fmap, length_take; [|lia].
      replace (n - n `min` length (table st))%nat with O by lia.
      now rewrite lookup_drop, Nat.add_0_r. }
    rewrite (body_table _ _ _ Hl), (body_events _ _ _ Hl), body_counter.
    rewrite (take_S_r _ _ _ Hn').
    split; [|split].
    + rewrite Ht, fmap_app, <- app_assoc. simpl.
      rewrite (drop_S _ _ _ Hn').
      rewrite insert_app_r_alt; rewrite length_fmap, length_take; [|lia].
      replace (n - n `min` length (table st))%nat with O by lia.
      reflexivity.
    + rewrite He, reverse_app. simpl. now rewrite <- app_assoc.
    + now rewrite Hc.
Qed.
End DisposeLoop.

Lemma fold_left_preserves {state A B : Type} (g : state -> B) (body : state -> A -> state)
    (l : list A) (st : state) :
  (forall st i, g (body st i) = g st) -> g (fold_left body l st) = g st.
Proof.
  intros Hb. revert st. induction l as [|i l IH]; intros st; simpl; [reflexivity|].
  now rewrite IH, Hb.
Qed.

Lemma surface_disposed_empty e : surface_is_empty (surface_disposed e) = true.
Proof. unfold surface_disposed. destruct (surface_is_empty e) eqn:He; [assumption|reflexivity]. Qed.

Lemma getwidth_disposed_empty e : getwidth_is_empty (getwidth_disposed e) = true.
Proof. unfold getwidth_disposed. destruct (getwidth_is_empty e) eqn:He; [assumption|reflexivity]. Qed.

(** [ttf_surface_cache_dispose_all]: every slot is disposed of, what the
    occupied slots owned is released, slot by slot, and the counter goes
    down by one for each of the 256 slots, occupied or not. *)
Lemma surface_dispose_all_spec st :
  length (_ttfSurfaceCache st) = TTF_SURFACE_CACHE_SIZE ->
  let st' := ttf_surface_cache_dispose_all st in
  _ttfSurfaceCache st' = surface_disposed <$> _ttfSurfaceCache st /\
  trace st' = flat_map surface_releases (reverse (_ttfSurfaceCache st)) ++ trace st /\
  _ttfSurfaceCacheCount st' = wrap_int32 (_ttfSurfaceCacheCount st - 256).
Proof.
  intros Hlen st'. subst st'. unfold ttf_surface_cache_dispose_all.
  pose proof (dispose_loop _ttfSurfaceCache trace _ttfSurfaceCacheCount
    (fun st i =>
       let st1 := ttf_surface_cache_dispose i st in
       set_surface_counters (wrap_int32 (_ttfSurfaceCacheCount st1 - 1))
         (_ttfSurfaceCacheHitCount st1) (_ttfSurfaceCacheMissCount st1) st1)
    surface_disposed surface_releases) as H.
  destruct H with (n := TTF_SURFACE_CACHE_SIZE) (st := st) as (Ht & He & Hc).
  - intros s i e Hl. simpl. rewrite surface_dispose_cache, Hl. unfold surface_disposed.
    destruct (surface_is_empty e); [|reflexivity]. symmetry. now apply list_insert_id.
  - intros s i e Hl. simpl. rewrite surface_dispose_trace, Hl. unfold surface_releases.
    destruct (surface_is_empty e); reflexivity.
  - intros s i. simpl. now rewrite (proj1 (surface_dispose_frame i s)).
  - lia.
  - rewrite take_ge, drop_ge, app_nil_r in Ht by lia.
    rewrite take_ge in He by lia.
    split; [exact Ht|]. split; [exact He|].
    rewrite <- (iter_decrement 255). exact Hc.
Qed.

Lemma getwidth_dispose_trace index st :
  trace (ttf_getwidth_cache_dispose index st) =
    match _ttfGetWidthCache st !! index with
    | Some e => getwidth_releases e ++ trace st
    | None => trace st
    end.
Proof.
  unfold ttf_getwidth_cache_dispose, getwidth_releases.
  destruct (_ttfGetWidthCache st !! index) as [e|]; [|reflexivity].
  destruct (getwidth_is_empty e); reflexivity.
Qed.

Lemma getwidth_dispose_all_spec st :
  length (_ttfGetWidthCache st) = TTF_GETWIDTH_CACHE_SIZE ->
  let st' := ttf_getwidth_cache_dispose_all st in
  _ttfGetWidthCache st' = getwidth_disposed <$> _ttfGetWidthCache st /\
  trace st' = flat_map getwidth_releases (reverse (_ttfGetWidthCache st)) ++ trace st /\
  _ttfGetWidthCacheCount st' = wrap_int32 (_ttfGetWidthCacheCount st - 1024).
Proof.
  intros Hlen st'. subst st'. unfold ttf_getwidth_cache_dispose_all.
  pose proof (dispose_loop _ttfGetWidthCache trace _ttfGetWidthCacheCount
    (fun st i =>
       let st1 := ttf_getwidth_cache_dispose i st in
       set_getwidth_counters (wrap_int32 (_ttfGetWidthCacheCount st1 - 1))
         (_ttfGetWidthCacheHitCount st1) (_ttfGetWidthCacheMissCount st1) st1)
    getwidth_disposed getwidth_releases) as H.
  destruct H with (n := TTF_GETWIDTH_CACHE_SIZE) (st := st) as (Ht & He & Hc).
  - intros s i e Hl. simpl. rewrite getwidth_dispose_cache, Hl. unfold getwidth_disposed.
    destruct (getwidth_is_empty e); [|reflexivity]. symmetry. now apply list_insert_id.
  - intros s i e Hl. simpl. now rewrite getwidth_dispose_trace, Hl.
  - intros s i. simpl.
    pose proof (getwidth_dispose_frame i s) as Hf. simpl in Hf.
    now rewrite (proj1 (proj2 (proj2 (proj2 (proj2 Hf))))).
  - lia.
  - rewrite take_ge, drop_ge, app_nil_r in Ht by lia.
    rewrite take_ge in He by lia.
    split; [exact Ht|]. split; [exact He|].
    rewrite <- (iter_decrement 1023). exact Hc.
Qed.

(** What [ttf_surface_cache_dispose_all] leaves alone. *)
Lemma surface_dispose_all_frame st :
  let st' := ttf_surface_cache_dispose_all st in
  _ttfSurfaceCacheHitCount st' = _ttfSurfaceCacheHitCount st /\
  _ttfSurfaceCacheMissCount st' = _ttfSurfaceCacheMissCount st /\
  _ttfGetWidthCache st' = _ttfGetWidthCache st /\
  _ttfGetWidthCacheCount st' = _ttfGetWidthCacheCount st /\
  _ttfGetWidthCacheHitCount st' = _ttfGetWidthCacheHitCount st /\
  _ttfGetWidthCacheMissCount st' = _ttfGetWidthCacheMissCount st /\
  gCurrentDrawCount st' = gCurrentDrawCount st /\
  fontHinting st' = fontHinting st.
Proof.
  unfold ttf_surface_cache_dispose_all.
  repeat split; apply fold_left_preserves; intros s i; simpl;
    pose proof (surface_dispose_frame i s) as Hf; simpl in Hf; tauto.
Qed.

(** C7, evaluated on the code.  The counter is not brought to zero: AA is
    drawn and measured once, so that each table holds one entry and each
    counter reads 1; [ttf_surface_cache_dispose_all] empties every slot and
    releases the surface and the text of AA, but takes one off the counter
    for each of the 256 slots and leaves it at -255, and
    [ttf_getwidth_cache_dispose_all] leaves its counter at -1023.  Since
    [ttf_toggle_hinting] disposes of the surfaces only when the counter is
    not zero, a later toggle can find 255 surfaces cached with the counter
    at 0 and keep them. *)
Theorem C7_dispose_all_counter_not_zero :
  _ttfSurfaceCacheCount one_key_state = 1 /\
  _ttfGetWidthCacheCount one_key_state = 1 /\
  Forall (fun e => surface_is_empty e = true)
    (_ttfSurfaceCache (ttf_surface_cache_dispose_all one_key_state)) /\
  Forall (fun e => getwidth_is_empty e = true)
    (_ttfGetWidthCache (ttf_getwidth_cache_dispose_all one_key_state)) /\
  trace (ttf_surface_cache_dispose_all one_key_state) =
    EvFreeText (Some text_AA) :: EvFreeSurface 8192 :: trace one_key_state /\
  trace (ttf_getwidth_cache_dispose_all one_key_state) =
    EvFreeText (Some text_AA) :: trace one_key_state /\
  _ttfSurfaceCacheCount (ttf_surface_cache_dispose_all one_key_state) = -255 /\
  _ttfGetWidthCacheCount (ttf_getwidth_cache_dispose_all one_key_state) = -1023 /\
  _ttfSurfaceCacheCount miscounted_state = 0 /\
  length (List.filter (fun e => negb (surface_is_empty e))
            (_ttfSurfaceCache miscounted_state)) = 255%nat /\
  _ttfSurfaceCache (ttf_toggle_hinting miscounted_state) = _ttfSurfaceCache miscounted_state.
Proof.
  assert (Hs : length (_ttfSurfaceCache one_key_state) = TTF_SURFACE_CACHE_SIZE)
    by (vm_compute; reflexivity).
  assert (Hw : length (_ttfGetWidthCache one_key_state) = TTF_GETWIDTH_CACHE_SIZE)
    by (vm_compute; reflexivity).
  destruct (surface_dispose_all_spec one_key_state Hs) as (Hc & _ & _).
  destruct (getwidth_dispose_all_spec one_key_state Hw) as (Hc' & _ & _).
  split; [vm_compute; reflexivity|]. split; [vm_compute; reflexivity|].
  split.
  { rewrite Hc. apply Forall_fmap, Forall_forall. intros e _. apply surface_disposed_empty. }
  split.
  { rewrite Hc'. apply Forall_fmap, Forall_forall. intros e _. apply getwidth_disposed_empty. }
  do 6 (split; [vm_compute; reflexivity|]). vm_compute; reflexivity.
Qed.

(** *** The hinting toggle *)

Lemma set_hinting_loop_frame (fonts : list TTFFontDescriptor) st :
  let st' :=
    fold_left
      (fun st fontDesc =>
         let use_hinting :=
           gConfigFonts_enable_hinting st
           && negb (fd_hinting_threshold fontDesc =? 0) in
         TTF_SetFontHinting (fd_font fontDesc) (if use_hinting then 1 else 0) st)
      fonts st in
  _ttfSurfaceCache st' = _ttfSurfaceCache st /\
  _ttfSurfaceCacheCount st' = _ttfSurfaceCacheCount st /\
  _ttfSurfaceCacheHitCount st' = _ttfSurfaceCacheHitCount st /\
  _ttfSurfaceCacheMissCount st' = _ttfSurfaceCacheMissCount st /\
  _ttfGetWidthCache st' = _ttfGetWidthCache st /\
  _ttfGetWidthCacheCount st' = _ttfGetWidthCacheCount st /\
  _ttfGetWidthCacheHitCount st' = _ttfGetWidthCacheHitCount st /\
  _ttfGetWidthCacheMissCount st' = _ttfGetWidthCacheMissCount st /\
  gCurrentDrawCount st' = gCurrentDrawCount st.
Proof.
  repeat split; apply fold_left_preserves; reflexivity.
Qed.

(** C10.  While the sprite font is in use, [ttf_toggle_hinting] returns at
    once and the state is the one it was called in: the hinting flag of
    every font, both tables, all counters and the trace (no call to the
    font engine, no release) are unchanged. *)
Theorem C10_toggle_without_truetype (st : TTFState) :
  LocalisationService_UseTrueTypeFont st = false ->
  ttf_toggle_hinting st = st /\
  fontHinting (ttf_toggle_hinting st) = fontHinting st /\
  (forall font, TTF_GetFontHinting font (ttf_toggle_hinting st) = TTF_GetFontHinting font st) /\
  _ttfSurfaceCache (ttf_toggle_hinting st) = _ttfSurfaceCache st /\
  _ttfGetWidthCache (ttf_toggle_hinting st) = _ttfGetWidthCache st /\
  _ttfSurfaceCacheCount (ttf_toggle_hinting st) = _ttfSurfaceCacheCount st /\
  _ttfSurfaceCacheHitCount (ttf_toggle_hinting st) = _ttfSurfaceCacheHitCount st /\
  _ttfSurfaceCacheMissCount (ttf_toggle_hinting st) = _ttfSurfaceCacheMissCount st /\
  _ttfGetWidthCacheCount (ttf_toggle_hinting st) = _ttfGetWidthCacheCount st /\
  _ttfGetWidthCacheHitCount (ttf_toggle_hinting st) = _ttfGetWidthCacheHitCount st /\
  _ttfGetWidthCacheMissCount (ttf_toggle_hinting st) = _ttfGetWidthCacheMissCount st /\
  trace (ttf_toggle_hinting st) = trace st.
Proof.
  intros Hsprite.
  assert (H : ttf_toggle_hinting st = st).
  { unfold ttf_toggle_hinting. now rewrite Hsprite. }
  rewrite H. repeat split.
Qed.

Lemma C10_toggle_without_truetype_witness :
  LocalisationService_UseTrueTypeFont sprite_one_key_state = false /\
  ttf_toggle_hinting sprite_one_key_state = sprite_one_key_state.
Proof.
  split; [reflexivity|].
  exact (proj1 (C10_toggle_without_truetype sprite_one_key_state eq_refl)).
Defined.


(** With TrueType in use the toggle sets the hinting of each font of the
    set and then, when the surface counter is not zero, disposes of the
    whole surface table. *)
Lemma toggle_with_truetype st :
  LocalisationService_UseTrueTypeFont st = true ->
  _ttfSurfaceCacheCount st <> 0 ->
  length (_ttfSurfaceCache st) = TTF_SURFACE_CACHE_SIZE ->
  let st' := ttf_toggle_hinting st in
  _ttfSurfaceCache st' = surface_disposed <$> _ttfSurfaceCache st /\
  _ttfGetWidthCache st' = _ttfGetWidthCache st /\
  _ttfGetWidthCacheCount st' = _ttfGetWidthCacheCount st /\
  _ttfGetWidthCacheHitCount st' = _ttfGetWidthCacheHitCount st /\
  _ttfGetWidthCacheMissCount st' = _ttfGetWidthCacheMissCount st /\
  gCurrentDrawCount st' = gCurrentDrawCount st.
Proof.
  intros Httf Hcount Hlen st'. subst st'. unfold ttf_toggle_hinting. rewrite Httf.
  cbn [negb].
  pose proof (set_hinting_loop_frame (gCurrentTTFFontSet st) st) as Hf. cbv zeta in Hf.
  destruct Hf as (Hc & Hn & _ & _ & Hw & Hwc & Hwh & Hwm & Htk).
  rewrite Hn. destruct (Z.eqb_spec (_ttfSurfaceCacheCount st) 0); [contradiction|].
  cbn [negb].
  match goal with |- context [ttf_surface_cache_dispose_all ?s] => set (st1 := s) in * end.
  destruct (surface_dispose_all_spec st1) as (Hd & _ & _); [congruence|].
  pose proof (surface_dispose_all_frame st1) as Hfr. cbv zeta in Hfr.
  destruct Hfr as (_ & _ & Hw' & Hwc' & Hwh' & Hwm' & Htk' & _).
  repeat split; congruence.
Qed.

(** C5, as the code has it.  With TrueType in use and the surface counter
    not zero, a key that both caches hold is no longer in the surface cache
    after [ttf_toggle_hinting]: its next surface lookup misses at the home
    slot and renders anew; the get-width cache is as it was, and the next
    width lookup is a hit on the same slot that returns the same width
    without a call to the font engine. *)
Theorem C5_toggle_invalidates_surfaces_only (E : FontEngine) (font : ptr)
    (text : list utf8) (st : TTFState) (ts tw : nat) :
  tables_sized st ->
  LocalisationService_UseTrueTypeFont st = true ->
  _ttfSurfaceCacheCount st <> 0 ->
  surface_probe font text st = ProbeHit ts ->
  getwidth_probe font text st = ProbeHit tw ->
  let st' := ttf_toggle_hinting st in
  let rs := ttf_surface_cache_get_or_add E font text st' in
  let rw := ttf_getwidth_cache_get_or_add E font text st' in
  Forall (fun e => surface_is_empty e = true) (_ttfSurfaceCache st') /\
  surface_probe font text st' = ProbeMiss (surface_home font text) /\
  render_calls (trace (snd rs)) = S (render_calls (trace st')) /\
  _ttfGetWidthCache st' = _ttfGetWidthCache st /\
  getwidth_probe font text st' = ProbeHit tw /\
  fst rw = fst (ttf_getwidth_cache_get_or_add E font text st) /\
  trace (snd rw) = trace st'.
Proof.
  intros [Hs Hw] Httf Hcount Hps Hpw st' rs rw.
  destruct (toggle_with_truetype st Httf Hcount Hs) as (Hc & Hwc & _ & _ & _ & Htk).
  fold st' in Hc, Hwc, Htk.
  assert (Hempty : Forall (fun e => surface_is_empty e = true) (_ttfSurfaceCache st')).
  { rewrite Hc. apply Forall_fmap, Forall_forall. intros e _. apply surface_disposed_empty. }
  assert (Hs' : length (_ttfSurfaceCache st') = TTF_SURFACE_CACHE_SIZE).
  { now rewrite Hc, length_fmap. }
  destruct (lookup_lt_is_Some_2 (_ttfSurfaceCache st') (surface_home font text)) as [e0 He0].
  { rewrite Hs'. apply surface_home_lt. }
  assert (Hp : surface_probe font text st' = ProbeMiss (surface_home font text)).
  { apply probe_home_empty with (e := e0); auto.
    - unfold TTF_SURFACE_CACHE_SIZE; lia.
    - rewrite Forall_forall in Hempty. apply Hempty, list_elem_of_lookup. eauto. }
  assert (Hpw' : getwidth_probe font text st' = ProbeHit tw).
  { unfold getwidth_probe. rewrite Hwc, Htk. exact Hpw. }
  split; [assumption|]. split; [assumption|]. split.
  { destruct (surface_miss_effects E font text st' _ e0 Hp He0) as (_ & (ev & Hev & Htr) & _).
    fold rs in Htr. rewrite Htr, render_calls_cons, Hev, render_calls_releases. reflexivity. }
  split; [assumption|]. split; [assumption|].
  destruct (getwidth_hit E font text st tw Hpw) as (e & He & _ & _ & Hr).
  destruct (getwidth_hit E font text st' tw Hpw') as (e' & He' & _ & _ & Hr').
  fold rw in Hr'. rewrite Hwc, He in He'. injection He' as <-.
  rewrite Hr, Hr'. split; reflexivity.
Qed.

Lemma one_key_state_sized : tables_sized one_key_state.
Proof. split; vm_compute; reflexivity. Qed.

Lemma C5_toggle_invalidates_surfaces_only_witness :
  surface_probe 4096 text_AA (ttf_toggle_hinting one_key_state)
    = ProbeMiss (surface_home 4096 text_AA) /\
  getwidth_probe 4096 text_AA (ttf_toggle_hinting one_key_state) = ProbeHit 78.
Proof.
  pose proof (C5_toggle_invalidates_surfaces_only sample_engine 4096 text_AA one_key_state
                78 78 one_key_state_sized eq_refl
                ltac:(vm_compute; discriminate)
                ltac:(vm_compute; reflexivity) ltac:(vm_compute; reflexivity)) as H.
  split; [exact (proj1 (proj2 H))|exact (proj1 (proj2 (proj2 (proj2 (proj2 H)))))].
Defined.

(** C5 as stated fails in a state in which the sprite font is in use: the
    toggle returns at once, the surface of AA stays cached, and the next
    surface lookup of AA is a hit that returns the surface rendered before
    the toggle, without a render. *)
Lemma C5_counterexample :
  let st := sprite_one_key_state in
  let st' := ttf_toggle_hinting st in
  let rs := ttf_surface_cache_get_or_add sample_engine 4096 text_AA st' in
  surface_probe 4096 text_AA st = ProbeHit 78 /\
  getwidth_probe 4096 text_AA st = ProbeHit 78 /\
  surface_probe 4096 text_AA st' = ProbeHit 78 /\
  (forall t, surface_probe 4096 text_AA st' <> ProbeMiss t) /\
  fst rs = fst (ttf_surface_cache_get_or_add sample_engine 4096 text_AA sprite_state) /\
  render_calls (trace (snd rs)) = render_calls (trace st).
Proof.
  intros st st' rs.
  assert (Hp : surface_probe 4096 text_AA st' = ProbeHit 78) by (vm_compute; reflexivity).
  split; [vm_compute; reflexivity|]. split; [vm_compute; reflexivity|].
  split; [exact Hp|]. split; [intros t; rewrite Hp; discriminate|].
  split; vm_compute; reflexivity.
Qed.

(** *** Lists of keys *)

Lemma same_key_insert {entry key : Type} (key_of : entry -> key) (cache : list entry) t e new :
  cache !! t = Some e -> key_of new = key_of e ->
  key_of <$> <[t := new]> cache = key_of <$> cache.
Proof.
  intros He Hk. rewrite list_fmap_insert, Hk. apply list_insert_id.
  now rewrite list_lookup_fmap, He.
Qed.

Lemma keys_unique_insert_none (keys : list (option (ptr * option (list utf8)))) t :
  keys_unique keys -> keys_unique (<[t := None]> keys).
Proof.
  intros Hu i j k Hi Hj.
  destruct (decide (i = t)) as [->|Hit].
  { pose proof (lookup_lt_Some _ _ _ Hi) as Hlt. rewrite length_insert in Hlt.
    rewrite list_lookup_insert_eq in Hi by assumption. discriminate. }
  destruct (decide (j = t)) as [->|Hjt].
  { pose proof (lookup_lt_Some _ _ _ Hj) as Hlt. rewrite length_insert in Hlt.
    rewrite list_lookup_insert_eq in Hj by assumption. discriminate. }
  rewrite list_lookup_insert_ne in Hi by congruence.
  rewrite list_lookup_insert_ne in Hj by congruence. eauto.
Qed.

Lemma keys_unique_insert_new (keys : list (option (ptr * option (list utf8)))) t k :
  keys_unique keys -> (forall j, keys !! j <> Some (Some k)) ->
  keys_unique (<[t := Some k]> keys).
Proof.
  intros Hu Hnew i j k' Hi Hj.
  destruct (decide (i = t)) as [->|Hit]; destruct (decide (j = t)) as [->|Hjt];
    [reflexivity| | |].
  - pose proof (lookup_lt_Some _ _ _ Hi) as Hlt. rewrite length_insert in Hlt.
    rewrite list_lookup_insert_eq in Hi by assumption. injection Hi as <-.
    rewrite list_lookup_insert_ne in Hj by congruence. now apply Hnew in Hj.
  - pose proof (lookup_lt_Some _ _ _ Hj) as Hlt. rewrite length_insert in Hlt.
    rewrite list_lookup_insert_eq in Hj by assumption. injection Hj as <-.
    rewrite list_lookup_insert_ne in Hi by congruence. now apply Hnew in Hi.
  - rewrite list_lookup_insert_ne in Hi by congruence.
    rewrite list_lookup_insert_ne in Hj by congruence. eauto.
Qed.

Lemma keys_unique_none (keys : list (option (ptr * option (list utf8)))) :
  (forall i k, keys !! i <> Some (Some k)) -> keys_unique keys.
Proof. intros Hnone i j k Hi _. now apply Hnone in Hi. Qed.

(** *** What a lookup in one cache leaves of the other *)

Lemma surface_home_c_str font text : surface_home font (c_str text) = surface_home font text.
Proof. unfold surface_home, ttf_surface_cache_hash. now rewrite hash_loop_c_str. Qed.

Lemma getwidth_home_c_str font text : getwidth_home font (c_str text) = getwidth_home font text.
Proof. unfold getwidth_home, ttf_surface_cache_hash. now rewrite hash_loop_c_str. Qed.

Lemma getwidth_dispose_all_frame st :
  _ttfSurfaceCache (ttf_getwidth_cache_dispose_all st) = _ttfSurfaceCache st.
Proof.
  unfold ttf_getwidth_cache_dispose_all. apply fold_left_preserves. intros s i. simpl.
  apply (getwidth_dispose_frame i s).
Qed.

Lemma getwidth_get_or_add_frame E font text st :
  _ttfSurfaceCache (snd (ttf_getwidth_cache_get_or_add E font text st)) = _ttfSurfaceCache st.
Proof.
  unfold ttf_getwidth_cache_get_or_add.
  destruct (getwidth_probe font text st) as [t|t].
  - destruct (_ttfGetWidthCache st !! t); reflexivity.
  - simpl. apply (getwidth_dispose_frame t st).
Qed.

Lemma surface_get_or_add_frame E font text st :
  _ttfGetWidthCache (snd (ttf_surface_cache_get_or_add E font text st)) = _ttfGetWidthCache st.
Proof.
  unfold ttf_surface_cache_get_or_add.
  destruct (surface_probe font text st) as [t|t] eqn:Hp.
  - destruct (_ttfSurfaceCache st !! t); reflexivity.
  - pose proof (ttf_render_frame E font text (ttf_surface_cache_dispose t st)) as Hr.
    pose proof (surface_dispose_frame t st) as Hd. simpl in Hd.
    destruct (ttf_render E font text (ttf_surface_cache_dispose t st)) as [s st2].
    simpl in Hr. destruct (s =? nullptr); simpl; intuition congruence.
Qed.

(** ** Further properties *)

(** *** A lookup after a store, and what a miss may replace *)

Lemma mod_add_inj (N a j k : nat) :
  (j < N)%nat -> (k < N)%nat -> ((a + j) mod N = (a + k) mod N)%nat -> j = k.
Proof.
  intros Hj Hk Heq.
  pose proof (Nat.div_mod_eq (a + j) N) as Ej.
  pose proof (Nat.div_mod_eq (a + k) N) as Ek.
  rewrite Heq in Ej.
  set (qj := ((a + j) / N)%nat) in *. set (qk := ((a + k) / N)%nat) in *.
  set (r := ((a + k) mod N)%nat) in *.
  destruct (Nat.lt_trichotomy qj qk) as [H|[H|H]]; nia.
Qed.

Lemma mod_add_reach (N a i : nat) :
  (a < N)%nat -> (i < N)%nat -> exists j, (j < N)%nat /\ ((a + j) mod N)%nat = i.
Proof.
  intros Ha Hi. destruct (Nat.le_gt_cases a i).
  - exists (i - a)%nat. split; [lia|]. replace (a + (i - a))%nat with i by lia.
    now apply Nat.mod_small.
  - exists (i + N - a)%nat. split; [lia|].
    replace (a + (i + N - a))%nat with (i + 1 * N)%nat by lia.
    rewrite Nat.Div0.mod_add. now apply Nat.mod_small.
Qed.

Section ProbeStore.
Context {entry : Type}.
Variable is_empty : entry -> bool.
Variable entry_font : entry -> ptr.
Variable entry_text : entry -> option (list utf8).
Variable entry_tick : entry -> Z.
Variable CACHE_SIZE : nat.
Variable cache : list entry.
Variable font : ptr.
Variable text : list utf8.
Variable tick : Z.

Hypothesis CACHE_SIZE_pos : (0 < CACHE_SIZE)%nat.
Hypothesis cache_length : length cache = CACHE_SIZE.

Local Abbreviation matches := (entry_matches entry_font entry_text font text).
Local Abbreviation stale := (entry_stale entry_tick tick).
Local Abbreviation skipped := (skipped is_empty entry_font entry_text entry_tick font text tick).
Local Abbreviation loop :=
  (probe_loop is_empty entry_font entry_text entry_tick CACHE_SIZE cache font text tick).

Lemma index_after_mod n :
  forall index, (index < CACHE_SIZE)%nat ->
  index_after CACHE_SIZE n index = ((index + n) mod CACHE_SIZE)%nat.
Proof.
  induction n as [|n IH]; intros index Hlt; simpl.
  - now rewrite Nat.add_0_r, Nat.mod_small.
  - rewrite IH by (apply (next_index_lt CACHE_SIZE cache); assumption).
    rewrite (next_index_mod CACHE_SIZE cache CACHE_SIZE_pos cache_length) by assumption.
    rewrite Nat.Div0.add_mod_idemp_l. f_equal. lia.
Qed.

(** Once slot [t] holds the key, a probe that ended on [t] before, and not
    merely by running out of iterations on it, ends on [t] with a hit. *)
Lemma probe_after_store_steps t e' n :
  forall index,
  (t < length cache)%nat ->
  is_empty e' = false -> matches e' = true ->
  index_after CACHE_SIZE n index <> t ->
  loop n index = ProbeMiss t \/ loop n index = ProbeHit t ->
  probe_loop is_empty entry_font entry_text entry_tick CACHE_SIZE
    (<[t := e']> cache) font text tick n index = ProbeHit t.
Proof.
  induction n as [|n IH]; intros index Ht Hocc Hm Hend Hres; simpl in *.
  - destruct Hres as [[= ->]|[=]]. contradiction.
  - destruct (decide (index = t)) as [->|Hne].
    + rewrite list_lookup_insert_eq by assumption. now rewrite Hocc, Hm.
    + rewrite list_lookup_insert_ne by congruence.
      destruct (cache !! index) as [e|]; [|destruct Hres as [[=]|[=]]; congruence].
      destruct (is_empty e); [destruct Hres as [[=]|[=]]; congruence|].
      destruct (matches e); [destruct Hres as [[=]|[=]]; congruence|].
      destruct (stale e); [destruct Hres as [[=]|[=]]; congruence|].
      now apply IH.
Qed.

Lemma probe_after_store t e' home :
  (home < CACHE_SIZE)%nat -> (t < CACHE_SIZE)%nat ->
  is_empty e' = false -> matches e' = true ->
  loop CACHE_SIZE home = ProbeMiss t \/ loop CACHE_SIZE home = ProbeHit t ->
  probe_loop is_empty entry_font entry_text entry_tick CACHE_SIZE
    (<[t := e']> cache) font text tick CACHE_SIZE home = ProbeHit t.
Proof.
  intros Hh Ht Hocc Hm Hres.
  destruct (decide (home = t)) as [->|Hne].
  - destruct CACHE_SIZE as [|n]; [lia|]. simpl.
    rewrite list_lookup_insert_eq by lia. now rewrite Hocc, Hm.
  - apply probe_after_store_steps; auto; [lia|].
    rewrite index_after_mod by assumption.
    rewrite full_round by assumption.
    assumption.
Qed.

(** A miss lands on an occupied slot that is not stale only when every
    slot of the table is occupied, fresh and holds another key; the slot
    is then the home slot. *)
Lemma fresh_target_full_table home t e :
  (home < CACHE_SIZE)%nat ->
  loop CACHE_SIZE home = ProbeMiss t ->
  cache !! t = Some e -> is_empty e = false -> stale e = false ->
  t = home /\ forall i, (i < CACHE_SIZE)%nat -> exists e', cache !! i = Some e' /\ skipped e'.
Proof.
  intros Hh Hp He Hocc Hfresh.
  destruct (probe_loop_contract is_empty entry_font entry_text entry_tick CACHE_SIZE
              cache font text tick CACHE_SIZE_pos cache_length home Hh)
    as (k & Hk & Hskip & Hend).
  rewrite Hp in Hend. destruct Hend as [(Hlt & e' & He' & Hstop)|[-> [= ->]]].
  - exfalso. inversion Hstop; subst; congruence.
  - split; [reflexivity|]. intros i Hi.
    destruct (mod_add_reach CACHE_SIZE home i Hh Hi) as (j & Hj & <-). now apply Hskip.
Qed.
End ProbeStore.

Lemma surface_probe_ext font text st st' :
  _ttfSurfaceCache st' = _ttfSurfaceCache st ->
  gCurrentDrawCount st' = gCurrentDrawCount st ->
  surface_probe font text st' = surface_probe font text st.
Proof. intros Hc Ht. unfold surface_probe. now rewrite Hc, Ht. Qed.

Lemma getwidth_probe_ext font text st st' :
  _ttfGetWidthCache st' = _ttfGetWidthCache st ->
  gCurrentDrawCount st' = gCurrentDrawCount st ->
  getwidth_probe font text st' = getwidth_probe font text st.
Proof. intros Hc Ht. unfold getwidth_probe. now rewrite Hc, Ht. Qed.

Lemma surface_probe_after_store font text st st' t e' :
  tables_sized st ->
  _ttfSurfaceCache st' = <[t := e']> (_ttfSurfaceCache st) ->
  gCurrentDrawCount st' = gCurrentDrawCount st ->
  sc_surface e' <> nullptr -> entry_matches sc_font sc_text font text e' = true ->
  surface_probe font text st = ProbeMiss t \/ surface_probe font text st = ProbeHit t ->
  surface_probe font text st' = ProbeHit t.
Proof.
  intros [Hs _] Hc Htk Hocc Hm Hres.
  pose proof (surface_probe_lt font text st Hs) as Hlt.
  unfold surface_probe. rewrite Hc, Htk.
  apply probe_after_store; auto.
  - unfold TTF_SURFACE_CACHE_SIZE; lia.
  - apply surface_home_lt.
  - destruct Hres as [H|H]; now rewrite H in Hlt.
  - unfold surface_is_empty. now apply Z.eqb_neq.
Qed.

Lemma getwidth_probe_after_store font text st st' t e' :
  tables_sized st ->
  _ttfGetWidthCache st' = <[t := e']> (_ttfGetWidthCache st) ->
  gCurrentDrawCount st' = gCurrentDrawCount st ->
  getwidth_is_empty e' = false -> entry_matches gw_font gw_text font text e' = true ->
  getwidth_probe font text st = ProbeMiss t \/ getwidth_probe font text st = ProbeHit t ->
  getwidth_probe font text st' = ProbeHit t.
Proof.
  intros [_ Hw] Hc Htk Hocc Hm Hres.
  pose proof (getwidth_probe_lt font text st Hw) as Hlt.
  unfold getwidth_probe. rewrite Hc, Htk.
  apply probe_after_store; auto.
  - unfold TTF_GETWIDTH_CACHE_SIZE; lia.
  - apply getwidth_home_lt.
  - destruct Hres as [H|H]; now rewrite H in Hlt.
Qed.

(** X1.  Whatever the surface table holds, a call of
    [ttf_surface_cache_get_or_add] that returned a surface is followed, when
    the same call is made again at once, by a hit that returns that very
    surface, adds one to the hit counter and makes no call to the font
    engine and no release. *)
Theorem X1_surface_lookup_after_store (E : FontEngine) (font : ptr) (text : list utf8)
    (st : TTFState) :
  tables_sized st ->
  let r1 := ttf_surface_cache_get_or_add E font text st in
  let r2 := ttf_surface_cache_get_or_add E font text (snd r1) in
  fst r1 <> nullptr ->
  (exists t, surface_probe font text (snd r1) = ProbeHit t) /\
  fst r2 = fst r1 /\
  trace (snd r2) = trace (snd r1) /\
  _ttfSurfaceCacheHitCount (snd r2) = wrap_int32 (_ttfSurfaceCacheHitCount (snd r1) + 1) /\
  _ttfSurfaceCacheMissCount (snd r2) = _ttfSurfaceCacheMissCount (snd r1).
Proof.
  intros Hsz r1 r2 Hok.
  assert (Hstore : exists t e',
             surface_probe font text (snd r1) = ProbeHit t /\
             _ttfSurfaceCache (snd r1) !! t = Some e' /\ sc_surface e' = fst r1).
  { destruct (surface_probe font text st) as [t|t] eqn:Hp.
    - destruct (surface_hit E font text st t Hp) as (e & He & Hocc & Hf & Ht & Hr).
      fold r1 in Hr.
      set (e' := {| sc_surface := sc_surface e; sc_font := sc_font e;
                    sc_text := sc_text e; sc_lastUseTick := gCurrentDrawCount st |}) in *.
      exists t, e'. rewrite Hr. simpl. split; [|split; [|reflexivity]].
      + apply (surface_probe_after_store font text st _ t e'); auto.
        apply entry_matches_true. auto.
      + apply list_lookup_insert_eq. now apply lookup_lt_Some in He.
    - destruct (surface_miss_slot font text st t Hsz Hp) as [e0 He0].
      destruct (surface_miss_effects E font text st t e0 Hp He0)
        as (_ & _ & Hc & _ & _ & _ & _ & _ & _ & _ & Htk & _).
      fold r1 in Hc, Htk. rewrite surface_slot_after_miss_ok in Hc by assumption.
      eexists t, _. split; [|split].
      + apply (surface_probe_after_store font text st _ t _ Hsz Hc Htk); auto.
        apply new_entry_matches.
      + rewrite Hc. apply list_lookup_insert_eq. now apply lookup_lt_Some in He0.
      + reflexivity. }
  destruct Hstore as (t & e' & Hp' & He' & Hs').
  split; [eauto|].
  destruct (surface_hit E font text (snd r1) t Hp') as (e & He & _ & _ & _ & Hr).
  fold r2 in Hr. rewrite He' in He. injection He as <-.
  rewrite Hr. simpl. auto.
Qed.

Lemma X1_surface_lookup_after_store_witness :
  let r1 := ttf_surface_cache_get_or_add sample_engine 4096 text_NB early_state in
  fst (ttf_surface_cache_get_or_add sample_engine 4096 text_NB (snd r1)) = fst r1.
Proof.
  exact (proj1 (proj2 (X1_surface_lookup_after_store sample_engine 4096 text_NB early_state
                         early_state_sized ltac:(vm_compute; discriminate)))).
Defined.

(** X2.  Whatever the get-width table holds, the width returned by
    [ttf_getwidth_cache_get_or_add] is returned again by the same call made
    at once, from a hit: the text is not measured a second time and nothing
    is released. *)
Theorem X2_width_lookup_after_store (E : FontEngine) (font : ptr) (text : list utf8)
    (st : TTFState) :
  tables_sized st ->
  let r1 := ttf_getwidth_cache_get_or_add E font text st in
  let r2 := ttf_getwidth_cache_get_or_add E font text (snd r1) in
  (exists t, getwidth_probe font text (snd r1) = ProbeHit t) /\
  fst r2 = fst r1 /\
  trace (snd r2) = trace (snd r1) /\
  _ttfGetWidthCacheHitCount (snd r2) = wrap_int32 (_ttfGetWidthCacheHitCount (snd r1) + 1) /\
  _ttfGetWidthCacheMissCount (snd r2) = _ttfGetWidthCacheMissCount (snd r1).
Proof.
  intros Hsz r1 r2.
  assert (Hstore : exists t e',
             getwidth_probe font text (snd r1) = ProbeHit t /\
             _ttfGetWidthCache (snd r1) !! t = Some e' /\ gw_width e' = fst r1).
  { destruct (getwidth_probe font text st) as [t|t] eqn:Hp.
    - destruct (getwidth_hit E font text st t Hp) as (e & He & Hf & Ht & Hr).
      fold r1 in Hr.
      destruct (probe_hit_inv _ _ _ _ _ _ _ _ _ _ _ _ Hp) as (e1 & He1 & Hocc & _).
      rewrite He in He1. injection He1 as <-.
      set (e' := {| gw_width := gw_width e; gw_font := gw_font e;
                    gw_text := gw_text e; gw_lastUseTick := gCurrentDrawCount st |}) in *.
      exists t, e'. rewrite Hr. simpl. split; [|split; [|reflexivity]].
      + apply (getwidth_probe_after_store font text st _ t e'); auto.
        apply entry_matches_true. auto.
      + apply list_lookup_insert_eq. now apply lookup_lt_Some in He.
    - pose proof (getwidth_miss_cache E font text st t Hp) as Hc. fold r1 in Hc.
      assert (Htk : gCurrentDrawCount (snd r1) = gCurrentDrawCount st).
      { subst r1. unfold ttf_getwidth_cache_get_or_add. rewrite Hp. simpl.
        apply (getwidth_dispose_frame t st). }
      assert (Hlt : (t < length (_ttfGetWidthCache st))%nat).
      { pose proof (getwidth_probe_lt font text st (proj2 Hsz)) as Hlt.
        rewrite Hp in Hlt. now rewrite (proj2 Hsz). }
      eexists t, _. split; [|split].
      + apply (getwidth_probe_after_store font text st _ t _ Hsz Hc Htk); auto.
        apply entry_matches_true. split; [reflexivity|].
        exists (c_str text). split; [reflexivity|]. apply strcmp_c_str_l, strcmp_refl.
      + rewrite Hc. now apply list_lookup_insert_eq.
      + reflexivity. }
  destruct Hstore as (t & e' & Hp' & He' & Hs').
  split; [eauto|].
  destruct (getwidth_hit E font text (snd r1) t Hp') as (e & He & _ & _ & Hr).
  fold r2 in Hr. rewrite He' in He. injection He as <-.
  rewrite Hr. simpl. auto.
Qed.

Lemma X2_width_lookup_after_store_witness :
  let r1 := ttf_getwidth_cache_get_or_add sample_engine 4096 text_NB one_key_state in
  fst (ttf_getwidth_cache_get_or_add sample_engine 4096 text_NB (snd r1)) = fst r1.
Proof.
  exact (proj1 (proj2 (X2_width_lookup_after_store sample_engine 4096 text_NB one_key_state
                         one_key_state_sized))).
Defined.

Lemma probe_no_match_misses {entry} (is_empty : entry -> bool) ef et etk N
    (cache : list entry) font text tick n :
  (forall i e, cache !! i = Some e -> is_empty e = false ->
               entry_matches ef et font text e = false) ->
  forall index, exists t, probe_loop is_empty ef et etk N cache font text tick n index = ProbeMiss t.
Proof.
  intros Hno. induction n as [|n IH]; intros index; simpl; [eauto|].
  destruct (cache !! index) as [e|] eqn:He; [|eauto].
  destruct (is_empty e) eqn:Hocc; [eauto|].
  rewrite (Hno index e He Hocc). destruct (entry_stale etk tick e); eauto.
Qed.

(** X3.  A key that no occupied slot holds (no slot with the same font
    handle and an equal text, as for a known text under another font) is a
    miss in either cache: the surface lookup calls the render exactly once,
    and the width lookup measures the text, stores the key in the target
    slot and returns the measured width cut to 32 bits. *)
Theorem X3_absent_key_misses (E : FontEngine) (font : ptr) (text : list utf8)
    (st : TTFState) :
  tables_sized st ->
  ((forall i e, _ttfSurfaceCache st !! i = Some e -> sc_surface e <> nullptr ->
      ~ (sc_font e = font /\ exists s, sc_text e = Some s /\ strcmp s text = 0)) ->
   (exists t, surface_probe font text st = ProbeMiss t) /\
   render_calls (trace (snd (ttf_surface_cache_get_or_add E font text st)))
     = S (render_calls (trace st))) /\
  ((forall i e, _ttfGetWidthCache st !! i = Some e -> gw_text e <> None ->
      ~ (gw_font e = font /\ exists s, gw_text e = Some s /\ strcmp s text = 0)) ->
   exists t e0,
     getwidth_probe font text st = ProbeMiss t /\
     _ttfGetWidthCache st !! t = Some e0 /\
     let r := ttf_getwidth_cache_get_or_add E font text st in
     fst r = wrap_uint32 (TTF_SizeUTF8 E (getwidth_releases e0 ++ trace st) font text) /\
     trace (snd r) = EvSizeUTF8 font text :: getwidth_releases e0 ++ trace st /\
     _ttfGetWidthCache (snd r) !! t =
       Some {| gw_width := fst r; gw_font := font; gw_text := Some (c_str text);
               gw_lastUseTick := gCurrentDrawCount st |}).
Proof.
  intros Hsz. split; intros Hno.
  - destruct (probe_no_match_misses surface_is_empty sc_font sc_text sc_lastUseTick
                TTF_SURFACE_CACHE_SIZE (_ttfSurfaceCache st) font text (gCurrentDrawCount st)
                TTF_SURFACE_CACHE_SIZE) with (index := surface_home font text) as [t Hp].
    { intros i e He Hocc. apply not_true_is_false. intros Hm%entry_matches_true.
      apply (Hno i e He); [|assumption]. unfold surface_is_empty in Hocc.
      now apply Z.eqb_neq. }
    fold (surface_probe font text st) in Hp. split; [eauto|].
    destruct (surface_miss_slot font text st t Hsz Hp) as [e0 He0].
    destruct (surface_miss_effects E font text st t e0 Hp He0) as (_ & (ev & Hev & Htr) & _).
    now rewrite Htr, render_calls_cons, Hev, render_calls_releases.
  - destruct (probe_no_match_misses getwidth_is_empty gw_font gw_text gw_lastUseTick
                TTF_GETWIDTH_CACHE_SIZE (_ttfGetWidthCache st) font text (gCurrentDrawCount st)
                TTF_GETWIDTH_CACHE_SIZE) with (index := getwidth_home font text) as [t Hp].
    { intros i e He Hocc. apply not_true_is_false. intros Hm%entry_matches_true.
      apply (Hno i e He); [|assumption]. unfold getwidth_is_empty in Hocc.
      destruct (gw_text e); [discriminate|discriminate]. }
    fold (getwidth_probe font text st) in Hp.
    destruct (lookup_lt_is_Some_2 (_ttfGetWidthCache st) t) as [e0 He0].
    { pose proof (getwidth_probe_lt font text st (proj2 Hsz)) as Hlt.
      rewrite Hp in Hlt. now rewrite (proj2 Hsz). }
    exists t, e0. split; [assumption|]. split; [assumption|].
    pose proof (getwidth_miss_cache E font text st t Hp) as Hc. cbv zeta in Hc.
    assert (Htr : trace (ttf_getwidth_cache_dispose t st) = getwidth_releases e0 ++ trace st).
    { now rewrite getwidth_dispose_trace, He0. }
    cbv zeta. rewrite Hc. unfold ttf_getwidth_cache_get_or_add. rewrite Hp. simpl.
    rewrite Htr. split; [reflexivity|]. split; [reflexivity|].
    apply list_lookup_insert_eq. now apply lookup_lt_Some in He0.
Qed.

Lemma one_key_other_font :
  forallb (fun e => surface_is_empty e || negb (entry_matches sc_font sc_text 4352 text_AA e))
    (_ttfSurfaceCache one_key_state) = true.
Proof. vm_compute; reflexivity. Qed.

Lemma X3_absent_key_misses_witness :
  exists t, surface_probe 4352 text_AA one_key_state = ProbeMiss t.
Proof.
  refine (proj1 (proj1 (X3_absent_key_misses sample_engine 4352 text_AA one_key_state
                          one_key_state_sized) _)).
  intros i e He Hocc Hm.
  pose proof (forallb_lookup _ _ i e one_key_other_font He) as Hb.
  apply orb_true_iff in Hb as [Hb|Hb].
  - unfold surface_is_empty in Hb. apply Z.eqb_eq in Hb. contradiction.
  - apply negb_true_iff in Hb. apply entry_matches_true in Hm. congruence.
Defined.

(** X4.  A miss replaces an occupied slot that is not stale only as the
    fallback of a full table: whenever the target of a miss is occupied and
    its [lastUseTick] is not below the threshold, the target is the home
    slot and every slot of the table is occupied, fresh and holds another
    key.  So a fresh entry is never replaced while the table has an empty
    or a stale slot on the probe path. *)
Theorem X4_fresh_entry_replaced_only_when_full (font : ptr) (text : list utf8)
    (st : TTFState) (t : nat) :
  tables_sized st ->
  (forall e,
     surface_probe font text st = ProbeMiss t ->
     _ttfSurfaceCache st !! t = Some e ->
     sc_surface e <> nullptr ->
     ~ sc_lastUseTick e < wrap_uint32 (gCurrentDrawCount st - 64) ->
     t = surface_home font text /\
     forall i, (i < 256)%nat ->
       exists e', _ttfSurfaceCache st !! i = Some e' /\
                  skipped surface_is_empty sc_font sc_text sc_lastUseTick
                    font text (gCurrentDrawCount st) e') /\
  (forall e,
     getwidth_probe font text st = ProbeMiss t ->
     _ttfGetWidthCache st !! t = Some e ->
     gw_text e <> None ->
     ~ gw_lastUseTick e < wrap_uint32 (gCurrentDrawCount st - 64) ->
     t = getwidth_home font text /\
     forall i, (i < 1024)%nat ->
       exists e', _ttfGetWidthCache st !! i = Some e' /\
                  skipped getwidth_is_empty gw_font gw_text gw_lastUseTick
                    font text (gCurrentDrawCount st) e').
Proof.
  intros [Hs Hw]. split; intros e Hp He Hocc Hfresh.
  - apply (fresh_target_full_table surface_is_empty sc_font sc_text sc_lastUseTick
             TTF_SURFACE_CACHE_SIZE (_ttfSurfaceCache st) font text (gCurrentDrawCount st))
      with (e := e); auto.
    + unfold TTF_SURFACE_CACHE_SIZE; lia.
    + apply surface_home_lt.
    + unfold surface_is_empty. now apply Z.eqb_neq.
    + unfold entry_stale. now apply Z.ltb_ge, Z.nlt_ge.
  - apply (fresh_target_full_table getwidth_is_empty gw_font gw_text gw_lastUseTick
             TTF_GETWIDTH_CACHE_SIZE (_ttfGetWidthCache st) font text (gCurrentDrawCount st))
      with (e := e); auto.
    + unfold TTF_GETWIDTH_CACHE_SIZE; lia.
    + apply getwidth_home_lt.
    + unfold getwidth_is_empty. destruct (gw_text e); [reflexivity|contradiction].
    + unfold entry_stale. now apply Z.ltb_ge, Z.nlt_ge.
Qed.

Lemma full_fresh_slot_199 :
  _ttfSurfaceCache full_fresh_state !! 199%nat
    = Some {| sc_surface := 9392; sc_font := 4096; sc_text := Some [69; 76];
              sc_lastUseTick := 100 |}.
Proof. vm_compute; reflexivity. Qed.

Lemma X4_fresh_entry_replaced_only_when_full_witness :
  199%nat = surface_home 4096 [90].
Proof.
  refine (proj1 (proj1 (X4_fresh_entry_replaced_only_when_full 4096 [90] full_fresh_state
                          199 full_fresh_sized) _ _ full_fresh_slot_199 _ _)).
  - vm_compute; reflexivity.
  - vm_compute; discriminate.
  - vm_compute; discriminate.
Defined.

(** *** What one operation does to a table *)

Lemma toggle_cases st :
  length (_ttfSurfaceCache st) = TTF_SURFACE_CACHE_SIZE ->
  let st' := ttf_toggle_hinting st in
  (_ttfSurfaceCache st' = _ttfSurfaceCache st
   \/ _ttfSurfaceCache st' = surface_disposed <$> _ttfSurfaceCache st) /\
  _ttfGetWidthCache st' = _ttfGetWidthCache st /\
  gCurrentDrawCount st' = gCurrentDrawCount st.
Proof.
  intros Hlen st'. subst st'. unfold ttf_toggle_hinting.
  destruct (LocalisationService_UseTrueTypeFont st); cbn [negb]; [|auto].
  pose proof (set_hinting_loop_frame (gCurrentTTFFontSet st) st) as Hf. cbv zeta in Hf.
  destruct Hf as (Hc & _ & _ & _ & Hw & _ & _ & _ & Htk).
  match goal with |- context [_ttfSurfaceCacheCount ?s] => set (st1 := s) in * end.
  destruct (_ttfSurfaceCacheCount st1 =? 0); cbn [negb]; [auto|].
  destruct (surface_dispose_all_spec st1) as (Hd & _ & _); [congruence|].
  pose proof (surface_dispose_all_frame st1) as Hfr. cbv zeta in Hfr.
  destruct Hfr as (_ & _ & Hw' & _ & _ & _ & Htk' & _).
  split; [right; congruence|]. split; congruence.
Qed.

Lemma getwidth_dispose_all_tick st :
  gCurrentDrawCount (ttf_getwidth_cache_dispose_all st) = gCurrentDrawCount st.
Proof.
  unfold ttf_getwidth_cache_dispose_all. apply fold_left_preserves. intros s i. simpl.
  apply (getwidth_dispose_frame i s).
Qed.

Lemma step_surface_cache E st op :
  tables_sized st ->
  surface_cache_change (gCurrentDrawCount st) (_ttfSurfaceCache st)
    (_ttfSurfaceCache (step E st op)).
Proof.
  intros Hsz. destruct op as [font text|font text| | | |]; cbn [step].
  - destruct (surface_probe font text st) as [t|t] eqn:Hp.
    + destruct (surface_hit E font text st t Hp) as (e & He & Hocc & _ & _ & Hr).
      rewrite Hr. simpl. now apply sc_stamped.
    + destruct (surface_miss_slot font text st t Hsz Hp) as [e0 He0].
      rewrite (surface_miss_cache E font text st t e0 Hp He0).
      unfold surface_slot_after_miss.
      destruct (Z.eqb_spec (fst (ttf_surface_cache_get_or_add E font text st)) nullptr).
      * now apply (sc_disposed _ _ t e0).
      * now apply sc_stored.
  - rewrite getwidth_get_or_add_frame. constructor.
  - destruct (surface_dispose_all_spec st (proj1 Hsz)) as (Hd & _ & _). rewrite Hd.
    apply sc_all_disposed.
  - rewrite getwidth_dispose_all_frame. constructor.
  - destruct (toggle_cases st (proj1 Hsz)) as ([Hc|Hc] & _); rewrite Hc; constructor.
  - constructor.
Qed.

Lemma step_getwidth_cache E st op :
  tables_sized st ->
  getwidth_cache_change (gCurrentDrawCount st) (_ttfGetWidthCache st)
    (_ttfGetWidthCache (step E st op)).
Proof.
  intros Hsz. destruct op as [font text|font text| | | |]; cbn [step].
  - rewrite surface_get_or_add_frame. constructor.
  - destruct (getwidth_probe font text st) as [t|t] eqn:Hp.
    + destruct (getwidth_hit E font text st t Hp) as (e & He & _ & (s & Hs & _) & Hr).
      rewrite Hr. simpl. apply gw_stamped; [assumption|congruence].
    + pose proof (getwidth_miss_cache E font text st t Hp) as Hc. cbv zeta in Hc.
      rewrite Hc. unfold ttf_getwidth_cache_get_or_add. rewrite Hp. simpl.
      apply gw_stored.
  - pose proof (surface_dispose_all_frame st) as Hf. cbv zeta in Hf.
    rewrite (proj1 (proj2 (proj2 Hf))). constructor.
  - destruct (getwidth_dispose_all_spec st (proj2 Hsz)) as (Hd & _ & _). rewrite Hd.
    apply gw_all_disposed.
  - destruct (toggle_cases st (proj1 Hsz)) as (_ & Hw & _). rewrite Hw. constructor.
  - constructor.
Qed.

Lemma step_tick E st op :
  tables_sized st ->
  gCurrentDrawCount (step E st op) =
    if is_frame op then wrap_uint32 (gCurrentDrawCount st + 1) else gCurrentDrawCount st.
Proof.
  intros Hsz. destruct op as [font text|font text| | | |]; cbn [step is_frame].
  - destruct (surface_probe font text st) as [t|t] eqn:Hp.
    + destruct (surface_hit E font text st t Hp) as (e & _ & _ & _ & _ & Hr). now rewrite Hr.
    + destruct (surface_miss_slot font text st t Hsz Hp) as [e0 He0].
      apply (surface_miss_effects E font text st t e0 Hp He0).
  - destruct (getwidth_probe font text st) as [t|t] eqn:Hp.
    + destruct (getwidth_hit E font text st t Hp) as (e & _ & _ & _ & Hr). now rewrite Hr.
    + unfold ttf_getwidth_cache_get_or_add. rewrite Hp. simpl.
      apply (getwidth_dispose_frame t st).
  - apply (surface_dispose_all_frame st).
  - apply getwidth_dispose_all_tick.
  - apply (toggle_cases st (proj1 Hsz)).
  - reflexivity.
Qed.

Lemma surface_change_length tick cache cache' :
  surface_cache_change tick cache cache' -> length cache' = length cache.
Proof. destruct 1; rewrite ?length_insert, ?length_fmap; reflexivity. Qed.

Lemma getwidth_change_length tick cache cache' :
  getwidth_cache_change tick cache cache' -> length cache' = length cache.
Proof. destruct 1; rewrite ?length_insert, ?length_fmap; reflexivity. Qed.

Lemma step_sized E st op : tables_sized st -> tables_sized (step E st op).
Proof.
  intros Hsz. split.
  - rewrite (surface_change_length _ _ _ (step_surface_cache E st op Hsz)). apply Hsz.
  - rewrite (getwidth_change_length _ _ _ (step_getwidth_cache E st op Hsz)). apply Hsz.
Qed.

Lemma run_sized E ops : forall st, tables_sized st -> tables_sized (run E ops st).
Proof.
  induction ops as [|op ops IH]; intros st Hsz; [assumption|].
  unfold run. simpl. apply IH. now apply step_sized.
Qed.

Lemma surface_change_Forall (P : ttf_cache_entry -> Prop) tick cache cache' :
  surface_cache_change tick cache cache' ->
  (forall e, P e -> P (surface_disposed e)) ->
  (forall e, P e -> sc_surface e <> nullptr ->
     P {| sc_surface := sc_surface e; sc_font := sc_font e; sc_text := sc_text e;
          sc_lastUseTick := tick |}) ->
  (forall surface font text, surface <> nullptr ->
     P {| sc_surface := surface; sc_font := font; sc_text := _strdup text;
          sc_lastUseTick := tick |}) ->
  Forall P cache -> Forall P cache'.
Proof.
  intros Hch Hd Hs Hn Hall. destruct Hch as [|t e He Hocc|t s f txt Hok|t e He|].
  - assumption.
  - apply Forall_insert; [assumption|]. apply Hs; [|assumption].
    eapply Forall_lookup_1; eauto.
  - apply Forall_insert; auto.
  - apply Forall_insert; [assumption|]. apply Hd. eapply Forall_lookup_1; eauto.
  - apply Forall_fmap. eapply Forall_impl; [exact Hall|]. intros e He. now apply Hd.
Qed.

Lemma getwidth_change_Forall (P : ttf_getwidth_cache_entry -> Prop) tick cache cache' :
  getwidth_cache_change tick cache cache' ->
  (forall e, P e -> P (getwidth_disposed e)) ->
  (forall e, P e -> gw_text e <> None ->
     P {| gw_width := gw_width e; gw_font := gw_font e; gw_text := gw_text e;
          gw_lastUseTick := tick |}) ->
  (forall width font text,
     P {| gw_width := wrap_uint32 width; gw_font := font; gw_text := _strdup text;
          gw_lastUseTick := tick |}) ->
  Forall P cache -> Forall P cache'.
Proof.
  intros Hch Hd Hs Hn Hall. destruct Hch as [|t e He Hocc|t w f txt|].
  - assumption.
  - apply Forall_insert; [assumption|]. apply Hs; [|assumption].
    eapply Forall_lookup_1; eauto.
  - apply Forall_insert; auto.
  - apply Forall_fmap. eapply Forall_impl; [exact Hall|]. intros e He. now apply Hd.
Qed.

(** *** Invariants of runs *)

Lemma step_shaped E st op : tables_sized st -> slots_shaped st -> slots_shaped (step E st op).
Proof.
  intros Hsz [Hs Hw]. split.
  - apply (surface_change_Forall _ _ _ _ (step_surface_cache E st op Hsz)); [| | |assumption].
    + intros e He. unfold surface_disposed, surface_is_empty.
      destruct (Z.eqb_spec (sc_surface e) nullptr); [assumption|]. left. auto.
    + intros e [(H & _)|He] Hocc; [contradiction|]. right. exact He.
    + intros s f t Hok. right. split; [assumption|].
      exists (c_str t). split; [reflexivity|apply c_str_nul_free].
  - apply (getwidth_change_Forall _ _ _ _ (step_getwidth_cache E st op Hsz)); [| | |assumption].
    + intros e He. unfold getwidth_disposed, getwidth_is_empty.
      destruct (gw_text e); [|assumption]. left. auto.
    + intros e [(H & _)|He] Hocc; [contradiction|]. right. exact He.
    + intros w f t. right. split; [apply wrap_uint32_range|].
      exists (c_str t). split; [reflexivity|apply c_str_nul_free].
Qed.

Lemma initial_state_shaped use_ttf hint fonts : slots_shaped (initial_state use_ttf hint fonts).
Proof.
  split; apply Forall_forall; intros e He; apply elem_of_replicate in He as [-> _];
    left; auto.
Qed.

Lemma run_shaped E ops :
  forall st, tables_sized st -> slots_shaped st -> slots_shaped (run E ops st).
Proof.
  induction ops as [|op ops IH]; intros st Hsz Hsh; [assumption|].
  unfold run. simpl. apply IH; [now apply step_sized|now apply step_shaped].
Qed.

(** X5.  In every state reached from the initial state a slot of the
    surface table whose surface is null has a null font and a null text as
    well: the store of a miss comes after the test of the rendered surface,
    and the disposal clears the three fields together.  So the guard of
    [ttf_surface_cache_dispose], which looks at the surface only, never
    skips a slot that owns a text: disposing of a slot with a text frees
    that text and the surface. *)
Theorem X5_empty_surface_slot_owns_nothing (E : FontEngine) (ops : list operation)
    (use_ttf enable_hinting : bool) (fonts : list TTFFontDescriptor) :
  let st := run E ops (initial_state use_ttf enable_hinting fonts) in
  forall i e, _ttfSurfaceCache st !! i = Some e ->
    (sc_surface e = nullptr -> sc_font e = nullptr /\ sc_text e = None) /\
    (sc_text e <> None ->
     trace (ttf_surface_cache_dispose i st)
     = EvFreeText (sc_text e) :: EvFreeSurface (sc_surface e) :: trace st).
Proof.
  intros st i e He.
  pose proof (run_shaped E ops _ (initial_state_sized use_ttf enable_hinting fonts)
                (initial_state_shaped use_ttf enable_hinting fonts)) as [Hs _].
  fold st in Hs.
  pose proof (Forall_lookup_1 _ _ _ _ Hs He) as [(Hnull & Hf & Ht)|(Hocc & _)].
  - split; [auto|]. intros Htext. congruence.
  - split; [intros Hnull; contradiction|]. intros _.
    unfold ttf_surface_cache_dispose. rewrite He.
    destruct (Z.eqb_spec (sc_surface e) nullptr) as [Hnull|_]; [contradiction|].
    reflexivity.
Qed.

Lemma X5_empty_surface_slot_owns_nothing_witness :
  let st := run sample_engine [GetOrAddSurface 4096 text_AA]
              (initial_state true true sample_fonts) in
  trace (ttf_surface_cache_dispose 78 st)
  = EvFreeText (Some text_AA) :: EvFreeSurface 8192 :: trace st.
Proof.
  refine (proj2 (X5_empty_surface_slot_owns_nothing sample_engine
                   [GetOrAddSurface 4096 text_AA] true true sample_fonts 78%nat
                   {| sc_surface := 8192; sc_font := 4096; sc_text := Some text_AA;
                      sc_lastUseTick := 0 |} _) _).
  - vm_compute. reflexivity.
  - discriminate.
Defined.

Lemma frames_cons op ops : frames (op :: ops) = (if is_frame op then 1 else 0) + frames ops.
Proof. unfold frames. simpl. destruct (is_frame op); simpl; lia. Qed.

Lemma frames_nonneg ops : 0 <= frames ops.
Proof. unfold frames. lia. Qed.

Lemma step_stamps E st op :
  tables_sized st -> 0 <= gCurrentDrawCount st ->
  gCurrentDrawCount st + (if is_frame op then 1 else 0) < 2 ^ 32 ->
  stamps_in_past st ->
  gCurrentDrawCount (step E st op) = gCurrentDrawCount st + (if is_frame op then 1 else 0)
  /\ stamps_in_past (step E st op).
Proof.
  intros Hsz Hpos Hlim [Hs Hw].
  assert (Htk : gCurrentDrawCount (step E st op)
                = gCurrentDrawCount st + (if is_frame op then 1 else 0)).
  { rewrite step_tick by assumption. destruct (is_frame op); [|lia].
    apply wrap_uint32_small. lia. }
  split; [assumption|]. split.
  - assert (H : Forall (fun e => 0 <= sc_lastUseTick e <= gCurrentDrawCount st)
                  (_ttfSurfaceCache (step E st op))).
    { apply (surface_change_Forall _ _ _ _ (step_surface_cache E st op Hsz));
        [| | |assumption].
      - intros e He. unfold surface_disposed. destruct (surface_is_empty e); assumption.
      - simpl. intros. lia.
      - simpl. intros. lia. }
    eapply Forall_impl; [exact H|]. simpl. intros e He. rewrite Htk.
    destruct (is_frame op); lia.
  - assert (H : Forall (fun e => 0 <= gw_lastUseTick e <= gCurrentDrawCount st)
                  (_ttfGetWidthCache (step E st op))).
    { apply (getwidth_change_Forall _ _ _ _ (step_getwidth_cache E st op Hsz));
        [| | |assumption].
      - intros e He. unfold getwidth_disposed. destruct (getwidth_is_empty e); assumption.
      - simpl. intros. lia.
      - simpl. intros. lia. }
    eapply Forall_impl; [exact H|]. simpl. intros e He. rewrite Htk.
    destruct (is_frame op); lia.
Qed.

Lemma run_stamps E ops :
  forall st, tables_sized st -> 0 <= gCurrentDrawCount st ->
  gCurrentDrawCount st + frames ops < 2 ^ 32 ->
  stamps_in_past st ->
  gCurrentDrawCount (run E ops st) = gCurrentDrawCount st + frames ops
  /\ stamps_in_past (run E ops st).
Proof.
  induction ops as [|op ops IH]; intros st Hsz Hpos Hlim Hst.
  - unfold frames. simpl. split; [lia|assumption].
  - rewrite frames_cons in Hlim. pose proof (frames_nonneg ops) as Hf.
    destruct (step_stamps E st op Hsz Hpos) as [Htk Hst']; [|assumption|].
    { destruct (is_frame op); lia. }
    unfold run. simpl.
    destruct (IH (step E st op)) as [Htk' Hst'']; auto using step_sized.
    + rewrite Htk. destruct (is_frame op); lia.
    + rewrite Htk. lia.
    + split; [|assumption]. unfold run in Htk'. rewrite Htk', Htk, frames_cons. lia.
Qed.

Lemma initial_state_stamps use_ttf hint fonts : stamps_in_past (initial_state use_ttf hint fonts).
Proof.
  split; apply Forall_forall; intros e He; apply elem_of_replicate in He as [-> _];
    simpl; lia.
Qed.

(** X6.  In a run from the initial state with fewer than 2^32 frames the
    drawing counter equals the number of frames drawn, and no slot of
    either table carries a [lastUseTick] beyond it: the stamps only ever
    come from the counter, which the caches read and never advance. *)
Theorem X6_stamps_never_ahead_of_tick (E : FontEngine) (ops : list operation)
    (use_ttf enable_hinting : bool) (fonts : list TTFFontDescriptor) :
  frames ops < 2 ^ 32 ->
  let st := run E ops (initial_state use_ttf enable_hinting fonts) in
  gCurrentDrawCount st = frames ops /\ stamps_in_past st.
Proof.
  intros Hlim st.
  destruct (run_stamps E ops (initial_state use_ttf enable_hinting fonts)) as [Htk Hst].
  - apply initial_state_sized.
  - simpl. lia.
  - simpl. lia.
  - apply initial_state_stamps.
  - split; [exact Htk|exact Hst].
Qed.

Lemma X6_stamps_never_ahead_of_tick_witness :
  gCurrentDrawCount (run sample_engine no_replacement_ops sample_state)
    = frames no_replacement_ops.
Proof.
  exact (proj1 (X6_stamps_never_ahead_of_tick sample_engine no_replacement_ops
                  true true sample_fonts ltac:(vm_compute; reflexivity))).
Defined.


Lemma home_only_probe {entry} (is_empty : entry -> bool) ef et (etk : entry -> Z) N
    (cache : list entry) font text tick home :
  (0 < N)%nat -> length cache = N -> (home < N)%nat ->
  0 <= tick < 64 ->
  Forall (fun e => 0 <= etk e <= tick) cache ->
  probe_loop is_empty ef et etk N cache font text tick N home = ProbeHit home
  \/ probe_loop is_empty ef et etk N cache font text tick N home = ProbeMiss home.
Proof.
  intros HN Hlen Hh Htick Hst.
  destruct (lookup_lt_is_Some_2 cache home) as [e He]; [lia|].
  pose proof (Forall_lookup_1 _ _ _ _ Hst He) as Hstamp. simpl in Hstamp.
  destruct (is_empty e) eqn:Hocc.
  { right. now apply probe_home_empty with (e := e). }
  destruct (entry_matches ef et font text e) eqn:Hm.
  { left. now apply probe_home_hit with (e := e). }
  right. apply probe_home_stale with (e := e); auto.
  unfold entry_stale. rewrite wrapped_threshold by assumption. apply Z.ltb_lt. lia.
Qed.

(** X7.  During the first 64 frames of a run from the initial state no
    lookup probes beyond its home slot: the home slot is empty (a miss
    there), holds the key (a hit there), or holds another key, which the
    wrapped threshold makes stale (a miss there too). *)
Theorem X7_no_probing_in_first_64_frames (E : FontEngine) (ops : list operation)
    (use_ttf enable_hinting : bool) (fonts : list TTFFontDescriptor)
    (font : ptr) (text : list utf8) :
  frames ops < 64 ->
  let st := run E ops (initial_state use_ttf enable_hinting fonts) in
  (surface_probe font text st = ProbeHit (surface_home font text)
   \/ surface_probe font text st = ProbeMiss (surface_home font text)) /\
  (getwidth_probe font text st = ProbeHit (getwidth_home font text)
   \/ getwidth_probe font text st = ProbeMiss (getwidth_home font text)).
Proof.
  intros Hlim st.
  pose proof (frames_nonneg ops) as Hpos.
  destruct (run_stamps E ops (initial_state use_ttf enable_hinting fonts)) as [Htk [Hs Hw]].
  { apply initial_state_sized. } { simpl; lia. } { simpl; lia. }
  { apply initial_state_stamps. }
  fold st in Htk, Hs, Hw. simpl in Htk.
  destruct (run_sized E ops _ (initial_state_sized use_ttf enable_hinting fonts)) as [Hls Hlw].
  fold st in Hls, Hlw.
  split.
  - apply home_only_probe; auto.
    + unfold TTF_SURFACE_CACHE_SIZE; lia.
    + apply surface_home_lt.
    + lia.
  - apply home_only_probe; auto.
    + unfold TTF_GETWIDTH_CACHE_SIZE; lia.
    + apply getwidth_home_lt.
    + lia.
Qed.

Lemma X7_no_probing_in_first_64_frames_witness :
  let st := run sample_engine
              [DrawFrame; GetOrAddSurface 4096 text_AA; DrawFrame] sample_state in
  surface_probe 4096 text_NB st = ProbeHit (surface_home 4096 text_NB)
  \/ surface_probe 4096 text_NB st = ProbeMiss (surface_home 4096 text_NB).
Proof.
  exact (proj1 (X7_no_probing_in_first_64_frames sample_engine
                  [DrawFrame; GetOrAddSurface 4096 text_AA; DrawFrame]
                  true true sample_fonts 4096 text_NB ltac:(vm_compute; reflexivity))).
Defined.

(** *** Disposing of a table twice *)

Lemma surface_disposed_idem e : surface_disposed (surface_disposed e) = surface_disposed e.
Proof.
  unfold surface_disposed at 1. now rewrite surface_disposed_empty.
Qed.

Lemma getwidth_disposed_idem e : getwidth_disposed (getwidth_disposed e) = getwidth_disposed e.
Proof.
  unfold getwidth_disposed at 1. now rewrite getwidth_disposed_empty.
Qed.

Lemma releases_of_disposed_surface (l : list ttf_cache_entry) :
  flat_map surface_releases (reverse (surface_disposed <$> l)) = [].
Proof.
  rewrite <- fmap_reverse. induction (reverse l) as [|e l' IH]; [reflexivity|].
  simpl. unfold surface_releases at 1. now rewrite surface_disposed_empty.
Qed.

Lemma releases_of_disposed_getwidth (l : list ttf_getwidth_cache_entry) :
  flat_map getwidth_releases (reverse (getwidth_disposed <$> l)) = [].
Proof.
  rewrite <- fmap_reverse. induction (reverse l) as [|e l' IH]; [reflexivity|].
  simpl. unfold getwidth_releases at 1. now rewrite getwidth_disposed_empty.
Qed.

(** X8.  Disposing of a whole table twice in a row is safe: the second
    [ttf_surface_cache_dispose_all] (or [ttf_getwidth_cache_dispose_all])
    finds every slot empty, releases nothing and leaves the table as the
    first one left it, every slot empty; only the counter moves, down by
    the table size once more. *)
Theorem X8_dispose_all_twice (st : TTFState) :
  tables_sized st ->
  (let s1 := ttf_surface_cache_dispose_all st in
   let s2 := ttf_surface_cache_dispose_all s1 in
   _ttfSurfaceCache s2 = _ttfSurfaceCache s1 /\
   Forall (fun e => surface_is_empty e = true) (_ttfSurfaceCache s2) /\
   trace s2 = trace s1 /\
   _ttfSurfaceCacheCount s2 = wrap_int32 (_ttfSurfaceCacheCount st - 512)) /\
  (let s1 := ttf_getwidth_cache_dispose_all st in
   let s2 := ttf_getwidth_cache_dispose_all s1 in
   _ttfGetWidthCache s2 = _ttfGetWidthCache s1 /\
   Forall (fun e => getwidth_is_empty e = true) (_ttfGetWidthCache s2) /\
   trace s2 = trace s1 /\
   _ttfGetWidthCacheCount s2 = wrap_int32 (_ttfGetWidthCacheCount st - 2048)).
Proof.
  intros [Hs Hw]. split; intros s1 s2.
  - destruct (surface_dispose_all_spec st Hs) as (Hc1 & _ & Hn1). fold s1 in Hc1, Hn1.
    destruct (surface_dispose_all_spec s1) as (Hc2 & Ht2 & Hn2).
    { now rewrite Hc1, length_fmap. }
    fold s2 in Hc2, Ht2, Hn2.
    assert (Hc : _ttfSurfaceCache s2 = _ttfSurfaceCache s1).
    { rewrite Hc2, Hc1, <- list_fmap_compose. apply list_fmap_ext.
      intros i e _. apply surface_disposed_idem. }
    split; [assumption|]. split.
    { rewrite Hc, Hc1. apply Forall_fmap, Forall_forall. intros e _.
      apply surface_disposed_empty. }
    split.
    { rewrite Ht2, Hc1. now rewrite releases_of_disposed_surface. }
    rewrite Hn2, Hn1, <- Z.add_opp_r, wrap_int32_idem. f_equal. lia.
  - destruct (getwidth_dispose_all_spec st Hw) as (Hc1 & _ & Hn1). fold s1 in Hc1, Hn1.
    destruct (getwidth_dispose_all_spec s1) as (Hc2 & Ht2 & Hn2).
    { now rewrite Hc1, length_fmap. }
    fold s2 in Hc2, Ht2, Hn2.
    assert (Hc : _ttfGetWidthCache s2 = _ttfGetWidthCache s1).
    { rewrite Hc2, Hc1, <- list_fmap_compose. apply list_fmap_ext.
      intros i e _. apply getwidth_disposed_idem. }
    split; [assumption|]. split.
    { rewrite Hc, Hc1. apply Forall_fmap, Forall_forall. intros e _.
      apply getwidth_disposed_empty. }
    split.
    { rewrite Ht2, Hc1. now rewrite releases_of_disposed_getwidth. }
    rewrite Hn2, Hn1, <- Z.add_opp_r, wrap_int32_idem. f_equal. lia.
Qed.

Lemma X8_dispose_all_twice_witness :
  trace (ttf_surface_cache_dispose_all (ttf_surface_cache_dispose_all one_key_state))
    = trace (ttf_surface_cache_dispose_all one_key_state).
Proof.
  exact (proj1 (proj2 (proj2 (proj1 (X8_dispose_all_twice one_key_state one_key_state_sized))))).
Defined.

(** *** The hinting flags after a toggle *)

Lemma set_hinting_loop_flags (fonts : list TTFFontDescriptor) :
  forall st,
  let st' :=
    fold_left
      (fun st fontDesc =>
         let use_hinting :=
           gConfigFonts_enable_hinting st
           && negb (fd_hinting_threshold fontDesc =? 0) in
         TTF_SetFontHinting (fd_font fontDesc) (if use_hinting then 1 else 0) st)
      fonts st in
  gConfigFonts_enable_hinting st' = gConfigFonts_enable_hinting st /\
  (forall f, f ∉ fd_font <$> fonts -> fontHinting st' !! f = fontHinting st !! f) /\
  (NoDup (fd_font <$> fonts) ->
   forall d, d ∈ fonts -> fontHinting st' !! fd_font d = Some (use_hinting st d)).
Proof.
  induction fonts as [|d0 fonts IH]; intros st; simpl.
  - split; [reflexivity|]. split; [reflexivity|]. intros _ d Hd. inversion Hd.
  - match goal with |- context [fold_left _ fonts ?s] => set (st1 := s) end.
    destruct (IH st1) as (Hcfg & Hout & Hin). cbv zeta in *.
    assert (Hcfg1 : gConfigFonts_enable_hinting st1 = gConfigFonts_enable_hinting st)
      by reflexivity.
    assert (Hm1 : fontHinting st1 = <[fd_font d0 := use_hinting st d0]> (fontHinting st))
      by reflexivity.
    split; [congruence|]. split.
    + intros f Hf. rewrite ?fmap_cons in Hf. apply not_elem_of_cons in Hf. destruct Hf as [Hne Hf].
      rewrite (Hout f Hf), Hm1. now apply lookup_insert_ne.
    + intros Hnd d Hd. rewrite ?fmap_cons in Hnd. apply NoDup_cons in Hnd as [Hnotin Hnd].
      apply elem_of_cons in Hd as [->|Hd].
      * rewrite (Hout _ Hnotin), Hm1. apply lookup_insert_eq.
      * rewrite (Hin Hnd d Hd). unfold use_hinting. now rewrite Hcfg1.
Qed.

Lemma toggle_font_hinting st :
  LocalisationService_UseTrueTypeFont st = true ->
  fontHinting (ttf_toggle_hinting st) =
    fontHinting
      (fold_left
         (fun st fontDesc =>
            let use_hinting :=
              gConfigFonts_enable_hinting st
              && negb (fd_hinting_threshold fontDesc =? 0) in
            TTF_SetFontHinting (fd_font fontDesc) (if use_hinting then 1 else 0) st)
         (gCurrentTTFFontSet st) st).
Proof.
  intros Httf. unfold ttf_toggle_hinting. rewrite Httf. cbn [negb].
  match goal with |- context [_ttfSurfaceCacheCount ?s] => set (st1 := s) in * end.
  destruct (_ttfSurfaceCacheCount st1 =? 0); cbn [negb]; [reflexivity|].
  apply (surface_dispose_all_frame st1).
Qed.

(** X9.  With TrueType in use and the fonts of the size classes distinct,
    [ttf_toggle_hinting] leaves each font of the set with the hinting flag
    [gConfigFonts.enable_hinting && hinting_threshold] of its size class
    and every other font with the flag it had; the next [ttf_render] with
    a font of the set is therefore the shaded render when that flag is
    set and the solid render when it is not. *)
Theorem X9_toggle_hinting_sets_render_mode (E : FontEngine) (st : TTFState) :
  LocalisationService_UseTrueTypeFont st = true ->
  NoDup (fd_font <$> gCurrentTTFFontSet st) ->
  let st' := ttf_toggle_hinting st in
  (forall d, d ∈ gCurrentTTFFontSet st ->
     TTF_GetFontHinting (fd_font d) st' = use_hinting st d) /\
  (forall f, f ∉ fd_font <$> gCurrentTTFFontSet st ->
     TTF_GetFontHinting f st' = TTF_GetFontHinting f st) /\
  (forall d text, d ∈ gCurrentTTFFontSet st ->
     ttf_render E (fd_font d) text st' =
       if gConfigFonts_enable_hinting st && negb (fd_hinting_threshold d =? 0)
       then (TTF_RenderUTF8_Shaded E (trace st') (fd_font d) text,
             log_event (EvRenderShaded (fd_font d) text) st')
       else (TTF_RenderUTF8_Solid E (trace st') (fd_font d) text,
             log_event (EvRenderSolid (fd_font d) text) st')).
Proof.
  intros Httf Hnd st'.
  destruct (set_hinting_loop_flags (gCurrentTTFFontSet st) st) as (_ & Hout & Hin).
  cbv zeta in Hout, Hin.
  pose proof (toggle_font_hinting st Httf) as Hfh. cbv zeta in Hfh. fold st' in Hfh.
  assert (Hflag : forall d, d ∈ gCurrentTTFFontSet st ->
            TTF_GetFontHinting (fd_font d) st' = use_hinting st d).
  { intros d Hd. unfold TTF_GetFontHinting. now rewrite Hfh, (Hin Hnd d Hd). }
  split; [exact Hflag|]. split.
  - intros f Hf. unfold TTF_GetFontHinting. now rewrite Hfh, (Hout f Hf).
  - intros d text Hd. unfold ttf_render. rewrite (Hflag d Hd). unfold use_hinting.
    destruct (gConfigFonts_enable_hinting st && negb (fd_hinting_threshold d =? 0));
      reflexivity.
Qed.

Lemma X9_toggle_hinting_sets_render_mode_witness :
  TTF_GetFontHinting 4352 (ttf_toggle_hinting one_key_state) = 1.
Proof.
  refine (proj1 (X9_toggle_hinting_sets_render_mode sample_engine one_key_state eq_refl _)
            {| fd_hinting_threshold := 60; fd_font := 4352 |} _).
  - repeat (apply NoDup_cons; split; [vm_compute; set_solver|]). apply NoDup_nil_2.
  - change (gCurrentTTFFontSet one_key_state) with sample_fonts. unfold sample_fonts.
    set_solver.
Defined.

(** *** Collisions of the key hash *)

Lemma lxor_mod_uint32 x a :
  Z.lxor x a mod 2 ^ 32 = Z.lxor (x mod 2 ^ 32) (a mod 2 ^ 32).
Proof.
  apply Z.bits_inj'. intros i Hi. destruct (Z.lt_ge_cases i 32).
  - rewrite Z.lxor_spec, !Z.mod_pow2_bits_low, Z.lxor_spec by lia. reflexivity.
  - rewrite Z.lxor_spec, !Z.mod_pow2_bits_high by lia. reflexivity.
Qed.

Lemma hash_seed_low_bits font :
  hash_seed font = Z.lxor ((font * 23) mod 2 ^ 32) 0xAAAAAAAA.
Proof.
  unfold hash_seed. change 0xFFFFFFFF with (Z.ones 32).
  rewrite Z.land_ones, lxor_mod_uint32 by lia. f_equal.
  apply Z.mod_mod_divide. exists (2 ^ 32). reflexivity.
Qed.

Lemma times_23_mod_inj f1 f2 :
  (f1 * 23) mod 2 ^ 32 = (f2 * 23) mod 2 ^ 32 <-> f1 mod 2 ^ 32 = f2 mod 2 ^ 32.
Proof.
  split; intros H.
  - assert (Hinv : forall f, f mod 2 ^ 32 = ((f * 23) mod 2 ^ 32 * 3921491879) mod 2 ^ 32).
    { intros f. rewrite Z.mul_mod_idemp_l by lia.
      rewrite <- Z.mul_assoc. change (23 * 3921491879) with (1 + 21 * 2 ^ 32).
      rewrite Z.mul_add_distr_l, Z.mul_1_r, Z.mul_assoc, Z.mod_add by lia. reflexivity. }
    now rewrite (Hinv f1), (Hinv f2), H.
  - rewrite <- (Z.mul_mod_idemp_l f1), <- (Z.mul_mod_idemp_l f2) by lia. now rewrite H.
Qed.

(** X10.  Two font handles give the same hash on a text exactly when their
    addresses agree in the low 32 bits, whatever the text: the seed keeps
    the low 32 bits of the address times 23, and the rest of the hash is a
    bijection of the seed.  Fonts with different low halves never collide
    on equal text; fonts 2^32 apart collide on every text. *)
Theorem X10_fonts_collide_iff_low_32_bits_agree (font1 font2 : ptr) (text : list utf8) :
  ttf_surface_cache_hash font1 text = ttf_surface_cache_hash font2 text
  <-> font1 mod 2 ^ 32 = font2 mod 2 ^ 32.
Proof.
  rewrite <- times_23_mod_inj. unfold ttf_surface_cache_hash.
  rewrite <- (hash_loop_c_str text (hash_seed font1)), <- (hash_loop_c_str text (hash_seed font2)).
  split; intros H.
  - apply hash_loop_inj in H; auto using hash_seed_range, c_str_nul_free.
    rewrite !hash_seed_low_bits in H. now apply lxor_cancel_r in H.
  - rewrite !hash_seed_low_bits, H. reflexivity.
Qed.

(** X11.  Appending the same text to two texts neither creates nor removes
    a collision under a font: every further char acts on the accumulator
    by a bijection, so two C strings followed by a common suffix hash alike
    exactly when they hash alike without it. *)
Theorem X11_common_suffix_keeps_collisions (font : ptr) (a b suffix : list utf8) :
  nul_free a -> nul_free b -> nul_free suffix ->
  (ttf_surface_cache_hash font (a ++ suffix) = ttf_surface_cache_hash font (b ++ suffix)
   <-> ttf_surface_cache_hash font a = ttf_surface_cache_hash font b).
Proof.
  intros Ha Hb Hs. unfold ttf_surface_cache_hash.
  rewrite !hash_loop_app by assumption. split; intros H.
  - apply hash_loop_inj in H; auto using hash_loop_range, hash_seed_range.
  - now rewrite H.
Qed.

Lemma X11_common_suffix_keeps_collisions_witness :
  ttf_surface_cache_hash 4096 ([65] ++ [66; 67]) = ttf_surface_cache_hash 4096 ([68] ++ [66; 67])
  <-> ttf_surface_cache_hash 4096 [65] = ttf_surface_cache_hash 4096 [68].
Proof.
  apply (X11_common_suffix_keeps_collisions 4096 [65] [68] [66; 67]);
    repeat constructor; discriminate.
Defined.

(** *** Start and shutdown *)

Lemma initialise_fonts_spec L todo :
  forall i sys,
  let r := ttf_initialise_fonts L todo i sys in
  let fonts := gCurrentTTFFontSet (ttf_state sys) in
  let fonts' := gCurrentTTFFontSet (ttf_state (snd r)) in
  _ttfInitialised (snd r) = _ttfInitialised sys /\
  ttf_state (snd r) = set_font_set fonts' (ttf_state sys) /\
  length fonts' = length fonts /\
  fd_hinting_threshold <$> fonts' = fd_hinting_threshold <$> fonts /\
  (forall j, (j < i)%nat -> fonts' !! j = fonts !! j) /\
  (exists new, lifecycle (snd r) = new ++ lifecycle sys /\
               Forall (fun ev => closes_or_quits ev = false) new) /\
  (fst r = true ->
   forall j d, (i <= j < i + todo)%nat -> fonts' !! j = Some d -> fd_font d <> nullptr).
Proof.
  induction todo as [|todo IH]; intros i sys; simpl.
  - split; [reflexivity|]. split; [now destruct sys as [[] ? ?]|].
    split; [reflexivity|]. split; [reflexivity|]. split; [reflexivity|].
    split; [exists []; split; [reflexivity|constructor]|]. intros _ j d Hj. lia.
  - destruct (gCurrentTTFFontSet (ttf_state sys) !! i) as [fontDesc|] eqn:Hi.
    2:{ simpl. split; [reflexivity|]. split; [now destruct sys as [[] ? ?]|].
        split; [reflexivity|]. split; [reflexivity|]. split; [reflexivity|].
        split; [exists []; split; [reflexivity|constructor]|].
        intros _ j d Hj Hd. apply lookup_lt_Some in Hd. apply lookup_ge_None in Hi. lia. }
    destruct (platform_get_font_path L (lifecycle sys) i) as [fontPath|].
    2:{ simpl. split; [reflexivity|]. split; [now destruct sys as [[] ? ?]|].
        split; [reflexivity|]. split; [reflexivity|]. split; [reflexivity|].
        split; [|discriminate].
        exists [EvGetFontPath i]. split; [reflexivity|]. repeat constructor. }
    set (font := TTF_OpenFont L (EvGetFontPath i :: lifecycle sys) fontPath i).
    set (sys2 := log_lifecycle (EvOpenFont fontPath i)
                   (set_font i fontDesc font (log_lifecycle (EvGetFontPath i) sys))).
    assert (Hf2 : gCurrentTTFFontSet (ttf_state sys2)
                  = <[i := {| fd_hinting_threshold := fd_hinting_threshold fontDesc;
                              fd_font := font |}]> (gCurrentTTFFontSet (ttf_state sys)))
      by reflexivity.
    assert (Hthr : fd_hinting_threshold <$> gCurrentTTFFontSet (ttf_state sys2)
                   = fd_hinting_threshold <$> gCurrentTTFFontSet (ttf_state sys)).
    { rewrite Hf2, list_fmap_insert. simpl. apply list_insert_id.
      now rewrite list_lookup_fmap, Hi. }
    assert (Hlog2 : lifecycle sys2 = [EvOpenFont fontPath i; EvGetFontPath i] ++ lifecycle sys)
      by reflexivity.
    destruct (Z.eqb_spec font nullptr) as [Hnull|Hok].
    + simpl. split; [reflexivity|]. split; [reflexivity|].
      split; [now rewrite length_insert|]. split; [exact Hthr|].
      split; [intros j Hj; apply list_lookup_insert_ne; lia|].
      split; [|discriminate].
      eexists. split; [exact Hlog2|]. repeat constructor.
    + destruct (IH (S i) sys2) as (Hini & Hst & Hlen & Hth & Hlow & (new & Hlog & Hnew) & Hall).
      cbv zeta in *.
      split; [exact Hini|]. split; [rewrite Hst; reflexivity|].
      split; [rewrite Hlen, Hf2; apply length_insert|].
      split; [congruence|].
      split.
      { intros j Hj. rewrite Hlow by lia. rewrite Hf2. apply list_lookup_insert_ne. lia. }
      split.
      { exists (new ++ [EvOpenFont fontPath i; EvGetFontPath i]).
        rewrite Hlog, Hlog2, <- app_assoc. split; [reflexivity|].
        apply Forall_app. split; [assumption|repeat constructor]. }
      intros Hr j d Hj Hd. destruct (decide (j = i)) as [->|Hne].
      * rewrite Hlow in Hd by lia. rewrite Hf2, list_lookup_insert_eq in Hd.
        -- injection Hd as <-. exact Hok.
        -- now apply lookup_lt_Some in Hi.
      * apply (Hall Hr j d); [lia|assumption].
Qed.

Lemma initialise_from_stopped (L : FontLoader) (sys : TTFSystem) :
  _ttfInitialised sys = false ->
  let r := ttf_initialise L sys in
  let fonts' := gCurrentTTFFontSet (ttf_state (snd r)) in
  _ttfInitialised (snd r) = fst r /\
  length fonts' = FONT_SIZE_COUNT sys /\
  fd_hinting_threshold <$> fonts'
    = fd_hinting_threshold <$> gCurrentTTFFontSet (ttf_state sys) /\
  (exists new, lifecycle (snd r) = new ++ lifecycle sys /\
               Forall (fun ev => closes_or_quits ev = false) new) /\
  (fst r = true ->
   Forall (fun d => fd_font d <> nullptr) fonts' /\
   exists fonts1, ttf_state (snd r)
                  = ttf_toggle_hinting (set_font_set fonts1 (ttf_state sys))) /\
  (fst r = false -> ttf_state (snd r) = set_font_set fonts' (ttf_state sys)).
Proof.
  intros Hini r fonts'. subst r fonts'. unfold ttf_initialise. rewrite Hini.
  cbn [negb].
  destruct (Z.eqb_spec (TTF_Init L (lifecycle sys)) 0) as [Hinit|Hinit]; cbn [negb].
  2:{ simpl. split; [assumption|]. split; [reflexivity|]. split; [reflexivity|].
      split; [exists [EvInit]; split; [reflexivity|repeat constructor]|].
      split; [discriminate|]. intros _. now destruct sys as [[] ? ?]. }
  pose proof (initialise_fonts_spec L (FONT_SIZE_COUNT (log_lifecycle EvInit sys)) 0
                (log_lifecycle EvInit sys)) as H. cbv zeta in H.
  destruct (ttf_initialise_fonts L (FONT_SIZE_COUNT (log_lifecycle EvInit sys)) 0
              (log_lifecycle EvInit sys)) as [loaded sys2].
  simpl in H. destruct H as (Hi2 & Hst & Hlen & Hthr & _ & (new & Hlog & Hnew) & Hall).
  assert (Hlog' : exists new', lifecycle sys2 = new' ++ lifecycle sys /\
                               Forall (fun ev => closes_or_quits ev = false) new').
  { exists (new ++ [EvInit]). rewrite Hlog, <- app_assoc. split; [reflexivity|].
    apply Forall_app. split; [assumption|repeat constructor]. }
  destruct loaded; cbn [negb fst snd ttf_state _ttfInitialised lifecycle].
  - assert (Hfonts : Forall (fun d => fd_font d <> nullptr) (gCurrentTTFFontSet (ttf_state sys2))).
    { apply Forall_lookup. intros j d Hd. apply (Hall eq_refl j d); [|assumption].
      apply lookup_lt_Some in Hd. unfold FONT_SIZE_COUNT. simpl. lia. }
    assert (Hset : gCurrentTTFFontSet (ttf_toggle_hinting (ttf_state sys2))
                   = gCurrentTTFFontSet (ttf_state sys2)).
    { unfold ttf_toggle_hinting.
      destruct (LocalisationService_UseTrueTypeFont (ttf_state sys2)); cbn [negb];
        [|reflexivity].
      match goal with |- context [_ttfSurfaceCacheCount ?s] => set (st1 := s) end.
      assert (H1 : gCurrentTTFFontSet st1 = gCurrentTTFFontSet (ttf_state sys2)).
      { subst st1. apply fold_left_preserves. reflexivity. }
      destruct (_ttfSurfaceCacheCount st1 =? 0); cbn [negb]; [assumption|].
      rewrite <- H1. unfold ttf_surface_cache_dispose_all. apply fold_left_preserves.
      intros s i. simpl. apply (surface_dispose_frame i s). }
    rewrite Hset. split; [reflexivity|]. split; [exact Hlen|]. split; [exact Hthr|].
    split; [exact Hlog'|]. split; [|discriminate].
    intros _. split; [exact Hfonts|]. eexists. now rewrite Hst.
  - split; [rewrite Hi2; exact Hini|]. split; [exact Hlen|]. split; [exact Hthr|].
    split; [exact Hlog'|]. split; [discriminate|]. intros _. exact Hst.
Qed.

(** X12.  [ttf_initialise] on a system that is not initialised ends with
    [_ttfInitialised] equal to its result, so that a failed start can be
    tried again.  Whatever the result, it keeps the number and the hinting
    thresholds of the size classes and calls neither [TTF_CloseFont] nor
    [TTF_Quit]: when it gives up at one size class, the fonts opened for
    the classes before it stay open and the engine stays started.  On
    success every size class has a font and the hinting toggle has run; on
    failure the caches, their counters and the trace are as they were.  On
    a system that is initialised it does nothing and returns true. *)
Theorem X12_initialise_outcomes (L : FontLoader) (sys : TTFSystem) :
  let r := ttf_initialise L sys in
  let fonts' := gCurrentTTFFontSet (ttf_state (snd r)) in
  (_ttfInitialised sys = true -> r = (true, sys)) /\
  (_ttfInitialised sys = false ->
   _ttfInitialised (snd r) = fst r /\
   length fonts' = FONT_SIZE_COUNT sys /\
   fd_hinting_threshold <$> fonts'
     = fd_hinting_threshold <$> gCurrentTTFFontSet (ttf_state sys) /\
   (exists new, lifecycle (snd r) = new ++ lifecycle sys /\
                Forall (fun ev => closes_or_quits ev = false) new) /\
   (fst r = true ->
    Forall (fun d => fd_font d <> nullptr) fonts' /\
    exists fonts1, ttf_state (snd r)
                   = ttf_toggle_hinting (set_font_set fonts1 (ttf_state sys))) /\
   (fst r = false -> ttf_state (snd r) = set_font_set fonts' (ttf_state sys))).
Proof.
  intros r fonts'. split; intros Hini.
  - subst r. unfold ttf_initialise. rewrite Hini. reflexivity.
  - exact (initialise_from_stopped L sys Hini).
Qed.

Lemma X12_initialise_outcomes_witness :
  _ttfInitialised (snd (ttf_initialise broken_loader (fresh_system 3))) = false /\
  closed_fonts (lifecycle (snd (ttf_initialise broken_loader (fresh_system 3)))) = [].
Proof.
  pose proof (proj2 (X12_initialise_outcomes broken_loader (fresh_system 3)) eq_refl) as H.
  split; [|vm_compute; reflexivity].
  etransitivity; [exact (proj1 H)|]. vm_compute. reflexivity.
Defined.

Lemma dispose_fonts_none todo :
  forall i sys,
  (0 < todo)%nat ->
  (length (gCurrentTTFFontSet (ttf_state sys)) < i + todo)%nat ->
  ttf_dispose_fonts todo i sys = None.
Proof.
  induction todo as [|todo IH]; intros i sys Hpos Hlen; [lia|]. simpl.
  destruct (gCurrentTTFFontSet (ttf_state sys) !! i) as [d|] eqn:Hi; [|reflexivity].
  apply lookup_lt_Some in Hi.
  destruct (negb (fd_font d =? nullptr)); apply IH; simpl; rewrite ?length_insert; lia.
Qed.

Lemma dispose_fonts_some todo :
  forall i sys,
  let fonts := gCurrentTTFFontSet (ttf_state sys) in
  (i + todo <= length fonts)%nat ->
  exists sys',
    ttf_dispose_fonts todo i sys = Some sys' /\
    _ttfInitialised sys' = _ttfInitialised sys /\
    ttf_state sys' = set_font_set (gCurrentTTFFontSet (ttf_state sys')) (ttf_state sys) /\
    length (gCurrentTTFFontSet (ttf_state sys')) = length fonts /\
    (forall j d, fonts !! j = Some d ->
       gCurrentTTFFontSet (ttf_state sys') !! j
       = Some (if (i <=? j)%nat && (j <? i + todo)%nat
               then {| fd_hinting_threshold := fd_hinting_threshold d; fd_font := nullptr |}
               else d)) /\
    lifecycle sys'
    = reverse (EvCloseFont <$> List.filter (fun f => negb (f =? nullptr))
                                 (fd_font <$> take todo (drop i fonts)))
      ++ lifecycle sys.
Proof.
  induction todo as [|todo IH]; intros i sys fonts Hlen; subst fonts.
  - exists sys. simpl. split; [reflexivity|]. split; [reflexivity|].
    split; [now destruct sys as [[] ? ?]|]. split; [reflexivity|].
    split; [|reflexivity].
    intros j d Hd. rewrite Hd. f_equal.
    destruct (i <=? j)%nat eqn:H1; [|reflexivity].
    destruct (j <? i + 0)%nat eqn:H2; [|reflexivity].
    apply Nat.leb_le in H1. apply Nat.ltb_lt in H2. lia.
  - simpl ttf_dispose_fonts.
    destruct (gCurrentTTFFontSet (ttf_state sys) !! i) as [d|] eqn:Hi.
    2:{ apply lookup_ge_None in Hi. lia. }
    rewrite (drop_S _ _ _ Hi). cbn [take fmap list_fmap List.filter].
    change (list_fmap _ _ fd_font) with (fmap (M := list) fd_font).
    destruct (Z.eqb_spec (fd_font d) nullptr) as [Hnull|Hopen]; cbn [negb].
    + destruct (IH (S i) sys) as (sys' & Hrun & Hini & Hst & Hl & Hlook & Hlog); [lia|].
      exists sys'. split; [exact Hrun|]. split; [exact Hini|]. split; [exact Hst|].
      split; [exact Hl|]. split; [|exact Hlog].
      intros j dj Hj. rewrite (Hlook j dj Hj). f_equal.
      destruct (decide (j = i)) as [->|Hne].
      * rewrite Hi in Hj. injection Hj as <-.
        replace (S i <=? i)%nat with false by (symmetry; apply Nat.leb_gt; lia).
        replace (i <=? i)%nat with true by (symmetry; apply Nat.leb_le; lia).
        replace (i <? i + S todo)%nat with true by (symmetry; apply Nat.ltb_lt; lia).
        simpl. destruct d as [thr f]. simpl in *. now subst f.
      * replace (S i <=? j)%nat with (i <=? j)%nat
          by (destruct (Nat.leb_spec i j), (Nat.leb_spec (S i) j); try reflexivity; lia).
        replace (j <? S i + todo)%nat with (j <? i + S todo)%nat
          by (destruct (Nat.ltb_spec j (i + S todo)), (Nat.ltb_spec j (S i + todo));
              try reflexivity; lia).
        reflexivity.
    + set (sys1 := set_font i d nullptr (log_lifecycle (EvCloseFont (fd_font d)) sys)).
      assert (Hf1 : gCurrentTTFFontSet (ttf_state sys1)
                    = <[i := {| fd_hinting_threshold := fd_hinting_threshold d;
                                fd_font := nullptr |}]> (gCurrentTTFFontSet (ttf_state sys)))
        by reflexivity.
      destruct (IH (S i) sys1) as (sys' & Hrun & Hini & Hst & Hl & Hlook & Hlog).
      { rewrite Hf1, length_insert. lia. }
      exists sys'. split; [exact Hrun|]. split; [exact Hini|].
      split; [rewrite Hst; reflexivity|].
      split; [rewrite Hl, Hf1; apply length_insert|].
      split.
      * intros j dj Hj. destruct (decide (j = i)) as [->|Hne].
        -- rewrite Hi in Hj. injection Hj as <-.
           rewrite (Hlook i {| fd_hinting_threshold := fd_hinting_threshold d;
                               fd_font := nullptr |}).
           2:{ rewrite Hf1. apply list_lookup_insert_eq. now apply lookup_lt_Some in Hi. }
           replace (S i <=? i)%nat with false by (symmetry; apply Nat.leb_gt; lia).
           replace (i <=? i)%nat with true by (symmetry; apply Nat.leb_le; lia).
           replace (i <? i + S todo)%nat with true by (symmetry; apply Nat.ltb_lt; lia).
           reflexivity.
        -- rewrite (Hlook j dj).
           2:{ rewrite Hf1, list_lookup_insert_ne by lia. exact Hj. }
           replace (S i <=? j)%nat with (i <=? j)%nat
             by (destruct (Nat.leb_spec i j), (Nat.leb_spec (S i) j); try reflexivity; lia).
           replace (j <? S i + todo)%nat with (j <? i + S todo)%nat
             by (destruct (Nat.ltb_spec j (i + S todo)), (Nat.ltb_spec j (S i + todo));
                 try reflexivity; lia).
           reflexivity.
      * rewrite Hlog, Hf1, drop_insert_lt by lia.
        rewrite fmap_cons, reverse_cons, <- app_assoc. reflexivity.
Qed.

Lemma set_font_set_caches fonts st :
  _ttfSurfaceCache (set_font_set fonts st) = _ttfSurfaceCache st /\
  _ttfGetWidthCache (set_font_set fonts st) = _ttfGetWidthCache st.
Proof. split; reflexivity. Qed.

Lemma dispose_all_font_set st :
  gCurrentTTFFontSet (ttf_getwidth_cache_dispose_all (ttf_surface_cache_dispose_all st))
  = gCurrentTTFFontSet st.
Proof.
  transitivity (gCurrentTTFFontSet (ttf_surface_cache_dispose_all st)).
  - unfold ttf_getwidth_cache_dispose_all. apply fold_left_preserves. intros s i. simpl.
    apply (getwidth_dispose_frame i s).
  - unfold ttf_surface_cache_dispose_all. apply fold_left_preserves. intros s i. simpl.
    apply (surface_dispose_frame i s).
Qed.

Lemma dispose_when_stopped (sys : TTFSystem) :
  _ttfInitialised sys = false -> ttf_dispose sys = Some sys.
Proof. intros Hini. unfold ttf_dispose. rewrite Hini. reflexivity. Qed.

Lemma dispose_when_started (sys : TTFSystem) :
  _ttfInitialised sys = true ->
  let fonts := gCurrentTTFFontSet (ttf_state sys) in
  ((FONT_SIZE_COUNT sys < 4)%nat -> ttf_dispose sys = None) /\
  ((4 <= FONT_SIZE_COUNT sys)%nat -> tables_sized (ttf_state sys) ->
   exists sys',
     ttf_dispose sys = Some sys' /\
     _ttfInitialised sys' = false /\
     Forall (fun e => surface_is_empty e = true) (_ttfSurfaceCache (ttf_state sys')) /\
     Forall (fun e => getwidth_is_empty e = true) (_ttfGetWidthCache (ttf_state sys')) /\
     gCurrentTTFFontSet (ttf_state sys')
     = ((fun d => {| fd_hinting_threshold := fd_hinting_threshold d; fd_font := nullptr |})
          <$> take 4 fonts) ++ drop 4 fonts /\
     lifecycle sys'
     = EvQuit :: reverse (EvCloseFont <$> List.filter (fun f => negb (f =? nullptr))
                                            (fd_font <$> take 4 fonts))
       ++ lifecycle sys).
Proof.
  intros Hini fonts. subst fonts. unfold ttf_dispose. rewrite Hini.
  cbv zeta.
  set (st2 := ttf_getwidth_cache_dispose_all (ttf_surface_cache_dispose_all (ttf_state sys))).
  set (sys0 := {| ttf_state := st2; _ttfInitialised := true; lifecycle := lifecycle sys |}).
  assert (Hf0 : gCurrentTTFFontSet (ttf_state sys0) = gCurrentTTFFontSet (ttf_state sys))
    by apply dispose_all_font_set.
  split.
  - intros Hlen. rewrite (dispose_fonts_none 4 0 sys0); [reflexivity|lia|].
    rewrite Hf0. exact Hlen.
  - intros Hlen [Hs Hw].
    destruct (dispose_fonts_some 4 0 sys0) as (sys1 & Hrun & _ & Hst & Hl & Hlook & Hlog).
    { rewrite Hf0. exact Hlen. }
    rewrite Hrun. eexists. split; [reflexivity|]. cbn [ttf_state _ttfInitialised lifecycle].
    split; [reflexivity|].
    destruct (surface_dispose_all_spec (ttf_state sys) Hs) as (Hsc & _ & _).
    pose proof (surface_dispose_all_frame (ttf_state sys)) as Hfr. cbv zeta in Hfr, Hsc.
    destruct Hfr as (_ & _ & Hwc & _).
    destruct (getwidth_dispose_all_spec (ttf_surface_cache_dispose_all (ttf_state sys)))
      as (Hwc2 & _ & _); [congruence|]. cbv zeta in Hwc2.
    pose proof (getwidth_dispose_all_frame (ttf_surface_cache_dispose_all (ttf_state sys)))
      as Hsc2.
    split; [|split; [|split]].
    + rewrite Hst, (proj1 (set_font_set_caches _ _)).
      unfold sys0, st2. cbn [ttf_state]. rewrite Hsc2, Hsc.
      apply Forall_fmap, Forall_forall. intros e _. apply surface_disposed_empty.
    + rewrite Hst, (proj2 (set_font_set_caches _ _)).
      unfold sys0, st2. cbn [ttf_state]. rewrite Hwc2.
      apply Forall_fmap, Forall_forall. intros e _. apply getwidth_disposed_empty.
    + rewrite Hf0 in Hl, Hlook. unfold FONT_SIZE_COUNT in Hlen.
      apply list_eq. intros j.
      destruct (gCurrentTTFFontSet (ttf_state sys) !! j) as [d|] eqn:Hj.
      * rewrite (Hlook j d Hj). destruct (Nat.ltb_spec j 4) as [Hlt|Hge].
        -- rewrite lookup_app_l by (rewrite length_fmap, length_take; lia).
           rewrite list_lookup_fmap, lookup_take_lt, Hj by lia.
           replace (j <? 0 + 4)%nat with true by (symmetry; apply Nat.ltb_lt; lia).
           reflexivity.
        -- rewrite lookup_app_r by (rewrite length_fmap, length_take; lia).
           rewrite length_fmap, length_take, Nat.min_l, lookup_drop by lia.
           replace (4 + (j - 4))%nat with j by lia.
           replace (j <? 0 + 4)%nat with false by (symmetry; apply Nat.ltb_ge; lia).
           rewrite Hj, andb_false_r. reflexivity.
      * apply lookup_ge_None in Hj. rewrite (proj2 (lookup_ge_None _ _)) by lia.
        symmetry. apply lookup_ge_None.
        rewrite length_app, length_fmap, length_take, length_drop. lia.
    + rewrite Hlog, Hf0. reflexivity.
Qed.

(** X13.  [ttf_dispose] on a system that is not initialised does nothing.
    On an initialised one its font loop runs over the first four size
    classes whatever their number is: with fewer than four it reads past
    the end of the font set and has no defined result.  With four or more
    it ends not initialised, with every slot of both caches empty; the
    first four size classes have no font any more and keep their
    threshold, the size classes after the fourth keep the font they had;
    the engine is asked to close exactly the fonts that the first four
    classes held, in their order, and is then shut down. *)
Theorem X13_dispose_outcomes (sys : TTFSystem) :
  let fonts := gCurrentTTFFontSet (ttf_state sys) in
  (_ttfInitialised sys = false -> ttf_dispose sys = Some sys) /\
  (_ttfInitialised sys = true ->
   ((FONT_SIZE_COUNT sys < 4)%nat -> ttf_dispose sys = None) /\
   ((4 <= FONT_SIZE_COUNT sys)%nat -> tables_sized (ttf_state sys) ->
    exists sys',
      ttf_dispose sys = Some sys' /\
      _ttfInitialised sys' = false /\
      Forall (fun e => surface_is_empty e = true) (_ttfSurfaceCache (ttf_state sys')) /\
      Forall (fun e => getwidth_is_empty e = true) (_ttfGetWidthCache (ttf_state sys')) /\
      gCurrentTTFFontSet (ttf_state sys')
      = ((fun d => {| fd_hinting_threshold := fd_hinting_threshold d; fd_font := nullptr |})
           <$> take 4 fonts) ++ drop 4 fonts /\
      lifecycle sys'
      = EvQuit :: reverse (EvCloseFont <$> List.filter (fun f => negb (f =? nullptr))
                                             (fd_font <$> take 4 fonts))
        ++ lifecycle sys)).
Proof.
  intros fonts. split; intros Hini.
  - exact (dispose_when_stopped sys Hini).
  - exact (dispose_when_started sys Hini).
Qed.

Lemma started_system_ready :
  _ttfInitialised started_system = true /\
  (4 <= FONT_SIZE_COUNT started_system)%nat /\
  tables_sized (ttf_state started_system).
Proof.
  split; [vm_compute; reflexivity|]. split; [vm_compute; lia|].
  split; vm_compute; reflexivity.
Qed.

Lemma X13_dispose_outcomes_witness :
  exists sys', ttf_dispose started_system = Some sys' /\ _ttfInitialised sys' = false.
Proof.
  destruct (proj2 (proj2 (X13_dispose_outcomes started_system)
                     (proj1 started_system_ready))
              (proj1 (proj2 started_system_ready)) (proj2 (proj2 started_system_ready)))
    as (sys' & Hd & Hoff & _).
  exists sys'. split; [exact Hd|exact Hoff].
Defined.

Lemma closed_fonts_closes l log :
  closed_fonts (reverse (EvCloseFont <$> l) ++ log) = closed_fonts log ++ l.
Proof.
  unfold closed_fonts. rewrite omap_app, reverse_app. f_equal.
  induction l as [|f l IH]; [reflexivity|].
  rewrite fmap_cons, reverse_cons, omap_app, reverse_app, IH. reflexivity.
Qed.

Lemma closed_fonts_none new log :
  Forall (fun ev => closes_or_quits ev = false) new ->
  closed_fonts (new ++ log) = closed_fonts log.
Proof.
  intros Hnew. unfold closed_fonts. rewrite omap_app, reverse_app.
  replace (omap _ new) with (@nil ptr); [apply app_nil_r|].
  induction Hnew as [|ev new Hev _ IH]; [reflexivity|].
  destruct ev; try discriminate; exact IH.
Qed.

Lemma filter_open_fonts l :
  Forall (fun f => f <> nullptr) l ->
  List.filter (fun f => negb (f =? nullptr)) l = l.
Proof.
  induction 1 as [|f l Hf _ IH]; [reflexivity|]. simpl.
  destruct (Z.eqb_spec f nullptr); [contradiction|]. simpl. now rewrite IH.
Qed.

(** X14.  [ttf_initialise] followed by [ttf_dispose], from a system that
    is not initialised.  After a failed start [ttf_dispose] does nothing,
    so the fonts opened before the failure are never closed.  After a
    successful start every size class holds an open font, and the shutdown
    closes the fonts of the first four size classes, in their order, and no
    other: with exactly four size classes every opened font is closed once
    and no descriptor keeps a font, with more than four the later classes
    keep their open font, and with fewer than four the shutdown reads past
    the end of the font set. *)
Theorem X14_start_then_shutdown (L : FontLoader) (sys sys1 : TTFSystem) (ok : bool) :
  _ttfInitialised sys = false ->
  tables_sized (ttf_state sys) ->
  ttf_initialise L sys = (ok, sys1) ->
  let opened := fd_font <$> gCurrentTTFFontSet (ttf_state sys1) in
  (ok = false -> ttf_dispose sys1 = Some sys1) /\
  (ok = true ->
   length opened = FONT_SIZE_COUNT sys /\
   Forall (fun f => f <> nullptr) opened /\
   ((FONT_SIZE_COUNT sys < 4)%nat -> ttf_dispose sys1 = None) /\
   ((4 <= FONT_SIZE_COUNT sys)%nat ->
    exists sys2,
      ttf_dispose sys1 = Some sys2 /\
      closed_fonts (lifecycle sys2) = closed_fonts (lifecycle sys) ++ take 4 opened /\
      fd_font <$> gCurrentTTFFontSet (ttf_state sys2)
      = replicate 4 nullptr ++ drop 4 opened)).
Proof.
  intros Hini Hsz Hrun opened. subst opened.
  pose proof (initialise_from_stopped L sys Hini) as H. cbv zeta in H.
  rewrite Hrun in H. cbn [fst snd] in H.
  destruct H as (Hflag & Hlen & _ & (new & Hlog & Hnew) & Hok & _).
  split; intros ->; [exact (dispose_when_stopped sys1 Hflag)|].
  destruct (Hok eq_refl) as (Hfonts & fonts1 & Hst).
  destruct (dispose_when_started sys1 Hflag) as [Hshort Hlong].
  assert (Hcount : FONT_SIZE_COUNT sys1 = FONT_SIZE_COUNT sys) by exact Hlen.
  assert (Hopen : Forall (fun f => f <> nullptr)
                    (fd_font <$> gCurrentTTFFontSet (ttf_state sys1)))
    by (apply Forall_fmap; exact Hfonts).
  split; [rewrite length_fmap; exact Hlen|]. split; [exact Hopen|].
  split; [intros Hlt; apply Hshort; rewrite Hcount; exact Hlt|].
  intros Hge.
  destruct Hlong as (sys2 & Hd & _ & _ & _ & Hf2 & Hlog2).
  { rewrite Hcount. exact Hge. }
  { rewrite Hst. apply (step_sized sample_engine _ ToggleHinting). split; apply Hsz. }
  exists sys2. split; [exact Hd|]. split.
  - rewrite Hlog2. unfold closed_fonts at 1. cbn [omap list_omap].
    change (reverse (omap ?f ?l)) with (closed_fonts l).
    rewrite closed_fonts_closes, Hlog, (closed_fonts_none _ _ Hnew), fmap_take.
    rewrite filter_open_fonts; [reflexivity|].
    apply Forall_take. exact Hopen.
  - rewrite Hf2, fmap_app, <- list_fmap_compose, fmap_drop. f_equal.
    rewrite (const_fmap _ _ nullptr) by reflexivity.
    rewrite length_take, Nat.min_l; [reflexivity|].
    unfold FONT_SIZE_COUNT in Hcount. rewrite Hcount. exact Hge.
Qed.

Lemma fresh_system_ready :
  _ttfInitialised (fresh_system 5) = false /\
  tables_sized (ttf_state (fresh_system 5)) /\
  ttf_initialise sample_loader (fresh_system 5) = (true, started_system).
Proof.
  split; [reflexivity|]. split; [split; vm_compute; reflexivity|vm_compute; reflexivity].
Qed.

Lemma X14_start_then_shutdown_witness :
  Forall (fun f => f <> nullptr)
    (fd_font <$> gCurrentTTFFontSet (ttf_state started_system)).
Proof.
  exact (proj1 (proj2 (proj2 (X14_start_then_shutdown sample_loader (fresh_system 5)
                                started_system true
                                (proj1 fresh_system_ready)
                                (proj1 (proj2 fresh_system_ready))
                                (proj2 (proj2 fresh_system_ready))) eq_refl))).
Defined.

(** *** Object entry names *)

Lemma SetName_loop_padded count :
  forall src pad, (count <= pad)%nat ->
  SetName_loop count src = take count (c_str src ++ replicate pad 32).
Proof.
  induction count as [|count IH]; intros src pad Hpad; [reflexivity|].
  destruct src as [|ch rest]; cbn [SetName_loop c_str].
  - destruct pad as [|pad]; [lia|]. simpl. f_equal.
    rewrite IH with (pad := pad) by lia. reflexivity.
  - destruct (Z.eqb_spec ch 0) as [->|Hch].
    + destruct pad as [|pad]; [lia|]. simpl. f_equal.
      rewrite IH with (pad := pad) by lia. reflexivity.
    + simpl. f_equal. apply IH. lia.
Qed.

Lemma all_spaces_last (l : list utf8) :
  Forall (fun ch => ch = 32) l -> l <> [] -> last l = Some 32.
Proof.
  intros Hall Hne. destruct (last l) as [ch|] eqn:Hlast.
  - apply last_Some in Hlast as [l' ->]. apply Forall_app in Hall as [_ Hch].
    inversion Hch; subst. reflexivity.
  - apply last_None in Hlast. contradiction.
Qed.

Lemma padded_inj (a : list utf8) :
  forall b k k',
  a ++ replicate k 32 = b ++ replicate k' 32 ->
  last a <> Some 32 -> last b <> Some 32 -> a = b.
Proof.
  assert (Hpad : forall (b : list utf8) k k',
            replicate k 32 = b ++ replicate k' 32 -> last b <> Some 32 -> b = []).
  { intros b k k' Heq Hlast. destruct b as [|c b]; [reflexivity|]. exfalso. apply Hlast.
    apply all_spaces_last; [|discriminate].
    assert (Hall : Forall (fun ch : utf8 => ch = 32) (replicate k 32)).
    { apply Forall_forall. intros x Hx. apply elem_of_replicate in Hx. tauto. }
    rewrite Heq in Hall. now apply Forall_app in Hall as [Hall _]. }
  induction a as [|c a IH]; intros b k k' Heq Ha Hb.
  - symmetry. apply (Hpad b k k'); assumption.
  - destruct b as [|d b].
    + apply (Hpad (c :: a) k' k); [symmetry|]; assumption.
    + simpl in Heq. injection Heq as -> Heq. f_equal. apply (IH b k k' Heq).
      * intros Hl. apply Ha. destruct a; [discriminate|exact Hl].
      * intros Hl. apply Hb. destruct b; [discriminate|exact Hl].
Qed.

(** X15.  [SetName] writes the C string at [value], cut after eight chars
    when it is longer and filled up with spaces when it is shorter: the
    name always has eight chars, none of them a NUL, so the field never
    holds a terminator; [flags] and [checksum] are left alone; and what
    follows the first NUL of [value] has no influence. *)
Theorem X15_SetName_pads_and_cuts (value : list utf8) (entry : rct_object_entry) :
  let entry' := SetName value entry in
  name entry' = take 8 (c_str value ++ replicate 8 32) /\
  length (name entry') = 8%nat /\
  nul_free (name entry') /\
  flags entry' = flags entry /\
  checksum entry' = checksum entry /\
  (forall value', c_str value' = c_str value -> SetName value' entry = entry').
Proof.
  assert (Heq : forall v, SetName_loop 8 v = take 8 (c_str v ++ replicate 8 32))
    by (intros v; apply SetName_loop_padded; lia).
  cbv zeta. unfold SetName. cbn [name flags checksum]. rewrite Heq.
  split; [reflexivity|]. split; [|split; [|split; [reflexivity|split; [reflexivity|]]]].
  - rewrite length_take, length_app, length_replicate. lia.
  - apply Forall_take, Forall_app. split; [apply c_str_nul_free|].
    apply Forall_forall. intros x Hx. apply elem_of_replicate in Hx as [-> _]. discriminate.
  - intros value' Hv. rewrite Heq, Hv. reflexivity.
Qed.

(** X16.  Two values of at most eight chars that do not end in a space
    and are given the same name by [SetName] are the same C string: among
    such values the padded name loses nothing. *)
Theorem X16_SetName_injective_on_short_names (v w : list utf8) (e e' : rct_object_entry) :
  (length (c_str v) <= 8)%nat -> (length (c_str w) <= 8)%nat ->
  last (c_str v) <> Some 32 -> last (c_str w) <> Some 32 ->
  name (SetName v e) = name (SetName w e') ->
  c_str v = c_str w.
Proof.
  intros Hv Hw Hlv Hlw Heq. unfold SetName in Heq. cbn [name] in Heq.
  rewrite !(SetName_loop_padded 8 _ 8) in Heq by lia.
  rewrite !take_app_ge, !take_replicate in Heq by assumption.
  exact (padded_inj _ _ _ _ Heq Hlv Hlw).
Qed.

Lemma X16_SetName_injective_on_short_names_witness :
  c_str [83; 67; 71; 0; 88] = c_str [83; 67; 71].
Proof.
  apply (X16_SetName_injective_on_short_names [83; 67; 71; 0; 88] [83; 67; 71]
           {| flags := 7; name := []; checksum := 0 |}
           {| flags := 1; name := []; checksum := 5 |}).
  - simpl. lia.
  - simpl. lia.
  - discriminate.
  - discriminate.
  - reflexivity.
Defined.

(** *** The entry counters *)

Lemma lookup_step_counts E st op :
  only_looks_up op = true ->
  _ttfSurfaceCacheCount st = _ttfSurfaceCacheMissCount st ->
  _ttfGetWidthCacheCount st = _ttfGetWidthCacheMissCount st ->
  _ttfSurfaceCacheCount (step E st op) = _ttfSurfaceCacheMissCount (step E st op) /\
  _ttfGetWidthCacheCount (step E st op) = _ttfGetWidthCacheMissCount (step E st op).
Proof.
  intros Hop Hs Hw. destruct op as [font text|font text| | | |]; try discriminate; simpl.
  - unfold ttf_surface_cache_get_or_add.
    destruct (surface_probe font text st) as [t|t].
    + destruct (_ttfSurfaceCache st !! t); simpl; auto.
    + pose proof (ttf_render_frame E font text (ttf_surface_cache_dispose t st)) as Hr.
      pose proof (surface_dispose_frame t st) as Hd. cbv zeta in Hr, Hd.
      destruct (ttf_render E font text (ttf_surface_cache_dispose t st)) as [s st2].
      simpl in Hr.
      destruct Hr as (_ & Hr1 & _ & Hr2 & _ & Hr3 & _ & Hr4 & _).
      destruct Hd as (Hd1 & _ & Hd2 & _ & Hd3 & _ & Hd4 & _).
      destruct (s =? nullptr); simpl; split; congruence.
  - unfold ttf_getwidth_cache_get_or_add.
    destruct (getwidth_probe font text st) as [t|t].
    + destruct (_ttfGetWidthCache st !! t); simpl; auto.
    + pose proof (getwidth_dispose_frame t st) as Hd. cbv zeta in Hd.
      destruct Hd as (_ & Hd1 & _ & Hd2 & Hd3 & _ & Hd4 & _).
      unfold ttf_get_size. simpl. split; congruence.
  - auto.
Qed.

(** X17.  As long as no table is disposed of as a whole and hinting is
    not toggled, the entry counter of each cache equals its miss counter:
    a lookup raises both together on every miss that stores an entry, also
    when the entry takes the place of another, and nothing else changes
    either. *)
Theorem X17_entry_counter_follows_misses (E : FontEngine) (ops : list operation)
    (st : TTFState) :
  Forall (fun op => only_looks_up op = true) ops ->
  _ttfSurfaceCacheCount st = _ttfSurfaceCacheMissCount st ->
  _ttfGetWidthCacheCount st = _ttfGetWidthCacheMissCount st ->
  _ttfSurfaceCacheCount (run E ops st) = _ttfSurfaceCacheMissCount (run E ops st) /\
  _ttfGetWidthCacheCount (run E ops st) = _ttfGetWidthCacheMissCount (run E ops st).
Proof.
  intros Hops. revert st. induction Hops as [|op ops Hop _ IH]; intros st Hs Hw.
  - split; assumption.
  - unfold run. simpl. destruct (lookup_step_counts E st op Hop Hs Hw) as [Hs' Hw'].
    apply IH; assumption.
Qed.

Lemma X17_entry_counter_follows_misses_witness :
  let st := run sample_engine
              [GetOrAddSurface 4096 text_AA; GetOrAddWidth 4096 text_AA]
              (initial_state true true sample_fonts) in
  _ttfSurfaceCacheCount st = _ttfSurfaceCacheMissCount st /\
  _ttfGetWidthCacheCount st = _ttfGetWidthCacheMissCount st.
Proof.
  apply (X17_entry_counter_follows_misses sample_engine
           [GetOrAddSurface 4096 text_AA; GetOrAddWidth 4096 text_AA]
           (initial_state true true sample_fonts)).
  - repeat constructor.
  - reflexivity.
  - reflexivity.
Defined.

(** *** Uniqueness of keys *)

Lemma surface_not_held font text st :
  surface_holds font text st = false ->
  forall j, (surface_key <$> _ttfSurfaceCache st) !! j <> Some (Some (lookup_key font text)).
Proof.
  intros Hh j Hj. rewrite list_lookup_fmap in Hj.
  destruct (_ttfSurfaceCache st !! j) as [e|] eqn:He; [|discriminate].
  simpl in Hj. injection Hj as Hk.
  assert (surface_holds font text st = true); [|congruence].
  apply existsb_exists. exists e. split.
  - apply list_elem_of_In. eapply list_elem_of_lookup_2; eauto.
  - now apply bool_decide_eq_true.
Qed.

Lemma getwidth_not_held font text st :
  getwidth_holds font text st = false ->
  forall j, (getwidth_key <$> _ttfGetWidthCache st) !! j <> Some (Some (lookup_key font text)).
Proof.
  intros Hh j Hj. rewrite list_lookup_fmap in Hj.
  destruct (_ttfGetWidthCache st !! j) as [e|] eqn:He; [|discriminate].
  simpl in Hj. injection Hj as Hk.
  assert (getwidth_holds font text st = true); [|congruence].
  apply existsb_exists. exists e. split.
  - apply list_elem_of_In. eapply list_elem_of_lookup_2; eauto.
  - now apply bool_decide_eq_true.
Qed.

Lemma surface_held font text st :
  surface_holds font text st = true ->
  exists j e, _ttfSurfaceCache st !! j = Some e /\
              surface_key e = Some (lookup_key font text).
Proof.
  intros Hh. apply existsb_exists in Hh as (e & Hin & Hk).
  apply list_elem_of_In, list_elem_of_lookup_1 in Hin as [j Hj].
  apply bool_decide_eq_true in Hk. eauto.
Qed.

Lemma getwidth_held font text st :
  getwidth_holds font text st = true ->
  exists j e, _ttfGetWidthCache st !! j = Some e /\
              getwidth_key e = Some (lookup_key font text).
Proof.
  intros Hh. apply existsb_exists in Hh as (e & Hin & Hk).
  apply list_elem_of_In, list_elem_of_lookup_1 in Hin as [j Hj].
  apply bool_decide_eq_true in Hk. eauto.
Qed.

(** A slot that holds the key of a lookup is occupied and passes the test
    of the loop. *)
Lemma entry_key_matches {entry} (is_empty : entry -> bool) ef et font text (e : entry) :
  entry_key is_empty ef et e = Some (lookup_key font text) ->
  is_empty e = false /\ ef e = font /\ et e = Some (c_str text) /\
  entry_matches ef et font text e = true.
Proof.
  unfold entry_key, lookup_key, _strdup. destruct (is_empty e); [discriminate|].
  intros [= Hf Ht]. split; [reflexivity|]. split; [assumption|]. split; [assumption|].
  apply entry_matches_true. split; [assumption|]. exists (c_str text).
  split; [assumption|]. apply strcmp_c_str_l, strcmp_refl.
Qed.

(** The target of a miss is a slot that is empty or fails the test of the
    loop: a slot that holds the key is never written by a miss. *)
Lemma miss_target_other_key {entry} (is_empty : entry -> bool) ef et etk N
    (cache : list entry) font text tick home t :
  (0 < N)%nat -> (home < N)%nat ->
  probe_contract is_empty ef et etk N cache font text tick home home (ProbeMiss t) ->
  exists e, cache !! t = Some e /\
            (is_empty e = true \/ entry_matches ef et font text e = false).
Proof.
  intros HN Hh (k & Hk & Hskip & [[Hlt (e & He & Hstop)]|[-> Heq]]).
  - inversion Hstop; subst; exists e; auto.
  - injection Heq as ->. destruct (Hskip O HN) as (e & He & _ & Hm & _).
    rewrite Nat.add_0_r, Nat.mod_small in He by assumption. eauto.
Qed.

Lemma surface_miss_target_other_key font text st t :
  tables_sized st -> surface_probe font text st = ProbeMiss t ->
  exists e, _ttfSurfaceCache st !! t = Some e /\
            (surface_is_empty e = true \/ entry_matches sc_font sc_text font text e = false).
Proof.
  intros [Hs _] Hp. pose proof (surface_probe_meets_contract font text st Hs) as Hc.
  rewrite Hp in Hc. unfold surface_probe_contract in Hc.
  eapply miss_target_other_key; [| |exact Hc].
  - unfold TTF_SURFACE_CACHE_SIZE. lia.
  - apply surface_home_lt.
Qed.

Lemma getwidth_miss_target_other_key font text st t :
  tables_sized st -> getwidth_probe font text st = ProbeMiss t ->
  exists e, _ttfGetWidthCache st !! t = Some e /\
            (getwidth_is_empty e = true \/ entry_matches gw_font gw_text font text e = false).
Proof.
  intros [_ Hw] Hp. pose proof (getwidth_probe_meets_contract font text st Hw) as Hc.
  rewrite Hp in Hc. unfold getwidth_probe_contract in Hc.
  eapply miss_target_other_key; [| |exact Hc].
  - unfold TTF_GETWIDTH_CACHE_SIZE. lia.
  - apply getwidth_home_lt.
Qed.

(** The keys of the surface table after a lookup. *)
Lemma surface_lookup_keys E font text st :
  tables_sized st ->
  let r := ttf_surface_cache_get_or_add E font text st in
  let keys := surface_key <$> _ttfSurfaceCache st in
  let keys' := surface_key <$> _ttfSurfaceCache (snd r) in
  match surface_probe font text st with
  | ProbeHit _ => keys' = keys
  | ProbeMiss t =>
      (t < length keys)%nat /\
      keys' = <[t := if fst r =? nullptr then None else Some (lookup_key font text)]> keys
  end.
Proof.
  intros Hsz r keys keys'. subst r keys keys'.
  destruct (surface_probe font text st) as [t|t] eqn:Hp.
  - destruct (surface_hit E font text st t Hp) as (e & He & _ & _ & _ & Hr).
    rewrite Hr. simpl. apply same_key_insert with (e := e); [assumption|reflexivity].
  - destruct (surface_miss_slot font text st t Hsz Hp) as [e0 He0].
    split; [rewrite length_fmap; now apply lookup_lt_Some in He0|].
    rewrite (surface_miss_cache E font text st t e0 Hp He0), list_fmap_insert. f_equal.
    destruct (Z.eqb_spec (fst (ttf_surface_cache_get_or_add E font text st)) nullptr)
      as [Hnull|Hok].
    + rewrite Hnull. unfold surface_key, entry_key.
      now rewrite surface_slot_after_miss_failed.
    + rewrite surface_slot_after_miss_ok by assumption.
      unfold surface_key, entry_key, surface_is_empty. simpl.
      apply Z.eqb_neq in Hok. now rewrite Hok.
Qed.

(** The keys of the get-width table after a lookup. *)
Lemma getwidth_lookup_keys E font text st :
  tables_sized st ->
  let r := ttf_getwidth_cache_get_or_add E font text st in
  let keys := getwidth_key <$> _ttfGetWidthCache st in
  let keys' := getwidth_key <$> _ttfGetWidthCache (snd r) in
  match getwidth_probe font text st with
  | ProbeHit _ => keys' = keys
  | ProbeMiss t =>
      (t < length keys)%nat /\ keys' = <[t := Some (lookup_key font text)]> keys
  end.
Proof.
  intros Hsz r keys keys'. subst r keys keys'.
  destruct (getwidth_probe font text st) as [t|t] eqn:Hp.
  - destruct (getwidth_hit E font text st t Hp) as (e & He & _ & _ & Hr).
    rewrite Hr. simpl. apply same_key_insert with (e := e); [assumption|reflexivity].
  - pose proof (getwidth_probe_lt font text st (proj2 Hsz)) as Hlt. rewrite Hp in Hlt.
    split; [rewrite length_fmap, (proj2 Hsz); exact Hlt|].
    rewrite (getwidth_miss_cache E font text st t Hp), list_fmap_insert. reflexivity.
Qed.

Lemma surface_all_disposed_keys (cache : list ttf_cache_entry) :
  forall i k, (surface_key <$> (surface_disposed <$> cache)) !! i <> Some (Some k).
Proof.
  intros i k Hi. rewrite !list_lookup_fmap in Hi.
  destruct (cache !! i) as [e|]; [|discriminate]. simpl in Hi.
  unfold surface_key, entry_key in Hi. rewrite surface_disposed_empty in Hi. discriminate.
Qed.

Lemma getwidth_all_disposed_keys (cache : list ttf_getwidth_cache_entry) :
  forall i k, (getwidth_key <$> (getwidth_disposed <$> cache)) !! i <> Some (Some k).
Proof.
  intros i k Hi. rewrite !list_lookup_fmap in Hi.
  destruct (cache !! i) as [e|]; [|discriminate]. simpl in Hi.
  unfold getwidth_key, entry_key in Hi. rewrite getwidth_disposed_empty in Hi. discriminate.
Qed.

(** One operation that does not store a held key keeps the keys of both
    tables apart. *)
Lemma step_unique E st op :
  tables_sized st ->
  keys_unique (surface_key <$> _ttfSurfaceCache st) ->
  keys_unique (getwidth_key <$> _ttfGetWidthCache st) ->
  stores_held_key E op st = false ->
  keys_unique (surface_key <$> _ttfSurfaceCache (step E st op)) /\
  keys_unique (getwidth_key <$> _ttfGetWidthCache (step E st op)).
Proof.
  intros Hsz Hs Hw Hop. destruct op as [font text|font text| | | |]; cbn [step].
  - split; [|now rewrite surface_get_or_add_frame].
    pose proof (surface_lookup_keys E font text st Hsz) as Hk. cbv zeta in Hk.
    simpl in Hop. destruct (surface_probe font text st) as [t|t]; [now rewrite Hk|].
    destruct Hk as [_ ->].
    destruct (fst (ttf_surface_cache_get_or_add E font text st) =? nullptr).
    + now apply keys_unique_insert_none.
    + apply keys_unique_insert_new; [assumption|]. now apply surface_not_held.
  - split; [now rewrite getwidth_get_or_add_frame|].
    pose proof (getwidth_lookup_keys E font text st Hsz) as Hk. cbv zeta in Hk.
    simpl in Hop. destruct (getwidth_probe font text st) as [t|t]; [now rewrite Hk|].
    destruct Hk as [_ ->].
    apply keys_unique_insert_new; [assumption|]. now apply getwidth_not_held.
  - destruct (surface_dispose_all_spec st (proj1 Hsz)) as (Hd & _ & _).
    pose proof (surface_dispose_all_frame st) as Hfr. cbv zeta in Hfr.
    destruct Hfr as (_ & _ & Hw' & _).
    split; [rewrite Hd; apply keys_unique_none, surface_all_disposed_keys|now rewrite Hw'].
  - destruct (getwidth_dispose_all_spec st (proj2 Hsz)) as (Hd & _ & _).
    split; [now rewrite getwidth_dispose_all_frame|].
    rewrite Hd. apply keys_unique_none, getwidth_all_disposed_keys.
  - destruct (toggle_cases st (proj1 Hsz)) as ([Hc|Hc] & Hw' & _); rewrite Hc, Hw'.
    + now split.
    + split; [apply keys_unique_none, surface_all_disposed_keys|assumption].
  - now split.
Qed.

Lemma run_unique E ops :
  forall st,
  tables_sized st ->
  keys_unique (surface_key <$> _ttfSurfaceCache st) ->
  keys_unique (getwidth_key <$> _ttfGetWidthCache st) ->
  no_held_key_stored E ops st = true ->
  keys_unique (surface_key <$> _ttfSurfaceCache (run E ops st)) /\
  keys_unique (getwidth_key <$> _ttfGetWidthCache (run E ops st)).
Proof.
  induction ops as [|op ops IH]; intros st Hsz Hs Hw Hno; [now split|].
  simpl in Hno. apply andb_true_iff in Hno as [Hop Hrest].
  apply negb_true_iff in Hop. unfold run. simpl.
  destruct (step_unique E st op Hsz Hs Hw Hop) as [Hs' Hw'].
  apply IH; auto using step_sized.
Qed.

Lemma initial_state_unique use_ttf hint fonts :
  keys_unique (surface_key <$> _ttfSurfaceCache (initial_state use_ttf hint fonts)) /\
  keys_unique (getwidth_key <$> _ttfGetWidthCache (initial_state use_ttf hint fonts)).
Proof.
  split; apply keys_unique_none; intros i k Hi; rewrite list_lookup_fmap in Hi.
  - change (_ttfSurfaceCache (initial_state use_ttf hint fonts))
      with (replicate TTF_SURFACE_CACHE_SIZE empty_surface_entry) in Hi.
    destruct (replicate _ _ !! i) eqn:He; [|discriminate].
    apply lookup_replicate in He as [-> _]. discriminate.
  - change (_ttfGetWidthCache (initial_state use_ttf hint fonts))
      with (replicate TTF_GETWIDTH_CACHE_SIZE empty_getwidth_entry) in Hi.
    destruct (replicate _ _ !! i) eqn:He; [|discriminate].
    apply lookup_replicate in He as [-> _]. discriminate.
Qed.

(** A lookup that stores a key which its table holds leaves the key in two
    slots. *)
Lemma surface_store_duplicates E font text st :
  tables_sized st ->
  stores_held_key E (GetOrAddSurface font text) st = true ->
  let keys' := surface_key <$> _ttfSurfaceCache (step E st (GetOrAddSurface font text)) in
  exists i j, i <> j /\ keys' !! i = Some (Some (lookup_key font text)) /\
              keys' !! j = Some (Some (lookup_key font text)).
Proof.
  intros Hsz Hop keys'. subst keys'. cbn [step].
  pose proof (surface_lookup_keys E font text st Hsz) as Hk. cbv zeta in Hk.
  simpl in Hop. destruct (surface_probe font text st) as [t|t] eqn:Hp; [discriminate|].
  apply andb_true_iff in Hop as [Hok Hheld]. apply negb_true_iff in Hok.
  rewrite Hok in Hk. destruct Hk as [Hlt ->].
  destruct (surface_held font text st Hheld) as (j & e & He & Hkey).
  destruct (entry_key_matches _ _ _ _ _ _ Hkey) as (Hocc & _ & _ & Hm).
  destruct (surface_miss_target_other_key font text st t Hsz Hp) as (e' & He' & Hother).
  assert (Hne : t <> j).
  { intros ->. rewrite He in He'. injection He' as <-. destruct Hother; congruence. }
  exists t, j. split; [assumption|]. split.
  - now apply list_lookup_insert_eq.
  - rewrite list_lookup_insert_ne by assumption. rewrite list_lookup_fmap, He. simpl.
    now rewrite Hkey.
Qed.

Lemma getwidth_store_duplicates E font text st :
  tables_sized st ->
  stores_held_key E (GetOrAddWidth font text) st = true ->
  let keys' := getwidth_key <$> _ttfGetWidthCache (step E st (GetOrAddWidth font text)) in
  exists i j, i <> j /\ keys' !! i = Some (Some (lookup_key font text)) /\
              keys' !! j = Some (Some (lookup_key font text)).
Proof.
  intros Hsz Hop keys'. subst keys'. cbn [step].
  pose proof (getwidth_lookup_keys E font text st Hsz) as Hk. cbv zeta in Hk.
  simpl in Hop. destruct (getwidth_probe font text st) as [t|t] eqn:Hp; [discriminate|].
  destruct Hk as [Hlt ->].
  destruct (getwidth_held font text st Hop) as (j & e & He & Hkey).
  destruct (entry_key_matches _ _ _ _ _ _ Hkey) as (Hocc & _ & _ & Hm).
  destruct (getwidth_miss_target_other_key font text st t Hsz Hp) as (e' & He' & Hother).
  assert (Hne : t <> j).
  { intros ->. rewrite He in He'. injection He' as <-. destruct Hother; congruence. }
  exists t, j. split; [assumption|]. split.
  - now apply list_lookup_insert_eq.
  - rewrite list_lookup_insert_ne by assumption. rewrite list_lookup_fmap, He. simpl.
    now rewrite Hkey.
Qed.

(** *** The first 64 frames *)

Lemma early_surface_miss_home font text st t :
  tables_sized st -> stamps_in_past st -> 0 <= gCurrentDrawCount st < 64 ->
  surface_probe font text st = ProbeMiss t -> t = surface_home font text.
Proof.
  intros [Hs _] [Hst _] Htick Hp.
  destruct (home_only_probe surface_is_empty sc_font sc_text sc_lastUseTick
              TTF_SURFACE_CACHE_SIZE (_ttfSurfaceCache st) font text (gCurrentDrawCount st)
              (surface_home font text)) as [H|H]; auto.
  - unfold TTF_SURFACE_CACHE_SIZE. lia.
  - apply surface_home_lt.
  - unfold surface_probe in Hp. rewrite Hp in H. discriminate.
  - unfold surface_probe in Hp. rewrite Hp in H. now injection H.
Qed.

Lemma early_getwidth_miss_home font text st t :
  tables_sized st -> stamps_in_past st -> 0 <= gCurrentDrawCount st < 64 ->
  getwidth_probe font text st = ProbeMiss t -> t = getwidth_home font text.
Proof.
  intros [_ Hw] [_ Hst] Htick Hp.
  destruct (home_only_probe getwidth_is_empty gw_font gw_text gw_lastUseTick
              TTF_GETWIDTH_CACHE_SIZE (_ttfGetWidthCache st) font text (gCurrentDrawCount st)
              (getwidth_home font text)) as [H|H]; auto.
  - unfold TTF_GETWIDTH_CACHE_SIZE. lia.
  - apply getwidth_home_lt.
  - unfold getwidth_probe in Hp. rewrite Hp in H. discriminate.
  - unfold getwidth_probe in Hp. rewrite Hp in H. now injection H.
Qed.

(** While every key sits in its home slot, a lookup that misses at the home
    slot is for a key that the table does not hold. *)
Lemma early_no_store E st op :
  tables_sized st -> stamps_in_past st -> 0 <= gCurrentDrawCount st < 64 ->
  keys_at_home st ->
  stores_held_key E op st = false.
Proof.
  intros Hsz Hst Htick [Hhs Hhw].
  destruct op as [font text|font text| | | |]; try reflexivity; simpl.
  - destruct (surface_probe font text st) as [t|t] eqn:Hp; [reflexivity|].
    apply andb_false_iff. right.
    destruct (surface_holds font text st) eqn:Hheld; [exfalso|reflexivity].
    destruct (surface_held font text st Hheld) as (j & e & He & Hkey).
    destruct (entry_key_matches _ _ _ _ _ _ Hkey) as (Hocc & Hf & Ht & Hm).
    destruct (Hhs j e He Hocc) as (s & Hs' & _ & Hj).
    rewrite Ht in Hs'. injection Hs' as <-. rewrite Hf, surface_home_c_str in Hj.
    rewrite (early_surface_miss_home font text st t Hsz Hst Htick Hp) in Hp.
    destruct (surface_miss_target_other_key font text st _ Hsz Hp) as (e' & He' & Hother).
    rewrite Hj, He in He'. injection He' as <-. destruct Hother; congruence.
  - destruct (getwidth_probe font text st) as [t|t] eqn:Hp; [reflexivity|].
    destruct (getwidth_holds font text st) eqn:Hheld; [exfalso|reflexivity].
    destruct (getwidth_held font text st Hheld) as (j & e & He & Hkey).
    destruct (entry_key_matches _ _ _ _ _ _ Hkey) as (Hocc & Hf & Ht & Hm).
    destruct (Hhw j e He Hocc) as (s & Hs' & _ & Hj).
    rewrite Ht in Hs'. injection Hs' as <-. rewrite Hf, getwidth_home_c_str in Hj.
    rewrite (early_getwidth_miss_home font text st t Hsz Hst Htick Hp) in Hp.
    destruct (getwidth_miss_target_other_key font text st _ Hsz Hp) as (e' & He' & Hother).
    rewrite Hj, He in He'. injection He' as <-. destruct Hother; congruence.
Qed.

Lemma surface_all_disposed_at_home (cache : list ttf_cache_entry) i e :
  (surface_disposed <$> cache) !! i = Some e -> surface_is_empty e = false -> False.
Proof.
  rewrite list_lookup_fmap. destruct (cache !! i) as [e0|]; [|discriminate].
  simpl. intros [= <-]. now rewrite surface_disposed_empty.
Qed.

Lemma getwidth_all_disposed_at_home (cache : list ttf_getwidth_cache_entry) i e :
  (getwidth_disposed <$> cache) !! i = Some e -> getwidth_is_empty e = false -> False.
Proof.
  rewrite list_lookup_fmap. destruct (cache !! i) as [e0|]; [|discriminate].
  simpl. intros [= <-]. now rewrite getwidth_disposed_empty.
Qed.

(** In the first 64 frames one operation keeps every key in its home
    slot. *)
Lemma step_keys_at_home E st op :
  tables_sized st -> stamps_in_past st -> 0 <= gCurrentDrawCount st < 64 ->
  keys_at_home st -> keys_at_home (step E st op).
Proof.
  intros Hsz Hst Htick [Hhs Hhw].
  destruct op as [font text|font text| | | |]; cbn [step].
  - split; [|now rewrite surface_get_or_add_frame].
    intros i e. destruct (surface_probe font text st) as [t|t] eqn:Hp.
    + destruct (surface_hit E font text st t Hp) as (e0 & He0 & Ho & _ & _ & Hr).
      rewrite Hr. simpl. destruct (decide (i = t)) as [->|Hne].
      * rewrite list_lookup_insert_eq by (now apply lookup_lt_Some in He0).
        intros [= <-] _. simpl. apply (Hhs t e0 He0). now apply Z.eqb_neq.
      * rewrite list_lookup_insert_ne by congruence. apply Hhs.
    + pose proof (early_surface_miss_home font text st t Hsz Hst Htick Hp) as Ht.
      destruct (surface_miss_writes E font text st t Hsz Hp) as (_ & Hrest & Hok & Hnull).
      destruct (decide (i = t)) as [->|Hne]; [|rewrite Hrest by assumption; apply Hhs].
      destruct (Z.eq_dec (fst (ttf_surface_cache_get_or_add E font text st)) nullptr)
        as [Hn|Hn].
      * destruct (Hnull Hn) as (e1 & He1 & Hempty). rewrite He1. intros [= <-] Ho.
        apply surface_empty_iff in Hempty. congruence.
      * rewrite (Hok Hn). intros [= <-] _. simpl. exists (c_str text).
        split; [reflexivity|]. split; [apply c_str_idem|].
        now rewrite surface_home_c_str.
  - split; [now rewrite getwidth_get_or_add_frame|].
    intros i e. destruct (getwidth_probe font text st) as [t|t] eqn:Hp.
    + destruct (getwidth_hit E font text st t Hp) as (e0 & He0 & _ & (s & Hs & _) & Hr).
      rewrite Hr. simpl. destruct (decide (i = t)) as [->|Hne].
      * rewrite list_lookup_insert_eq by (now apply lookup_lt_Some in He0).
        intros [= <-] _. simpl. apply (Hhw t e0 He0).
        unfold getwidth_is_empty. now rewrite Hs.
      * rewrite list_lookup_insert_ne by congruence. apply Hhw.
    + pose proof (early_getwidth_miss_home font text st t Hsz Hst Htick Hp) as Ht.
      destruct (getwidth_miss_writes E font text st t Hsz Hp) as (_ & Hrest & Hnew).
      destruct (decide (i = t)) as [->|Hne]; [|rewrite Hrest by assumption; apply Hhw].
      rewrite Hnew. intros [= <-] _. simpl. exists (c_str text).
      split; [reflexivity|]. split; [apply c_str_idem|].
      now rewrite getwidth_home_c_str.
  - destruct (surface_dispose_all_spec st (proj1 Hsz)) as (Hd & _ & _).
    pose proof (surface_dispose_all_frame st) as Hfr. cbv zeta in Hfr.
    destruct Hfr as (_ & _ & Hw' & _).
    split; [|now rewrite Hw'].
    intros i e He Ho. rewrite Hd in He.
    destruct (surface_all_disposed_at_home _ _ _ He Ho).
  - destruct (getwidth_dispose_all_spec st (proj2 Hsz)) as (Hd & _ & _).
    split; [now rewrite getwidth_dispose_all_frame|].
    intros i e He Ho. rewrite Hd in He.
    destruct (getwidth_all_disposed_at_home _ _ _ He Ho).
  - destruct (toggle_cases st (proj1 Hsz)) as ([Hc|Hc] & Hw' & _).
    + split; [now rewrite Hc|now rewrite Hw'].
    + split; [|now rewrite Hw'].
      intros i e He Ho. rewrite Hc in He.
      destruct (surface_all_disposed_at_home _ _ _ He Ho).
  - now split.
Qed.

Lemma early_run_no_store E ops :
  forall st,
  tables_sized st -> stamps_in_past st -> 0 <= gCurrentDrawCount st ->
  gCurrentDrawCount st + frames ops < 64 ->
  keys_at_home st ->
  no_held_key_stored E ops st = true.
Proof.
  induction ops as [|op ops IH]; intros st Hsz Hst Hpos Hlim Hhome; [reflexivity|].
  rewrite frames_cons in Hlim. pose proof (frames_nonneg ops) as Hf.
  assert (Htick : 0 <= gCurrentDrawCount st < 64) by (destruct (is_frame op); lia).
  simpl. rewrite (early_no_store E st op Hsz Hst Htick Hhome). simpl.
  destruct (step_stamps E st op Hsz Hpos) as [Htk Hst']; [|assumption|].
  { destruct (is_frame op); lia. }
  apply IH.
  - now apply step_sized.
  - assumption.
  - rewrite Htk. destruct (is_frame op); lia.
  - rewrite Htk. lia.
  - now apply step_keys_at_home.
Qed.

Lemma initial_state_at_home use_ttf hint fonts :
  keys_at_home (initial_state use_ttf hint fonts).
Proof.
  split; intros i e He Ho.
  - change (_ttfSurfaceCache (initial_state use_ttf hint fonts))
      with (replicate TTF_SURFACE_CACHE_SIZE empty_surface_entry) in He.
    apply lookup_replicate in He as [-> _]. discriminate.
  - change (_ttfGetWidthCache (initial_state use_ttf hint fonts))
      with (replicate TTF_GETWIDTH_CACHE_SIZE empty_getwidth_entry) in He.
    apply lookup_replicate in He as [-> _]. discriminate.
Qed.

(** C3, as the code has it.  In a state reached from the empty tables by
    lookups in either cache, disposals of a whole table, hinting toggles
    and frames, no two occupied slots of a table hold the same (font, text)
    pair, provided that no lookup of the run stored a key which its table
    held already; replacements as such do no harm.  No run of fewer than 64
    frames has such a lookup, whatever it replaces.  The condition cannot
    be dropped: in any such state a lookup that misses although its table
    holds the key and that stores the key, as a width lookup always does
    and a surface lookup when the render succeeds, leaves the key in two
    slots. *)
Theorem C3_keys_unique_unless_held_key_stored (E : FontEngine) (ops : list operation)
    (use_ttf enable_hinting : bool) (fonts : list TTFFontDescriptor) :
  let st0 := initial_state use_ttf enable_hinting fonts in
  let st := run E ops st0 in
  (no_held_key_stored E ops st0 = true ->
   keys_unique (surface_key <$> _ttfSurfaceCache st) /\
   keys_unique (getwidth_key <$> _ttfGetWidthCache st)) /\
  (frames ops < 64 -> no_held_key_stored E ops st0 = true) /\
  (forall font text,
     stores_held_key E (GetOrAddSurface font text) st = true ->
     let keys' := surface_key <$> _ttfSurfaceCache (step E st (GetOrAddSurface font text)) in
     exists i j, i <> j /\ keys' !! i = Some (Some (lookup_key font text)) /\
                 keys' !! j = Some (Some (lookup_key font text))) /\
  (forall font text,
     stores_held_key E (GetOrAddWidth font text) st = true ->
     let keys' := getwidth_key <$> _ttfGetWidthCache (step E st (GetOrAddWidth font text)) in
     exists i j, i <> j /\ keys' !! i = Some (Some (lookup_key font text)) /\
                 keys' !! j = Some (Some (lookup_key font text))).
Proof.
  intros st0 st.
  pose proof (initial_state_sized use_ttf enable_hinting fonts) as Hsz0. fold st0 in Hsz0.
  assert (Hsz : tables_sized st) by (now apply run_sized).
  split; [|split; [|split]].
  - intros Hno. destruct (initial_state_unique use_ttf enable_hinting fonts) as [Hs Hw].
    now apply run_unique.
  - intros Hfr. apply early_run_no_store.
    + exact Hsz0.
    + apply initial_state_stamps.
    + simpl. lia.
    + simpl. lia.
    + apply initial_state_at_home.
  - intros font text. now apply surface_store_duplicates.
  - intros font text. now apply getwidth_store_duplicates.
Qed.

(** At start-up the lookup of NB misses at slot 78, which holds AA: a
    replacement, by which no held key is stored. *)
Lemma replacement_run :
  surface_probe 4096 text_NB
    (run sample_engine [GetOrAddSurface 4096 text_AA; GetOrAddWidth 4096 text_AA] sample_state)
  = ProbeMiss 78 /\
  surface_key <$> (_ttfSurfaceCache
     (run sample_engine [GetOrAddSurface 4096 text_AA; GetOrAddWidth 4096 text_AA]
        sample_state) !! 78%nat)
  = Some (Some (4096, Some text_AA)) /\
  no_held_key_stored sample_engine replacement_ops sample_state = true.
Proof.
  split; [vm_compute; reflexivity|]. split; vm_compute; reflexivity.
Qed.

Lemma C3_keys_unique_unless_held_key_stored_witness :
  keys_unique (surface_key <$> _ttfSurfaceCache (run sample_engine replacement_ops sample_state))
  /\ keys_unique
       (getwidth_key <$> _ttfGetWidthCache (run sample_engine replacement_ops sample_state)).
Proof.
  exact (proj1 (C3_keys_unique_unless_held_key_stored sample_engine replacement_ops
                  true true sample_fonts)
           (proj2 (proj2 replacement_run))).
Defined.

(** C3 as stated fails.  AA and NB share the home slot 78.  Drawn within one
    frame, AA takes slot 78 and NB slot 79.  65 frames later AA is stale:
    the lookup of NB stops at slot 78, before it could reach slot 79, and
    stores NB there as well.  The same happens in the get-width table. *)
Lemma C3_counterexample :
  duplicate_key_state = run sample_engine duplicate_key_ops sample_state /\
  surface_key <$> (_ttfSurfaceCache duplicate_key_state !! 78%nat)
    = Some (Some (4096, Some text_NB)) /\
  surface_key <$> (_ttfSurfaceCache duplicate_key_state !! 79%nat)
    = Some (Some (4096, Some text_NB)) /\
  ~ keys_unique (surface_key <$> _ttfSurfaceCache duplicate_key_state) /\
  ~ keys_unique (getwidth_key <$> _ttfGetWidthCache duplicate_key_state).
Proof.
  split; [reflexivity|].
  split; [vm_compute; reflexivity|]. split; [vm_compute; reflexivity|]. split.
  - intros H.
    assert (78 = 79)%nat; [|discriminate].
    apply (H 78%nat 79%nat (4096, Some text_NB)); vm_compute; reflexivity.
  - intros H.
    assert (78 = 79)%nat; [|discriminate].
    apply (H 78%nat 79%nat (4096, Some text_NB)); vm_compute; reflexivity.
Qed.
